(** * The Mu exporter: scene graph to model tree

    A shallow embedding of [export_mu/__init__.py] (the tree builder
    [make_obj], the resource interning of [make_texture], [make_material]
    and [make_renderer], the config emitter [generate_cfg], the export
    [export_object] and the [poll] of its operators) and of the parts of
    [part.py], together with the properties of the exporter that are
    stated about them. *)

From Stdlib Require Import String Ascii List.
From Stdlib Require Import ZArith.
From stdpp Require Import gmap strings list fin_maps sorting pretty.

Set Warnings "-register-all".

(** ** The host: Blender's value types

    [mathutils] vectors, quaternions and matrices, Python floats and the
    enumerations of [bpy] are kept abstract.  [live_vectors] records how
    the host hands out the [location] attribute: [true] when reading it
    yields a view that keeps following the object's data (as a wrapped
    [mathutils.Vector] does), [false] when it yields an independent
    value. *)

Class Host : Type := {
  scalar : Type;
  Vector : Type;
  Quaternion : Type;
  Euler : Type;
  Matrix : Type;
  Color : Type;
  Mask : Type;
  MuMesh : Type;
  MuCollider : Type;
  AttachNode : Type;
  live_vectors : bool;
  vec_sub : Vector -> Vector -> Vector;
  vec_eqb : Vector -> Vector -> bool;
  vec_ones : Vector;
  vec_truthy : Vector -> bool;
  quat_mul : Quaternion -> Quaternion -> Quaternion;
  quat_x_plus90 : Quaternion;
  quat_x_minus90 : Quaternion;
  to_quaternion : Euler -> Quaternion;
  degrees : scalar -> scalar;
  scalar_zero : scalar;
  with_alpha : Color -> Color;
  GetPropMask : Mask -> Mask;
  strip_nnn : string -> string;
  swapyz : Vector -> Vector;
  swizzleq : Quaternion -> Vector;
  vector_str : Vector -> string
}.

(** ** Scene objects (the read side) *)

Inductive LightType := SPOT | SUN | POINT | AREA | HEMI.
Inductive ClearFlags := SKYBOX | COLOR | DEPTH | NOTHING.

Section Model.
Context `{Host}.

Record TexSlot := {
  slot_name : string;
  slot_tex : string;
  slot_type : nat;
  slot_scale : list scalar;
  slot_offset : list scalar
}.

Inductive PropValue := PFloat (x : scalar) | PSeq (xs : list scalar).

Record PropItem := { item_name : string; item_value : PropValue }.

Record MuMatProp := {
  shaderName : string;
  color_properties : list PropItem;
  vector_properties : list PropItem;
  float2_properties : list PropItem;
  float3_properties : list PropItem;
  texture_properties : list TexSlot
}.

Record Material := { mat_name : string; mumatprop : MuMatProp }.

Record Mesh := { mesh_materials : list Material }.

Record Light := {
  light_type : LightType;
  light_color : Color;
  light_distance : scalar;
  light_energy : scalar;
  spot_size : scalar
}.

Record Camera := {
  camera_ortho : bool;
  camera_angle : scalar;
  clip_start : scalar;
  clip_end : scalar
}.

(** [obj.data]: the attached data block, by its [bpy.types] class. *)
Inductive ObjData :=
| DMesh (m : Mesh)
| DLight (l : Light)
| DCamera (c : Camera)
| DOther.

Record MuProperties := {
  prop_tag : string;
  prop_layer : nat;
  prop_collider : string;
  prop_modelType : string;
  prop_cullingMask : Mask;
  prop_clearFlags : ClearFlags;
  prop_backgroundColor : Color;
  prop_depth : scalar
}.

(** Objects and groups refer to each other by reference; a reference is a
    slot number of the scene store. *)
Record BObject := {
  obj_name : string;
  location : Vector;
  rotation_mode : string;
  rotation_euler : Euler;
  rotation_quaternion : Quaternion;
  scale : Vector;
  matrix_world : Matrix;
  data : option ObjData;
  parent : option nat;
  children : list nat;
  dupli_group : option nat;
  users_group : list string;
  muproperties : MuProperties
}.

Record Group := {
  group_name : string;
  group_objects : list nat;
  dupli_offset : Vector
}.

Definition set_location (v : Vector) (o : BObject) : BObject :=
  {| obj_name := obj_name o; location := v;
     rotation_mode := rotation_mode o; rotation_euler := rotation_euler o;
     rotation_quaternion := rotation_quaternion o; scale := scale o;
     matrix_world := matrix_world o; data := data o; parent := parent o;
     children := children o; dupli_group := dupli_group o;
     users_group := users_group o; muproperties := muproperties o |}.

(** A vector held by the exporter: either a value of its own or the
    [location] of a scene object, read through. *)
Inductive VecRef := Copy (v : Vector) | LocationOf (o : nat).

(** ** The output side *)

Record MuTransform := {
  tr_name : string;
  localPosition : VecRef;
  localRotation : Quaternion;
  localScale : Vector
}.

Record MuTagLayer := { tag : string; layer : nat }.

Record MuTexture := { tex_name : string; tex_type : nat; tex_index : nat }.

Record MuMatTex := {
  mattex_index : nat;
  mattex_scale : list scalar;
  mattex_offset : list scalar
}.

Record MuMaterial := {
  material_name : string;
  material_index : nat;
  material_shaderName : string;
  colorProperties : gmap string PropValue;
  vectorProperties : gmap string PropValue;
  floatProperties2 : gmap string PropValue;
  floatProperties3 : gmap string PropValue;
  textureProperties : gmap string MuMatTex
}.

Record MuRenderer := { rend_materials : list nat }.

Record MuLight := {
  mulight_type : nat;
  mulight_color : Color;
  mulight_range : scalar;
  mulight_intensity : scalar;
  mulight_spotAngle : scalar;
  mulight_cullingMask : Mask
}.

Record MuCamera := {
  mucamera_clearFlags : nat;
  mucamera_backgroundColor : Color;
  mucamera_cullingMask : Mask;
  mucamera_orthographic : bool;
  mucamera_fov : scalar;
  mucamera_near : scalar;
  mucamera_far : scalar;
  mucamera_depth : scalar
}.

(** A [MuObject] carries the identity Python gives it at construction
    ([oid], the allocation number): the path index of the model holds
    references to nodes, and a reference is told apart by identity. *)
Inductive MuObject := mkMuObject {
  oid : nat;
  transform : MuTransform;
  tag_and_layer : option MuTagLayer;
  shared_mesh : option MuMesh;
  renderer : option MuRenderer;
  light : option MuLight;
  camera : option MuCamera;
  collider : option MuCollider;
  mu_children : list MuObject
}.

(** The model under construction.  [object_paths], [materials] and
    [textures] are Python dicts keyed by strings. *)
Record Mu := {
  mu_name : string;
  object_paths : gmap string nat;
  materials : gmap string MuMaterial;
  textures : gmap string MuTexture;
  nodes : list AttachNode;
  props : list nat;
  internal : option nat;
  mu_type : string;
  CoMOffset : option Vector;
  CoPOffset : option Vector;
  CoLOffset : option Vector;
  inverse : Matrix
}.

(** Modelled from the spec: the config node tree of [cfgnode.py], a
    "generic hierarchical key/value document with load-from-text,
    get-section-by-name, add-section, add-key/value" operations.  A node
    holds its key/value pairs and its named sections, both in the order
    they were added. *)
Inductive ConfigNode := mkConfigNode {
  cfg_values : list (string * string);
  cfg_nodes : list (string * ConfigNode)
}.

(** The Python state the exporter runs in: the model, the scene store
    (objects and groups by reference) and the allocation counter that
    gives every new [MuObject] its identity. *)
Record World := {
  w_mu : Mu;
  w_objects : nat -> BObject;
  w_groups : nat -> Group;
  w_next : nat
}.

End Model.

(** ** Collaborators outside this module

    [make_mesh], [make_collider], the [AttachNode] class, the template
    lookup and parser and the matrix arithmetic are consumed through
    their interfaces only. *)

Class Collaborators `{Host} : Type := {
  make_mesh : BObject -> MuMesh;
  make_collider : BObject -> MuCollider;
  new_AttachNode : BObject -> Matrix -> AttachNode;
  keep_transform : AttachNode -> bool;
  sort_nodes : list AttachNode -> list AttachNode;
  save_node : AttachNode -> ConfigNode -> ConfigNode;
  model_position : Matrix -> Matrix -> Vector;
  inverted : Matrix -> Matrix;
  find_template : Mu -> string -> option (string * ConfigNode);
  scene_modelType : string;
  parse_node : Mu -> ConfigNode -> ConfigNode
}.

(** ** Outcomes and the exporter monad

    A call returns, raises, or exceeds the depth the model follows it to.
    A raised exception leaves the state as it was when it was raised:
    Python undoes nothing. *)

Inductive exn := ValueError | KeyError.

Inductive outcome `{Host} (A : Type) : Type :=
| Ok (a : A) (w : World)
| Raise (e : exn) (w : World)
| OutOfFuel.
Arguments Ok {_ _} a w.
Arguments Raise {_ _} e w.
Arguments OutOfFuel {_ _}.

Definition M `{Host} (A : Type) : Type := World -> outcome A.

Definition ret `{Host} {A} (a : A) : M A := fun w => Ok a w.

Definition bind `{Host} {A B} (c : M A) (k : A -> M B) : M B :=
  fun w => match c w with
           | Ok a w' => k a w'
           | Raise e w' => Raise e w'
           | OutOfFuel => OutOfFuel
           end.

Definition raise `{Host} {A} (e : exn) : M A := fun w => Raise e w.
Definition out_of_fuel `{Host} {A} : M A := fun _ => OutOfFuel.
Definition get `{Host} : M World := fun w => Ok w w.
Definition put `{Host} (w : World) : M unit := fun _ => Ok tt w.

Declare Scope exporter_scope.
Delimit Scope exporter_scope with exporter.
Notation "x <- c ;; k" := (bind c (fun x => k))
  (at level 100, c at next level, right associativity) : exporter_scope.
Notation "c ;;; k" := (bind c (fun _ => k))
  (at level 100, right associativity) : exporter_scope.
Open Scope exporter_scope.

Section Exporter.
Context `{Collaborators}.

(** *** State access *)

Definition with_mu (m : Mu) (w : World) : World :=
  {| w_mu := m; w_objects := w_objects w; w_groups := w_groups w;
     w_next := w_next w |}.

Definition with_objects (f : nat -> BObject) (w : World) : World :=
  {| w_mu := w_mu w; w_objects := f; w_groups := w_groups w;
     w_next := w_next w |}.

Definition with_next (n : nat) (w : World) : World :=
  {| w_mu := w_mu w; w_objects := w_objects w; w_groups := w_groups w;
     w_next := n |}.

Definition modify_mu (f : Mu -> Mu) : M unit :=
  fun w => Ok tt (with_mu (f (w_mu w)) w).

(** Running a function that threads the model only. *)
Definition on_mu {A} (f : Mu -> Mu * A) : M A :=
  fun w => let (m, a) := f (w_mu w) in Ok a (with_mu m w).

Definition get_object (o : nat) : M BObject := fun w => Ok (w_objects w o) w.
Definition get_group (g : nat) : M Group := fun w => Ok (w_groups w g) w.

Definition update (o : nat) (b : BObject) (f : nat -> BObject) : nat -> BObject :=
  fun i => if Nat.eqb i o then b else f i.

(** [o.location], read. *)
Definition read_location (o : nat) : M VecRef :=
  fun w => Ok (if live_vectors then LocationOf o
               else Copy (location (w_objects w o))) w.

Definition deref (w : World) (v : VecRef) : Vector :=
  match v with
  | Copy x => x
  | LocationOf o => location (w_objects w o)
  end.

(** [o.location = v] *)
Definition assign_location (o : nat) (v : VecRef) : M unit :=
  fun w => Ok tt (with_objects
                    (update o (set_location (deref w v) (w_objects w o))
                            (w_objects w)) w).

(** [o.location -= d] *)
Definition isub_location (o : nat) (d : Vector) : M unit :=
  fun w => Ok tt (with_objects
                    (update o (set_location
                                 (vec_sub (location (w_objects w o)) d)
                                 (w_objects w o))
                            (w_objects w)) w).

(** [MuObject()]: a new identity; the node has nothing in it until its
    transform is set. *)
Definition new_MuObject : M nat :=
  fun w => Ok (w_next w) (with_next (S (w_next w)) w).

Definition empty_MuObject (i : nat) (t : MuTransform) : MuObject :=
  {| oid := i; transform := t; tag_and_layer := None; shared_mesh := None;
     renderer := None; light := None; camera := None; collider := None;
     mu_children := [] |}.

(** *** Attribute assignment on records *)

Definition set_localRotation (q : Quaternion) (t : MuTransform) : MuTransform :=
  {| tr_name := tr_name t; localPosition := localPosition t;
     localRotation := q; localScale := localScale t |}.

Definition set_transform (t : MuTransform) (m : MuObject) : MuObject :=
  mkMuObject (oid m) t (tag_and_layer m) (shared_mesh m) (renderer m)
             (light m) (camera m) (collider m) (mu_children m).

Definition set_tag_and_layer (tl : MuTagLayer) (m : MuObject) : MuObject :=
  mkMuObject (oid m) (transform m) (Some tl) (shared_mesh m) (renderer m)
             (light m) (camera m) (collider m) (mu_children m).

Definition set_shared_mesh (x : MuMesh) (m : MuObject) : MuObject :=
  mkMuObject (oid m) (transform m) (tag_and_layer m) (Some x) (renderer m)
             (light m) (camera m) (collider m) (mu_children m).

Definition set_renderer (x : option MuRenderer) (m : MuObject) : MuObject :=
  mkMuObject (oid m) (transform m) (tag_and_layer m) (shared_mesh m) x
             (light m) (camera m) (collider m) (mu_children m).

Definition set_light (x : MuLight) (m : MuObject) : MuObject :=
  mkMuObject (oid m) (transform m) (tag_and_layer m) (shared_mesh m)
             (renderer m) (Some x) (camera m) (collider m) (mu_children m).

Definition set_camera (x : MuCamera) (m : MuObject) : MuObject :=
  mkMuObject (oid m) (transform m) (tag_and_layer m) (shared_mesh m)
             (renderer m) (light m) (Some x) (collider m) (mu_children m).

Definition set_collider (x : MuCollider) (m : MuObject) : MuObject :=
  mkMuObject (oid m) (transform m) (tag_and_layer m) (shared_mesh m)
             (renderer m) (light m) (camera m) (Some x) (mu_children m).

(** [muobj.children.append(child)] *)
Definition append_child (c : MuObject) (m : MuObject) : MuObject :=
  mkMuObject (oid m) (transform m) (tag_and_layer m) (shared_mesh m)
             (renderer m) (light m) (camera m) (collider m)
             (mu_children m ++ [c]).

(** [t.localRotation = t.localRotation @ rot] *)
Definition rotate (rot : Quaternion) (m : MuObject) : MuObject :=
  set_transform
    (set_localRotation (quat_mul (localRotation (transform m)) rot)
                       (transform m)) m.

Definition set_object_paths (x : gmap string nat) (m : Mu) : Mu :=
  {| mu_name := mu_name m; object_paths := x; materials := materials m;
     textures := textures m; nodes := nodes m; props := props m;
     internal := internal m; mu_type := mu_type m;
     CoMOffset := CoMOffset m; CoPOffset := CoPOffset m;
     CoLOffset := CoLOffset m; inverse := inverse m |}.

Definition set_materials (x : gmap string MuMaterial) (m : Mu) : Mu :=
  {| mu_name := mu_name m; object_paths := object_paths m; materials := x;
     textures := textures m; nodes := nodes m; props := props m;
     internal := internal m; mu_type := mu_type m;
     CoMOffset := CoMOffset m; CoPOffset := CoPOffset m;
     CoLOffset := CoLOffset m; inverse := inverse m |}.

Definition set_textures (x : gmap string MuTexture) (m : Mu) : Mu :=
  {| mu_name := mu_name m; object_paths := object_paths m;
     materials := materials m; textures := x; nodes := nodes m;
     props := props m; internal := internal m; mu_type := mu_type m;
     CoMOffset := CoMOffset m; CoPOffset := CoPOffset m;
     CoLOffset := CoLOffset m; inverse := inverse m |}.

Definition set_nodes (x : list AttachNode) (m : Mu) : Mu :=
  {| mu_name := mu_name m; object_paths := object_paths m;
     materials := materials m; textures := textures m; nodes := x;
     props := props m; internal := internal m; mu_type := mu_type m;
     CoMOffset := CoMOffset m; CoPOffset := CoPOffset m;
     CoLOffset := CoLOffset m; inverse := inverse m |}.

Definition set_props (x : list nat) (m : Mu) : Mu :=
  {| mu_name := mu_name m; object_paths := object_paths m;
     materials := materials m; textures := textures m; nodes := nodes m;
     props := x; internal := internal m; mu_type := mu_type m;
     CoMOffset := CoMOffset m; CoPOffset := CoPOffset m;
     CoLOffset := CoLOffset m; inverse := inverse m |}.

Definition set_internal (x : option nat) (m : Mu) : Mu :=
  {| mu_name := mu_name m; object_paths := object_paths m;
     materials := materials m; textures := textures m; nodes := nodes m;
     props := props m; internal := x; mu_type := mu_type m;
     CoMOffset := CoMOffset m; CoPOffset := CoPOffset m;
     CoLOffset := CoLOffset m; inverse := inverse m |}.

(** [setattr(mu, name, v)] for the three offset markers. *)
Definition set_offset (name : string) (v : Vector) (m : Mu) : Mu :=
  {| mu_name := mu_name m; object_paths := object_paths m;
     materials := materials m; textures := textures m; nodes := nodes m;
     props := props m; internal := internal m; mu_type := mu_type m;
     CoMOffset := if String.eqb name "CoMOffset" then Some v else CoMOffset m;
     CoPOffset := if String.eqb name "CoPOffset" then Some v else CoPOffset m;
     CoLOffset := if String.eqb name "CoLOffset" then Some v else CoLOffset m;
     inverse := inverse m |}.

(** *** Transform, tag and layer *)

Definition make_transform (obj : nat) : M MuTransform :=
  o <- get_object obj ;;
  loc <- read_location obj ;;
  ret {| tr_name := strip_nnn (obj_name o);
         localPosition := loc;
         localRotation :=
           if negb (String.eqb (rotation_mode o) "QUATERNION")
           then to_quaternion (rotation_euler o)
           else rotation_quaternion o;
         localScale := scale o |}.

Definition make_tag_and_layer (o : BObject) : MuTagLayer :=
  {| tag := prop_tag (muproperties o); layer := prop_layer (muproperties o) |}.

(** *** Interning textures and materials *)

Definition make_texture (mu : Mu) (tex : TexSlot) : Mu * MuMatTex :=
  let mu :=
    match textures mu !! slot_tex tex with
    | None =>
        let mutex := {| tex_name := slot_tex tex; tex_type := slot_type tex;
                        tex_index := size (textures mu) |} in
        set_textures (<[slot_tex tex := mutex]> (textures mu)) mu
    | Some _ => mu
    end in
  (mu, {| mattex_index :=
            match textures mu !! slot_tex tex with
            | Some t => tex_index t
            | None => 0
            end;
          mattex_scale := slot_scale tex;
          mattex_offset := slot_offset tex |}).

Definition make_property (blendprop : list PropItem) : gmap string PropValue :=
  fold_left (fun muprop item => <[item_name item := item_value item]> muprop)
            blendprop ∅.

Fixpoint make_tex_property_from (mu : Mu) (blendprop : list TexSlot)
    (muprop : gmap string MuMatTex) : Mu * gmap string MuMatTex :=
  match blendprop with
  | [] => (mu, muprop)
  | item :: rest =>
      let (mu, mattex) := make_texture mu item in
      make_tex_property_from mu rest (<[slot_name item := mattex]> muprop)
  end.

Definition make_tex_property (mu : Mu) (blendprop : list TexSlot)
    : Mu * gmap string MuMatTex :=
  make_tex_property_from mu blendprop ∅.

Definition make_material (mu : Mu) (mat : Material) : Mu * MuMaterial :=
  let index := size (materials mu) in
  let matprops := mumatprop mat in
  let (mu, texprops) := make_tex_property mu (texture_properties matprops) in
  (mu, {| material_name := mat_name mat;
          material_index := index;
          material_shaderName := shaderName matprops;
          colorProperties := make_property (color_properties matprops);
          vectorProperties := make_property (vector_properties matprops);
          floatProperties2 := make_property (float2_properties matprops);
          floatProperties3 := make_property (float3_properties matprops);
          textureProperties := texprops |}).

(** A Python string is true when it is not empty. *)
Definition truthy (s : string) : bool := negb (String.eqb s "").

(** The loop of [make_renderer] over [mesh.materials], with the list
    [rend.materials] built so far. *)
Fixpoint renderer_materials (mu : Mu) (mats : list Material) (acc : list nat)
    : Mu * list nat :=
  match mats with
  | [] => (mu, acc)
  | mat :: rest =>
      if truthy (shaderName (mumatprop mat)) then
        let mu :=
          match materials mu !! mat_name mat with
          | None =>
              let (mu, material) := make_material mu mat in
              set_materials (<[mat_name mat := material]> (materials mu)) mu
          | Some _ => mu
          end in
        let index := match materials mu !! mat_name mat with
                     | Some m => material_index m
                     | None => 0
                     end in
        renderer_materials mu rest (acc ++ [index])
      else renderer_materials mu rest acc
  end.

Definition make_renderer (mu : Mu) (mesh : Mesh) : Mu * option MuRenderer :=
  let (mu, mats) := renderer_materials mu (mesh_materials mesh) [] in
  match mats with
  | [] => (mu, None)
  | _ => (mu, Some {| rend_materials := mats |})
  end.

(** *** Lights and cameras *)

(** [('SPOT', 'SUN', 'POINT', 'AREA').index(light.type)]: a hemi light
    is not in the tuple, and [index] raises [ValueError] for it. *)
Definition light_type_index (t : LightType) : option nat :=
  match t with
  | SPOT => Some 0
  | SUN => Some 1
  | POINT => Some 2
  | AREA => Some 3
  | HEMI => None
  end.

Definition make_light (l : Light) (o : BObject) : M MuLight :=
  match light_type_index (light_type l) with
  | None => raise ValueError
  | Some i =>
      ret {| mulight_type := i;
             mulight_color := with_alpha (light_color l);
             mulight_range := light_distance l;
             mulight_intensity := light_energy l;
             mulight_spotAngle :=
               match light_type l with
               | SPOT => degrees (spot_size l)
               | _ => scalar_zero
               end;
             mulight_cullingMask :=
               GetPropMask (prop_cullingMask (muproperties o)) |}
  end.

Definition clear_flags_index (c : ClearFlags) : nat :=
  match c with SKYBOX => 0 | COLOR => 1 | DEPTH => 2 | NOTHING => 3 end.

Definition make_camera (c : Camera) (o : BObject) : MuCamera :=
  {| mucamera_clearFlags :=
       clear_flags_index (prop_clearFlags (muproperties o)) + 1;
     mucamera_backgroundColor := prop_backgroundColor (muproperties o);
     mucamera_cullingMask := GetPropMask (prop_cullingMask (muproperties o));
     mucamera_orthographic := camera_ortho c;
     mucamera_fov := degrees (camera_angle c);
     mucamera_near := clip_start c;
     mucamera_far := clip_end c;
     mucamera_depth := prop_depth (muproperties o) |}.

(** [type(data) in exportable_types], the meshes, cameras and the five
    light classes. *)
Definition exportable (d : ObjData) : bool :=
  match d with
  | DMesh _ | DLight _ | DCamera _ => true
  | DOther => false
  end.

(** *** Group roots *)

(** The [while obj.parent] loop, followed for at most [fuel] further
    steps ([None] when the chain of parents is longer).  The [print]
    calls are left out. *)
Fixpoint is_group_root (fuel : nat) (objs : nat -> BObject) (obj : nat)
    (group : Group) : option bool :=
  match parent (objs obj) with
  | None => Some true
  | Some p =>
      if negb (existsb (String.eqb (group_name group)) (users_group (objs p)))
      then Some false
      else match fuel with
           | 0 => None
           | S fuel' => is_group_root fuel' objs p group
           end
  end.

Definition group_root (fuel : nat) (o : nat) (group : Group) : M bool :=
  fun w => match is_group_root fuel (w_objects w) o group with
           | Some b => Ok b w
           | None => OutOfFuel
           end.

(** *** The tree builder *)

(** A special handler of a model type: [handler(mu, o)] may change the
    model and says whether it claimed the child. *)
Definition Handler : Type := Mu -> nat -> Mu * bool.

Definition add_internal : Handler :=
  fun mu obj =>
    (match internal mu with
     | None => set_internal (Some obj) mu
     | Some _ => mu
     end, true).

Definition add_prop : Handler :=
  fun mu obj => (set_props (props mu ++ [obj]) mu, true).

Definition special_modelTypes : gmap string (gmap string Handler) :=
  <["NONE" := ∅]>
  (<["PART" := <["INTERNAL" := add_internal]> ∅]>
  (<["PROP" := ∅]>
  (<["INTERNAL" := <["PROP" := add_prop]> ∅]> ∅))).

(** [muprops.collider and muprops.collider != 'MU_COL_NONE'] *)
Definition has_collider (o : BObject) : bool :=
  truthy (prop_collider (muproperties o))
  && negb (String.eqb (prop_collider (muproperties o)) "MU_COL_NONE").

(** [path] extended by a node name: [if path: path += "/"] and then
    [path += name]. *)
Definition extend_path (path name : string) : string :=
  (if truthy path then path +:+ "/" else path) +:+ name.

Section Builder.
(** [rec] stands for the recursive call of [make_obj]. *)
Variable rec : nat -> string -> M (option MuObject).
Variable special : gmap string Handler.
Variable fuel : nat.

(** [for o in group.objects] of lines 193-206. *)
Fixpoint group_children (group : Group) (path : string) (os : list nat)
    (muobj : MuObject) : M MuObject :=
  match os with
  | [] => ret muobj
  | o :: rest =>
      root <- group_root fuel o group ;;
      if negb root then group_children group path rest muobj
      else
        loc <- read_location o ;;
        isub_location o (dupli_offset group) ;;;
        child <- rec o path ;;
        assign_location o loc ;;;
        group_children group path rest
          (match child with
           | Some c => append_child c muobj
           | None => muobj
           end)
  end.

(** [for o in obj.children] of lines 229-241. *)
Fixpoint object_children (path : string) (os : list nat) (muobj : MuObject)
    : M MuObject :=
  match os with
  | [] => ret muobj
  | o :: rest =>
      c <- get_object o ;;
      claimed <- match special !! prop_modelType (muproperties c) with
                 | Some handler => on_mu (fun mu => handler mu o)
                 | None => ret false
                 end ;;
      if claimed then object_children path rest muobj
      else if has_collider c then
        object_children path rest (set_collider (make_collider c) muobj)
      else if match data c with
              | Some d => negb (exportable d)
              | None => false
              end
      then object_children path rest muobj
      else
        child <- rec o path ;;
        object_children path rest
          (match child with
           | Some c => append_child c muobj
           | None => muobj
           end)
  end.

(** Lines 174-190: what an object without data does to the model and to
    its node; [None] is the early [return None]. *)
Definition make_empty (o : BObject) (muobj : MuObject) : M (option MuObject) :=
  match data o with
  | Some _ => ret (Some muobj)
  | None =>
      let name := strip_nnn (obj_name o) in
      if String.eqb (substring 0 5 name) "node_" then
        w <- get ;;
        let n := new_AttachNode o (inverse (w_mu w)) in
        modify_mu (fun mu => set_nodes (nodes mu ++ [n]) mu) ;;;
        if negb (keep_transform n) then ret None
        else ret (Some (rotate quat_x_plus90 muobj))
      else if existsb (String.eqb name) ["CoMOffset"; "CoPOffset"; "CoLOffset"]
      then
        modify_mu (fun mu =>
          set_offset name (model_position (inverse mu) (matrix_world o)) mu) ;;;
        ret (Some muobj)
      else ret (Some muobj)
  end.

(** Lines 211-228: the node of an object with data. *)
Definition make_data (d : ObjData) (o : BObject) (muobj : MuObject)
    : M MuObject :=
  match d with
  | DMesh mesh =>
      let muobj := set_shared_mesh (make_mesh o) muobj in
      r <- on_mu (fun mu => make_renderer mu mesh) ;;
      ret (set_renderer r muobj)
  | DLight l =>
      ml <- make_light l o ;;
      ret (rotate quat_x_minus90 (set_light ml muobj))
  | DCamera c =>
      ret (rotate quat_x_minus90 (set_camera (make_camera c o) muobj))
  | DOther => ret muobj
  end.

(** Lines 167-173: the new node with its transform, tag and layer, and
    its path, under which it is entered in [mu.object_paths]. *)
Definition make_head (obj : nat) (path : string) : M (MuObject * string) :=
  i <- new_MuObject ;;
  t <- make_transform obj ;;
  let muobj := empty_MuObject i t in
  let path := extend_path path (tr_name t) in
  modify_mu (fun mu => set_object_paths (<[path := i]> (object_paths mu)) mu) ;;;
  o <- get_object obj ;;
  ret (set_tag_and_layer (make_tag_and_layer o) muobj, path).

(** Lines 191-228: the [if]/[elif] chain on group instance, collider and
    data. *)
Definition make_role (o : BObject) (path : string) (muobj : MuObject)
    : M MuObject :=
  match data o, dupli_group o with
  | None, Some g =>
      group <- get_group g ;;
      group_children group path (group_objects group) muobj
  | _, _ =>
      if has_collider o then ret muobj
      else match data o with
           | Some d => make_data d o muobj
           | None => ret muobj
           end
  end.

(** Lines 174-242: everything after the node has been entered in the
    path index. *)
Definition make_tail (obj : nat) (head : MuObject * string)
    : M (option MuObject) :=
  let (muobj, path) := head in
  o <- get_object obj ;;
  kept <- make_empty o muobj ;;
  match kept with
  | None => ret None
  | Some muobj =>
      muobj <- make_role o path muobj ;;
      muobj <- object_children path (children o) muobj ;;
      ret (Some muobj)
  end.

Definition make_obj_body (obj : nat) (path : string) : M (option MuObject) :=
  head <- make_head obj path ;;
  make_tail obj head.

End Builder.

(** [make_obj], followed to a nesting depth of [fuel]. *)
Fixpoint make_obj (fuel : nat) (special : gmap string Handler) (obj : nat)
    (path : string) : M (option MuObject) :=
  match fuel with
  | 0 => out_of_fuel
  | S fuel' =>
      make_obj_body (make_obj fuel' special) special fuel' obj path
  end.

(** *** The config emitter *)

(** Modelled from the spec: [ConfigNode.AddValue], the "add-key/value"
    operation; the pair is added after the ones already there. *)
Definition AddValue (name value : string) (n : ConfigNode) : ConfigNode :=
  mkConfigNode (cfg_values n ++ [(name, value)]) (cfg_nodes n).

(** Modelled from the spec: [ConfigNode.AddNewNode], the "add-section"
    operation.  The Python method returns the new, empty section and the
    caller fills it; here the caller's filling is [fill]. *)
Definition AddNewNode (name : string) (fill : ConfigNode -> ConfigNode)
    (n : ConfigNode) : ConfigNode :=
  mkConfigNode (cfg_values n)
               (cfg_nodes n ++ [(name, fill (mkConfigNode [] []))]).

(** Modelled from the spec: [ConfigNode.GetNode], "get-section-by-name":
    the first section of that name. *)
Definition GetNode (name : string) (n : ConfigNode) : option ConfigNode :=
  snd <$> find (fun p => String.eqb (fst p) name) (cfg_nodes n).

(** The section [GetNode] returned is changed in place: [update_node]
    applies the change to the first section of that name. *)
Fixpoint update_first (name : string) (f : ConfigNode -> ConfigNode)
    (l : list (string * ConfigNode)) : list (string * ConfigNode) :=
  match l with
  | [] => []
  | p :: rest =>
      if String.eqb (fst p) name then (fst p, f (snd p)) :: rest
      else p :: update_first name f rest
  end.

Definition update_node (name : string) (f : ConfigNode -> ConfigNode)
    (n : ConfigNode) : ConfigNode :=
  mkConfigNode (cfg_values n) (update_first name f (cfg_nodes n)).

Definition add_internal_node (node : ConfigNode) (internal : BObject)
    : ConfigNode :=
  AddNewNode "INTERNAL" (fun inode =>
    let inode := AddValue "name" (strip_nnn (obj_name internal)) inode in
    let inode :=
      if vec_truthy (location internal)
      then AddValue "offset" (vector_str (swapyz (location internal))) inode
      else inode in
    if negb (vec_eqb (scale internal) vec_ones)
    then AddValue "scale" (vector_str (swapyz (scale internal))) inode
    else inode) node.

Definition add_prop_node (node : ConfigNode) (prop : BObject) : ConfigNode :=
  AddNewNode "PROP" (fun pnode =>
    let pnode := AddValue "name" (strip_nnn (obj_name prop)) pnode in
    let pnode :=
      AddValue "position" (vector_str (swapyz (location prop))) pnode in
    let pnode :=
      AddValue "position"
               (vector_str (swizzleq (rotation_quaternion prop))) pnode in
    AddValue "scale" (vector_str (swapyz (scale prop))) pnode) node.

Definition add_offset (name : string) (v : option Vector) (node : ConfigNode)
    : ConfigNode :=
  match v with
  | Some x => AddValue name (vector_str (swapyz x)) node
  | None => node
  end.

(** Lines 292-306: what is merged into the section of the model's type.
    [nodes] is [mu.nodes] after [mu.nodes.sort()]. *)
Definition fill_section (ntype : string) (mu : Mu) (objs : nat -> BObject)
    (node : ConfigNode) : ConfigNode :=
  if String.eqb ntype "PART" then
    let node := add_offset "CoMOffset" (CoMOffset mu) node in
    let node := add_offset "CoPOffset" (CoPOffset mu) node in
    let node := add_offset "CoLOffset" (CoLOffset mu) node in
    let node := match internal mu with
                | Some i => add_internal_node node (objs i)
                | None => node
                end in
    fold_left (fun node n => save_node n node) (nodes mu) node
  else if String.eqb ntype "INTERNAL" then
    fold_left (fun node prop => add_prop_node node (objs prop)) (props mu) node
  else node.

(** [generate_cfg]: the model as it leaves (its attachment nodes sorted
    when the type is PART) and the file written, if one is: its name and
    the document whose sections are written to it. *)
Definition generate_cfg (mu : Mu) (filepath : string) (objs : nat -> BObject)
    : Mu * option (string * ConfigNode) :=
  match find_template mu filepath with
  | None => (mu, None)
  | Some (cfgfile, cfgnode) =>
      let ntype := if String.eqb (mu_type mu) "NONE" then scene_modelType
                   else mu_type mu in
      match GetNode ntype cfgnode with
      | None => (mu, None)
      | Some _ =>
          let cfgnode := parse_node mu cfgnode in
          let mu := if String.eqb ntype "PART"
                    then set_nodes (sort_nodes (nodes mu)) mu else mu in
          (mu, Some (cfgfile,
                     update_node ntype (fill_section ntype mu objs) cfgnode))
      end
  end.

(** [export_object], as far as the tree pass and the config emission go:
    the animation binding, the binary write and the volume computation
    between the two belong to other modules. *)
Definition export_object (fuel : nat) (obj : nat) (filepath : string)
    : M (option MuObject * option (string * ConfigNode)) :=
  o <- get_object obj ;;
  modify_mu (fun _ =>
    {| mu_name := strip_nnn (obj_name o); object_paths := ∅;
       materials := ∅; textures := ∅; nodes := []; props := [];
       internal := None; mu_type := prop_modelType (muproperties o);
       CoMOffset := None; CoPOffset := None; CoLOffset := None;
       inverse := inverted (matrix_world o) |}) ;;;
  special <- match special_modelTypes !! prop_modelType (muproperties o) with
             | Some special => ret special
             | None => raise KeyError
             end ;;
  root <- make_obj fuel special obj "" ;;
  w <- get ;;
  let (mu, cfg) := generate_cfg (w_mu w) filepath (w_objects w) in
  modify_mu (fun _ => mu) ;;;
  ret (root, cfg).

(** [list.sort(key=...)] on a key that is a number: a stable sort, here
    by insertion. *)
Fixpoint insert_by {A} (key : A -> nat) (x : A) (l : list A) : list A :=
  match l with
  | [] => [x]
  | y :: rest =>
      if key x <=? key y then x :: y :: rest else y :: insert_by key x rest
  end.

Definition sort_by {A} (key : A -> nat) (l : list A) : list A :=
  foldr (insert_by key) [] l.

(** The lists that [export_object] puts in the place of the two tables
    once the tree is built: [list(table.values())], sorted by index.
    The model keeps the tables, which [generate_cfg] leaves alone, and
    the lists are read off them.  The order in which [values()] yields
    the entries, which the sort keeps among entries of one index only,
    is not recorded by the table. *)
Definition materials_list (mu : Mu) : list MuMaterial :=
  sort_by material_index (map_to_list (materials mu)).*2.

Definition textures_list (mu : Mu) : list MuTexture :=
  sort_by tex_index (map_to_list (textures mu)).*2.

End Exporter.

(** ** The export operators *)

Section Operator.
Context `{Host}.

(** [poll] of [KSPMU_OT_ExportMu] and [KSPMU_OT_ExportMu_quick]: the
    operator is offered when there is an active object that has no data
    or whose data is a mesh. *)
Definition poll (active_object : option BObject) : bool :=
  match active_object with
  | None => false
  | Some o =>
      match data o with
      | None => true
      | Some (DMesh _) => true
      | Some _ => false
      end
  end.

End Operator.

(** ** Parts: [part.py]

    The config node tree, the float parser and the path functions are
    consumed through their interfaces: [HasValue] and [GetValue] of
    [cfgnode.ConfigNode], [ConfigNode.load], [parser.parse_float] and
    [os.path.dirname], and the two float literals of the defaults. *)

Class PartHost `{Host} : Type := {
  HasValue : ConfigNode -> string -> bool;
  GetValue : ConfigNode -> string -> string;
  load : string -> ConfigNode;
  parse_float : string -> scalar;
  dirname : string -> string;
  float_1_0 : scalar;
  float_1_25 : scalar
}.

Section Part.
Context `{PartHost}.

(** [s.replace(a, b)] for strings [a] and [b] of one character. *)
Fixpoint str_replace (a b : ascii) (s : string) : string :=
  match s with
  | EmptyString => EmptyString
  | String c rest =>
      String (if Ascii.eqb c a then b else c) (str_replace a b rest)
  end.

Record Part := {
  part_cfg : ConfigNode;
  part_path : string;
  part_name : string;
  part_model : option nat;
  part_scale : scalar;
  part_rescaleFactor : scalar
}.

(** [Part.__init__]; the [print] of the missing name is left out. *)
Definition Part_init (path : string) (cfg : ConfigNode) : Part :=
  {| part_cfg := cfg;
     part_path := dirname path;
     part_name := if negb (HasValue cfg "name") then ""
                  else str_replace "_" "." (GetValue cfg "name");
     part_model := None;
     part_scale := if HasValue cfg "scale"
                   then parse_float (GetValue cfg "scale")
                   else float_1_0;
     part_rescaleFactor := if HasValue cfg "rescaleFactor"
                           then parse_float (GetValue cfg "rescaleFactor")
                           else float_1_25 |}.

(** [part.model = g] *)
Definition set_model (g : nat) (p : Part) : Part :=
  {| part_cfg := part_cfg p; part_path := part_path p;
     part_name := part_name p; part_model := Some g;
     part_scale := part_scale p;
     part_rescaleFactor := part_rescaleFactor p |}.

(** A group of [bpy.data.groups] as [Preloaded] reads it: the group
    (a reference), its name and the text of [mumodelprops.config]. *)
Record GroupEntry := {
  entry_group : nat;
  entry_name : string;
  entry_config : string
}.

(** [Part.Preloaded]: the parts of the groups named [part:...], by the
    name of the part. *)
Definition Preloaded (groups : list GroupEntry) : gmap string Part :=
  fold_left
    (fun preloaded g =>
       if String.eqb (substring 0 5 (entry_name g)) "part:" then
         let part := set_model (entry_group g)
                       (Part_init "" (load (entry_config g))) in
         <[part_name part := part]> preloaded
       else preloaded)
    groups ∅.

End Part.

(** ** Vocabulary of the properties *)

Section Vocabulary.
Context `{Collaborators}.

(** Two snapshots of one object: equal up to [location], the only
    attribute the exporter writes. *)
Definition static_eq (a b : BObject) : Prop := set_location (location b) a = b.

Definition same_scene (w w' : World) : Prop :=
  w_groups w' = w_groups w ∧ ∀ i, static_eq (w_objects w i) (w_objects w' i).

(** [R] relates the state before a run to the state it leaves, whether
    the run returns or raises. *)
Definition keeps {A} (R : World -> World -> Prop) (c : M A) : Prop :=
  ∀ w, match c w with
       | Ok _ w' => R w w'
       | Raise _ w' => R w w'
       | OutOfFuel => True
       end.

(** Everything of a node that the two child loops leave alone. *)
Definition same_head (m m' : MuObject) : Prop :=
  oid m = oid m' ∧ transform m = transform m'
  ∧ tag_and_layer m = tag_and_layer m' ∧ shared_mesh m = shared_mesh m'
  ∧ renderer m = renderer m' ∧ light m = light m' ∧ camera m = camera m'.

(** What interning leaves alone in the model. *)
Definition same_but_resources (mu mu' : Mu) : Prop :=
  mu_name mu' = mu_name mu ∧ object_paths mu' = object_paths mu
  ∧ nodes mu' = nodes mu ∧ props mu' = props mu ∧ internal mu' = internal mu
  ∧ mu_type mu' = mu_type mu ∧ CoMOffset mu' = CoMOffset mu
  ∧ CoPOffset mu' = CoPOffset mu ∧ CoLOffset mu' = CoLOffset mu
  ∧ inverse mu' = inverse mu.

(** What is seen of a run that returned, or of one that raised. *)
Definition return_view {A B} (f : A -> World -> B) (o : outcome A)
    : option B :=
  match o with
  | Ok a w => Some (f a w)
  | _ => None
  end.

Definition raise_view {A B} (f : exn -> World -> B) (o : outcome A)
    : option B :=
  match o with
  | Raise e w => Some (f e w)
  | _ => None
  end.

(** *** Textures and materials *)

(** Interning a sequence of texture references, one after the other. *)
Fixpoint make_textures (mu : Mu) (ts : list TexSlot) : Mu * list MuMatTex :=
  match ts with
  | [] => (mu, [])
  | t :: rest =>
      let (mu, u) := make_texture mu t in
      let (mu, us) := make_textures mu rest in
      (mu, u :: us)
  end.

(** The materials of a mesh that have a shader assigned. *)
Definition shaded (mesh : Mesh) : list Material :=
  filter (λ mat, truthy (shaderName (mumatprop mat)) = true)
         (mesh_materials mesh).

(** One round of the loop of [make_renderer] on a material with a
    shader: the model it leaves. *)
Definition intern_material (mu : Mu) (mat : Material) : Mu :=
  match materials mu !! mat_name mat with
  | None => set_materials (<[mat_name mat := (make_material mu mat).2]>
                             (materials (make_material mu mat).1))
                          (make_material mu mat).1
  | Some _ => mu
  end.

(** [i] is the index the material table of [mu] has for [mat]. *)
Definition indexed (mu : Mu) (mat : Material) (i : nat) : Prop :=
  ∃ m, materials mu !! mat_name mat = Some m ∧ material_index m = i.

(** *** Markers, roles and corrections *)

(** An attachment-node marker: an empty whose stripped name starts with
    [node_]. *)
Definition is_attach_marker (o : BObject) : bool :=
  match data o with
  | None => String.eqb (substring 0 5 (strip_nnn (obj_name o))) "node_"
  | Some _ => false
  end.

(** A marker whose attachment node does not keep its transform. *)
Definition declines (o : BObject) (inv : Matrix) : bool :=
  is_attach_marker o && negb (keep_transform (new_AttachNode o inv)).

(** The rotation of the object as a quaternion, before any correction. *)
Definition base_rotation (o : BObject) : Quaternion :=
  if String.eqb (rotation_mode o) "QUATERNION" then rotation_quaternion o
  else to_quaternion (rotation_euler o).

(** The roles of the node classifier, in its decision order. *)
Inductive Role :=
| EmptyRole | GroupInstanceRole | ColliderOwnerRole | RenderableMeshRole
| LightRole | CameraRole | SkipRole.

Definition classify (o : BObject) : Role :=
  match data o with
  | None => match dupli_group o with
            | None => EmptyRole
            | Some _ => GroupInstanceRole
            end
  | Some d =>
      if has_collider o then ColliderOwnerRole
      else match d with
           | DMesh _ => RenderableMeshRole
           | DLight _ => LightRole
           | DCamera _ => CameraRole
           | DOther => SkipRole
           end
  end.

(** The rotation corrections of the coordinate transformer: attachment
    node markers turn +90 degrees about local X, lights and cameras -90
    degrees, everything else is left as it is. *)
Inductive Correction := PlusX90 | MinusX90 | NoCorrection.

Definition role_correction (o : BObject) : Correction :=
  if is_attach_marker o then PlusX90
  else match classify o with
       | LightRole | CameraRole => MinusX90
       | _ => NoCorrection
       end.

Definition apply_correction (c : Correction) (q : Quaternion) : Quaternion :=
  match c with
  | PlusX90 => quat_mul q quat_x_plus90
  | MinusX90 => quat_mul q quat_x_minus90
  | NoCorrection => q
  end.

(** *** Scenes the builder gets through *)

(** A sufficient condition for the build of [obj] to return within
    [fuel] nested calls: no hemi light is built, the parent chains
    followed for the roots of an instanced group end within the fuel,
    and the same holds, with one call less, for the group roots and for
    the children. *)
Fixpoint buildable (fuel : nat) (objs : nat -> BObject)
    (groups : nat -> Group) (obj : nat) : Prop :=
  match fuel with
  | 0 => False
  | S fuel' =>
      let o := objs obj in
      match classify o with
      | LightRole =>
          ∀ l, data o = Some (DLight l) → light_type l ≠ HEMI
      | GroupInstanceRole =>
          ∀ g, dupli_group o = Some g →
            Forall (λ x, ∃ b, is_group_root fuel' objs x (groups g) = Some b
                              ∧ (b = true → buildable fuel' objs groups x))
                   (group_objects (groups g))
      | _ => True
      end
      ∧ Forall (buildable fuel' objs groups) (children o)
  end.

(** *** Paths and the path index *)

Definition node_path (path : string) (o : BObject) : string :=
  extend_path path (strip_nnn (obj_name o)).

(** The node as [make_head] leaves it. *)
Definition head_node (w : World) (obj : nat) : MuObject :=
  let o := w_objects w obj in
  {| oid := w_next w;
     transform := {| tr_name := strip_nnn (obj_name o);
                     localPosition := if live_vectors then LocationOf obj
                                      else Copy (location o);
                     localRotation := base_rotation o;
                     localScale := scale o |};
     tag_and_layer := Some (make_tag_and_layer o);
     shared_mesh := None; renderer := None; light := None; camera := None;
     collider := None; mu_children := [] |}.

(** The state as [make_head] leaves it: the node counted and entered in
    the path index. *)
Definition registered (path : string) (obj : nat) (w : World) : World :=
  with_mu (set_object_paths
             (<[node_path path (w_objects w obj) := w_next w]>
                (object_paths (w_mu w))) (w_mu w))
          (with_next (S (w_next w)) w).

(** The nodes of a tree with the path each one has below [prefix]: the
    path of its parent, extended by its own name. *)
Fixpoint tree_paths (prefix : string) (t : MuObject) : list (string * nat) :=
  let p := extend_path prefix (tr_name (transform t)) in
  (p, oid t) :: flat_map (tree_paths p) (mu_children t).

(** No registration of the run from [w] to [w'] went to a path that was
    in the index already: the index grew by one entry for each node
    made. *)
Definition collision_free (w w' : World) : Prop :=
  size (object_paths (w_mu w')) =
  size (object_paths (w_mu w)) + (w_next w' - w_next w).

(** The run from [w] to [w'] made nodes and index entries in step: the
    counter did not go back, the index grew by one entry per node at
    most, and when it grew by exactly that much no entry that was there
    before was overwritten. *)
Definition in_step (w w' : World) : Prop :=
  w_next w ≤ w_next w'
  ∧ size (object_paths (w_mu w')) ≤
    size (object_paths (w_mu w)) + (w_next w' - w_next w)
  ∧ (collision_free w w' → object_paths (w_mu w) ⊆ object_paths (w_mu w')).

(** Every path that is in the index stays in it. *)
Definition paths_stay (w w' : World) : Prop :=
  ∀ p, is_Some (object_paths (w_mu w) !! p) →
       is_Some (object_paths (w_mu w') !! p).

(** The identities of the entries are those made between [w] and [w']. *)
Definition made_between (w w' : World) (l : list (string * nat)) : Prop :=
  Forall (λ e, w_next w ≤ e.2 < w_next w') l.

(** Every entry is found in the index of [w], path to identity. *)
Definition all_indexed (w : World) (l : list (string * nat)) : Prop :=
  Forall (λ e, object_paths (w_mu w) !! e.1 = Some e.2) l.

(** What holds of the trees [ts] built below the path [p] by a run from
    [w] to [w']. *)
Definition trees_inv (p : string) (w : World) (ts : list MuObject)
    (w' : World) : Prop :=
  made_between w w' (flat_map (tree_paths p) ts)
  ∧ NoDup (flat_map (tree_paths p) ts).*2
  ∧ (collision_free w w' → all_indexed w' (flat_map (tree_paths p) ts)).

(** *** Special handlers *)

(** The handlers of the table claim every child they are asked about, as
    [add_internal] and [add_prop] do. *)
Definition claiming (special : gmap string Handler) : Prop :=
  ∀ k h mu o, special !! k = Some h → (h mu o).2 = true.

(** The handlers of the table leave the path index alone. *)
Definition handlers_keep_paths (special : gmap string Handler) : Prop :=
  ∀ k h mu o, special !! k = Some h →
              object_paths (h mu o).1 = object_paths mu.

(** A child the loop over [obj.children] turns into the collider of its
    parent: no handler for its model type, and a collider set. *)
Definition collider_child (special : gmap string Handler) (o : BObject)
    : bool :=
  match special !! prop_modelType (muproperties o) with
  | Some _ => false
  | None => has_collider o
  end.

(** *** Config blocks *)

(** A PROP block for the prop [o]: no sections, and four values, the
    stripped name, the axis-swapped position, the swizzled rotation (its
    key left open) and the axis-swapped scale. *)
Definition prop_block (o : BObject) (b : ConfigNode) : Prop :=
  cfg_nodes b = []
  ∧ ∃ key, cfg_values b =
      [("name", strip_nnn (obj_name o));
       ("position", vector_str (swapyz (location o)));
       (key, vector_str (swizzleq (rotation_quaternion o)));
       ("scale", vector_str (swapyz (scale o)))].

(** An INTERNAL block for the internal space [o]: no sections; its name
    first. *)
Definition internal_block (o : BObject) (b : ConfigNode) : Prop :=
  cfg_nodes b = []
  ∧ ∃ rest, cfg_values b = ("name", strip_nnn (obj_name o)) :: rest.

(** *** Group instances *)

(** The call [c], made in [w], leaves every object at the location it
    had, whether it returns or raises. *)
Definition restores_locations {A} (c : M A) (w : World) : Prop :=
  match c w with
  | Ok _ w' | Raise _ w' =>
      ∀ i, location (w_objects w' i) = location (w_objects w i)
  | OutOfFuel => True
  end.

(** The state in which the nested build of a group root runs: its
    location moved by the offset of the group. *)
Definition shifted (o : nat) (group : Group) (w : World) : World :=
  with_objects
    (update o (set_location (vec_sub (location (w_objects w o))
                                     (dupli_offset group))
                            (w_objects w o))
            (w_objects w)) w.

End Vocabulary.

(** ** Vocabulary of the properties of tables, models and scenes *)

Section TableVocabulary.
Context `{Collaborators}.

(** *** Tables with indices *)

(** The entries of the table carry the indices [0 .. n-1], each of them
    once: what giving every new entry the index [len(table)] keeps. *)
Definition well_indexed {A} (index : A -> nat) (t : gmap string A) : Prop :=
  (∀ k a, t !! k = Some a → index a < size t)
  ∧ (∀ k1 k2 a1 a2, t !! k1 = Some a1 → t !! k2 = Some a2 →
                    index a1 = index a2 → k1 = k2)
  ∧ (∀ i, i < size t → ∃ k a, t !! k = Some a ∧ index a = i).

Definition texture_at (mu : Mu) (i : nat) : Prop :=
  ∃ k t, textures mu !! k = Some t ∧ tex_index t = i.

Definition material_at (mu : Mu) (i : nat) : Prop :=
  ∃ k m, materials mu !! k = Some m ∧ material_index m = i.

(** The two tables of the model are well indexed, every entry is stored
    under its own name, and every texture a material uses is in the
    texture table. *)
Definition model_ok (mu : Mu) : Prop :=
  well_indexed tex_index (textures mu)
  ∧ well_indexed material_index (materials mu)
  ∧ (∀ k t, textures mu !! k = Some t → tex_name t = k)
  ∧ (∀ k m, materials mu !! k = Some m →
       material_name m = k
       ∧ ∀ p u, textureProperties m !! p = Some u →
                texture_at mu (mattex_index u)).

(** The tables of [w'] hold every entry of the tables of [w], as it
    was. *)
Definition tables_grow (w w' : World) : Prop :=
  materials (w_mu w) ⊆ materials (w_mu w')
  ∧ textures (w_mu w) ⊆ textures (w_mu w')
  ∧ (model_ok (w_mu w) → model_ok (w_mu w')).

(** The handlers of the table leave the textures and the materials
    alone. *)
Definition handlers_keep_tables (special : gmap string Handler) : Prop :=
  ∀ k h mu o, special !! k = Some h →
              materials (h mu o).1 = materials mu
              ∧ textures (h mu o).1 = textures mu.

(** [mu.materials[mat.name].index], for a material that is in the
    table. *)
Definition index_of (mu : Mu) (mat : Material) : nat :=
  match materials mu !! mat_name mat with
  | Some m => material_index m
  | None => 0
  end.

(** The material indices the renderers of a tree refer to. *)
Fixpoint tree_materials (t : MuObject) : list nat :=
  match renderer t with
  | Some r => rend_materials r
  | None => []
  end ++ flat_map tree_materials (mu_children t).

(** [l] holds the entries of the table, each once, in the order of
    their indices. *)
Definition listed_by_index {A} (index : A -> nat) (t : gmap string A)
    (l : list A) : Prop :=
  l ≡ₚ (map_to_list t).*2
  ∧ StronglySorted (λ a b, index a ≤ index b) l.

(** The last item of the name in a property collection. *)
Definition last_named (name : string) (items : list PropItem)
    : option PropValue :=
  item_value <$> last (filter (λ item, item_name item = name) items).

(** *** What a build adds to the model *)

(** The handlers of the table are the two capturing handlers of the
    exporter. *)
Definition capturing (special : gmap string Handler) : Prop :=
  ∀ k h, special !! k = Some h → h = add_internal ∨ h = add_prop.

(** From [w] to [w'] the name, the type and the inverse matrix of the
    model stay, attachment nodes and props are added at the end only,
    and an internal space that was captured stays the captured one. *)
Definition model_grows (w w' : World) : Prop :=
  mu_name (w_mu w') = mu_name (w_mu w)
  ∧ mu_type (w_mu w') = mu_type (w_mu w)
  ∧ inverse (w_mu w') = inverse (w_mu w)
  ∧ nodes (w_mu w) `prefix_of` nodes (w_mu w')
  ∧ props (w_mu w) `prefix_of` props (w_mu w')
  ∧ (∀ i, internal (w_mu w) = Some i → internal (w_mu w') = Some i).

(** *** Names *)

(** The names of nodes, in the order of the list. *)
Definition node_names (l : list MuObject) : list string :=
  (λ n, tr_name (transform n)) <$> l.

(** The stripped names of the objects, in the order of the list. *)
Definition object_names (w : World) (os : list nat) : list string :=
  (λ o, strip_nnn (obj_name (w_objects w o))) <$> os.

(** *** Parents *)

(** [l] is the chain of parents of [o], the nearest first, up to the one
    that has no parent. *)
Inductive ancestors (objs : nat -> BObject) : nat -> list nat -> Prop :=
| ancestors_root o : parent (objs o) = None → ancestors objs o []
| ancestors_step o p l :
    parent (objs o) = Some p → ancestors objs p l →
    ancestors objs o (p :: l).

(** [group.name in o.users_group] *)
Definition in_group (objs : nat -> BObject) (group : Group) (o : nat) : bool :=
  existsb (String.eqb (group_name group)) (users_group (objs o)).

(** *** The config document *)

(** The type whose section [generate_cfg] looks for: the type of the
    model, or the type of the scene when the model has none. *)
Definition section_type (mu : Mu) : string :=
  if String.eqb (mu_type mu) "NONE" then scene_modelType else mu_type mu.

End TableVocabulary.

(** ** Vocabulary of names and paths *)

Section NameVocabulary.
Context `{Collaborators}.

(** A name that reads as one name in a path: it is not empty and has no
    slash in it. *)
Definition plain_name (n : string) : bool :=
  negb (String.eqb n "")
  && forallb (λ c, negb (Ascii.eqb c "/")) (list_ascii_of_string n).

(** No name comes twice in the list. *)
Fixpoint distinct (l : list string) : bool :=
  match l with
  | [] => true
  | x :: rest => negb (existsb (String.eqb x) rest) && distinct rest
  end.

(** The objects whose nodes become children of the node of [o]: for a
    group instance the objects of the group, and the children of [o]. *)
Definition sibling_objects (groups : nat -> Group) (o : BObject) : list nat :=
  match data o, dupli_group o with
  | None, Some g => group_objects (groups g)
  | _, _ => []
  end ++ children o.

(** The scene has no authoring name collision at [obj] and below it, as
    deep as [fuel] nested calls of the builder go: the stripped name of
    the object and those of the objects below its node are plain, and
    the objects below one node have stripped names that differ from one
    another. *)
Fixpoint well_named (fuel : nat) (w : World) (obj : nat) : bool :=
  match fuel with
  | 0 => true
  | S fuel' =>
      let sibs := sibling_objects (w_groups w) (w_objects w obj) in
      plain_name (strip_nnn (obj_name (w_objects w obj)))
      && forallb plain_name (object_names w sibs)
      && distinct (object_names w sibs)
      && forallb (well_named fuel' w) sibs
  end.

(** [q] is the path [p] or a path below it. *)
Definition under (p q : string) : Prop :=
  q = p ∨ ∃ rest, q = p +:+ String "/" rest.

(** The path index has no entry for [p] or for a path below it. *)
Definition fresh_under (w : World) (p : string) : Prop :=
  ∀ q, under p q → object_paths (w_mu w) !! q = None.

(** *** The child nodes of a node *)

(** The state [w'] has the objects, the groups and the inverse matrix
    of [w]. *)
Definition settled (w w' : World) : Prop :=
  (∀ i, w_objects w' i = w_objects w i) ∧ w_groups w' = w_groups w
  ∧ inverse (w_mu w') = inverse (w_mu w).

(** [n] is a node of the object [b], its location read as a value: it
    has its stripped name, its location as position, and its scale. *)
Definition node_of (b : BObject) (n : MuObject) : Prop :=
  tr_name (transform n) = strip_nnn (obj_name b)
  ∧ localPosition (transform n) = Copy (location b)
  ∧ localScale (transform n) = scale b.

(** The loop over the children leaves a node for the child [o]: no
    handler is there for its model type, it has no collider, its data,
    if it has any, is exportable, and it is not a marker that declines
    to keep its transform. *)
Definition child_built (special : gmap string Handler) (inv : Matrix)
    (o : BObject) : bool :=
  match special !! prop_modelType (muproperties o) with
  | Some _ => false
  | None =>
      negb (has_collider o)
      && match data o with
         | Some d => exportable d
         | None => true
         end
      && negb (declines o inv)
  end.

(** The object of a group as the nested build sees it: its location
    moved by the offset of the group. *)
Definition moved (group : Group) (b : BObject) : BObject :=
  set_location (vec_sub (location b) (dupli_offset group)) b.

(** The loop over the objects of the group leaves a node for [o]: it is
    a root of the group, found within [fuel] steps, and moved it is not
    a marker that declines to keep its transform. *)
Definition root_built (fuel : nat) (objs : nat -> BObject) (group : Group)
    (inv : Matrix) (o : nat) : bool :=
  match is_group_root fuel objs o group with
  | Some true => negb (declines (moved group (objs o)) inv)
  | _ => false
  end.

(** The objects of the group that have a node below the node of the
    instance [obj], in the order of [group.objects]. *)
Definition group_roots (fuel : nat) (w : World) (obj : nat) : list nat :=
  match data (w_objects w obj), dupli_group (w_objects w obj) with
  | None, Some g =>
      filter (λ o, root_built fuel (w_objects w) (w_groups w g)
                     (inverse (w_mu w)) o = true)
             (group_objects (w_groups w g))
  | _, _ => []
  end.

(** The objects, as they are built, that have a node below the node of
    [obj]: for a group instance the roots of the group, moved, in the
    order of [group.objects], then the children in the order of
    [obj.children]. *)
Definition group_part (fuel : nat) (w : World) (obj : nat) : list BObject :=
  match dupli_group (w_objects w obj) with
  | Some g => (λ o, moved (w_groups w g) (w_objects w o))
                <$> group_roots fuel w obj
  | None => []
  end.

Definition child_part (special : gmap string Handler) (w : World) (obj : nat)
    : list BObject :=
  w_objects w
    <$> filter (λ c, child_built special (inverse (w_mu w)) (w_objects w c)
                     = true)
               (children (w_objects w obj)).

End NameVocabulary.

(** ** A concrete host and concrete scenes

    Integers stand for floats, a quaternion is the list of the factors
    multiplied into it, and the collaborators return the name of the
    object they were given.  [live] chooses how [location] is read. *)

Module Example.

Definition is_digit (c : ascii) : bool :=
  (48 <=? nat_of_ascii c)%nat && (nat_of_ascii c <=? 57)%nat.

(** Modelled from the spec: [utils.strip_nnn], the "numeric-suffix-stripping
    convention": a final dot followed by three digits is dropped. *)
Definition strip_suffix (name : string) : string :=
  let n := String.length name in
  if (4 <=? n)%nat
     && String.eqb (substring (n - 4) 1 name) "."
     && forallb is_digit (list_ascii_of_string (substring (n - 3) 3 name))
  then substring 0 (n - 4) name
  else name.

Definition vec_text (v : Z * Z * Z) : string :=
  let '(x, y, z) := v in pretty x +:+ ", " +:+ pretty y +:+ ", " +:+ pretty z.

Definition host (live : bool) : Host :=
  {| scalar := Z; Vector := Z * Z * Z; Quaternion := list Z; Euler := Z;
     Matrix := unit; Color := Z; Mask := Z; MuMesh := string;
     MuCollider := string; AttachNode := string;
     live_vectors := live;
     vec_sub := fun a b =>
       let '(x, y, z) := a in let '(x', y', z') := b in
       (x - x', y - y', z - z')%Z;
     vec_eqb := fun a b =>
       let '(x, y, z) := a in let '(x', y', z') := b in
       ((x =? x') && (y =? y') && (z =? z'))%Z;
     vec_ones := (1, 1, 1)%Z;
     vec_truthy := fun _ => true;
     quat_mul := fun a b => a ++ b;
     quat_x_plus90 := [90%Z];
     quat_x_minus90 := [(-90)%Z];
     to_quaternion := fun e => [e];
     degrees := fun x => x;
     scalar_zero := 0%Z;
     with_alpha := fun c => c;
     GetPropMask := fun m => m;
     strip_nnn := strip_suffix;
     swapyz := fun v => let '(x, y, z) := v in (x, z, y);
     swizzleq := fun q => (nth 0 q 0, nth 1 q 0, nth 2 q 0)%Z;
     vector_str := vec_text |}.

(** The template every example export finds: one empty section for each
    of the model types PART and INTERNAL. *)
Definition template : ConfigNode :=
  mkConfigNode [] [("PART", mkConfigNode [] []);
                   ("INTERNAL", mkConfigNode [] [])].

Definition collaborators (live : bool) : @Collaborators (host live) :=
  {| make_mesh := fun o => @obj_name (host live) o;
     make_collider := fun o => @obj_name (host live) o;
     new_AttachNode := fun o _ => strip_suffix (@obj_name (host live) o);
     keep_transform := fun n => String.eqb n "node_attach";
     sort_nodes := fun l => l;
     save_node := fun n node => AddValue n "" node;
     model_position := fun _ _ => (0, 0, 0)%Z;
     inverted := fun m => m;
     find_template := fun _ filepath => Some (filepath +:+ ".cfg", template);
     scene_modelType := "NONE";
     parse_node := fun _ cfg => cfg |}.


(** An object with everything that the scenes below do not vary at its
    default. *)
Definition object (live : bool) (name : string)
    (d : option (@ObjData (host live))) (kids : list nat)
    (coll mtype : string) (loc : Z * Z * Z) (group : option nat)
    : @BObject (host live) :=
  {| obj_name := name; location := loc : @Vector (host live);
     rotation_mode := "QUATERNION";
     rotation_euler := 0%Z : @Euler (host live);
     rotation_quaternion := [] : @Quaternion (host live);
     scale := (1, 1, 1)%Z : @Vector (host live);
     matrix_world := tt : @Matrix (host live);
     data := d; parent := None; children := kids; dupli_group := group;
     users_group := [];
     muproperties :=
       {| prop_tag := "Untagged"; prop_layer := 0; prop_collider := coll;
          prop_modelType := mtype;
          prop_cullingMask := 0%Z : @Mask (host live);
          prop_clearFlags := SKYBOX;
          prop_backgroundColor := 0%Z : @Color (host live);
          prop_depth := 0%Z : @scalar (host live) |} |}.

Definition lamp (live : bool) (t : LightType) : option (@ObjData (host live)) :=
  Some (DLight {| light_type := t; light_color := 0%Z : @Color (host live);
                  light_distance := 10%Z : @scalar (host live);
                  light_energy := 1%Z : @scalar (host live);
                  spot_size := 0%Z : @scalar (host live) |}).

Definition material (live : bool) (name shader : string)
    : @Material (host live) :=
  {| mat_name := name;
     mumatprop := {| shaderName := shader; color_properties := [];
                     vector_properties := []; float2_properties := [];
                     float3_properties := []; texture_properties := [] |} |}.

Definition mesh (live : bool) (mats : list (@Material (host live)))
    : option (@ObjData (host live)) :=
  Some (DMesh {| mesh_materials := mats |}).

Definition empty_mu (live : bool) (mtype : string) : @Mu (host live) :=
  {| mu_name := ""; object_paths := ∅; materials := ∅; textures := ∅;
     nodes := []; props := []; internal := None; mu_type := mtype;
     CoMOffset := None; CoPOffset := None; CoLOffset := None;
     inverse := tt : @Matrix (host live) |}.

Definition no_group (live : bool) : @Group (host live) :=
  {| group_name := ""; group_objects := [];
     dupli_offset := (0, 0, 0)%Z : @Vector (host live) |}.

(** The state before an export: the objects and groups of the scene,
    by slot. *)
Definition world (live : bool) (mtype : string)
    (objs : list (@BObject (host live))) (groups : list (@Group (host live)))
    : @World (host live) :=
  {| w_mu := empty_mu live mtype;
     w_objects := fun i =>
       nth i objs (object live "" None [] "MU_COL_NONE" "NONE" (0, 0, 0)%Z None);
     w_groups := fun i => nth i groups (no_group live);
     w_next := 0 |}.

(** A group instance (slot 0) of a group whose one root (slot 1) is a
    light at (5, 5, 5); the group is placed with the offset (1, 2, 3). *)
Definition instance_scene (live : bool) (t : LightType) : @World (host live) :=
  world live "NONE"
    [object live "instance" None [] "MU_COL_NONE" "NONE" (0, 0, 0)%Z (Some 0);
     object live "lamp" (lamp live t) [] "MU_COL_NONE" "NONE" (5, 5, 5)%Z None]
    [{| group_name := "fixture"; group_objects := [1];
        dupli_offset := (1, 2, 3)%Z : @Vector (host live) |}].

Definition hull_mesh : @Mesh (host false) :=
  {| mesh_materials := [material false "hull" "KSP/Diffuse";
                        material false "draft" ""] |}.

(** A mesh (slot 0) with one material that has a shader and one that has
    none, and four children: an attachment-node marker (slot 1), a spot
    light (slot 2) and two box colliders (slots 3 and 4). *)
Definition part_scene : @World (host false) :=
  world false "NONE"
    [object false "root" (Some (DMesh hull_mesh)) [1; 2; 3; 4] "MU_COL_NONE" "NONE" (0, 0, 0)%Z None;
     object false "node_stack_top" None [] "MU_COL_NONE" "NONE" (0, 1, 0)%Z None;
     object false "lamp.001" (lamp false SPOT) [] "MU_COL_NONE" "NONE"
       (0, 0, 2)%Z None;
     object false "collider_a" (mesh false []) [] "MU_COL_BOX" "NONE"
       (0, 0, 0)%Z None;
     object false "collider_b" (mesh false []) [] "MU_COL_BOX" "NONE"
       (1, 0, 0)%Z None]
    [].

(** Scenario D: a model of type PART (slot 0) with an internal space
    (slot 1) and two props (slots 2 and 3) as children. *)
Definition scenario_D : @World (host false) :=
  world false "NONE"
    [object false "pod" (mesh false []) [1; 2; 3] "MU_COL_NONE" "PART"
       (0, 0, 0)%Z None;
     object false "interior" None [] "MU_COL_NONE" "INTERNAL" (0, 0, 1)%Z None;
     object false "seat" None [] "MU_COL_NONE" "PROP" (1, 2, 3)%Z None;
     object false "stick" None [] "MU_COL_NONE" "PROP" (4, 5, 6)%Z None]
    [].

(** The same objects with the model itself an internal space. *)
Definition internal_scene : @World (host false) :=
  world false "NONE"
    [object false "interior" None [1; 2] "MU_COL_NONE" "INTERNAL"
       (0, 0, 0)%Z None;
     object false "seat" None [] "MU_COL_NONE" "PROP" (1, 2, 3)%Z None;
     object false "stick" None [] "MU_COL_NONE" "PROP" (4, 5, 6)%Z None]
    [].

(** A texture reference of a material, with its tiling scale. *)
Definition slot (source : string) (s : Z) : @TexSlot (host false) :=
  {| slot_name := "_MainTex"; slot_tex := source; slot_type := 0;
     slot_scale := [s; s] : list (@scalar (host false));
     slot_offset := [0%Z; 0%Z] : list (@scalar (host false)) |}.

(** The number of sections of a name in a node. *)
Definition count_sections (name : string) (node : ConfigNode) : nat :=
  length (filter (λ p, p.1 = name) (cfg_nodes node)).

(** Two empties with a box collider set: an attachment-node marker
    that declines to keep its transform (slot 0) and a plain empty
    (slot 1). *)
Definition collider_empties : @World (host false) :=
  world false "NONE"
    [object false "node_stack_bottom" None [] "MU_COL_BOX" "NONE"
       (0, 0, 0)%Z None;
     object false "hitbox" None [] "MU_COL_BOX" "NONE" (0, 0, 1)%Z None]
    [].

(** A material with a shader and one texture. *)
Definition painted : @Material (host false) :=
  {| mat_name := "painted";
     mumatprop := {| shaderName := "KSP/Diffuse"; color_properties := [];
                     vector_properties := []; float2_properties := [];
                     float3_properties := [];
                     texture_properties := [slot "hull.png" 1] |} |}.

(** A mesh with three materials that have a shader, in an order that
    is not the order of their names; one of them has a texture. *)
Definition plated : @World (host false) :=
  world false "NONE"
    [object false "plate"
       (mesh false [material false "zinc" "KSP/Diffuse"; painted;
                    material false "alu" "KSP/Specular"])
       [] "MU_COL_NONE" "NONE" (0, 0, 0)%Z None]
    [].

(** The object [o] as a child of [p] and a member of the groups
    [groups]. *)
Definition child_of (p : nat) (groups : list string)
    (o : @BObject (host false)) : @BObject (host false) :=
  {| obj_name := obj_name o; location := location o;
     rotation_mode := rotation_mode o; rotation_euler := rotation_euler o;
     rotation_quaternion := rotation_quaternion o; scale := scale o;
     matrix_world := matrix_world o; data := data o; parent := Some p;
     children := children o; dupli_group := dupli_group o;
     users_group := groups; muproperties := muproperties o |}.

(** A group instance (slot 0) of the group [fixture], whose roots are
    two lamps of one stripped name (slots 1 and 2).  The instance has
    four children of its own: two arms of one stripped name (slots 3 and
    4), a box collider (slot 5) and an attachment-node marker that
    declines to keep its transform (slot 6). *)
Definition twins : @World (host false) :=
  world false "NONE"
    [object false "rack" None [3; 4; 5; 6] "MU_COL_NONE" "NONE" (0, 0, 0)%Z
       (Some 0);
     object false "lamp" (lamp false SPOT) [] "MU_COL_NONE" "NONE"
       (5, 5, 5)%Z None;
     object false "lamp.001" (lamp false SPOT) [] "MU_COL_NONE" "NONE"
       (6, 6, 6)%Z None;
     child_of 0 []
       (object false "arm" None [] "MU_COL_NONE" "NONE" (1, 0, 0)%Z None);
     child_of 0 []
       (object false "arm.001" None [] "MU_COL_NONE" "NONE" (2, 0, 0)%Z None);
     child_of 0 []
       (object false "hitbox" (mesh false []) [] "MU_COL_BOX" "NONE"
          (3, 0, 0)%Z None);
     child_of 0 []
       (object false "node_stack_top" None [] "MU_COL_NONE" "NONE"
          (0, 1, 0)%Z None)]
    [{| group_name := "fixture"; group_objects := [1; 2];
        dupli_offset := (1, 2, 3)%Z : @Vector (host false) |}].

(** A chain of parents: a base (slot 0) that is not in the group
    [fixture], an arm (slot 1) on it that is, and a lamp (slot 2) on the
    arm. *)
Definition family : @World (host false) :=
  world false "NONE"
    [object false "base" None [1] "MU_COL_NONE" "NONE" (0, 0, 0)%Z None;
     child_of 0 ["fixture"]
       (object false "arm" None [2] "MU_COL_NONE" "NONE" (0, 0, 1)%Z None);
     child_of 1 ["fixture"]
       (object false "lamp" (lamp false SPOT) [] "MU_COL_NONE" "NONE"
          (0, 0, 2)%Z None)]
    [{| group_name := "fixture"; group_objects := [1; 2];
        dupli_offset := (0, 0, 0)%Z : @Vector (host false) |}].



(** A config reader for the parts: the first value of a key, and a
    loader that takes the text for the name of the part. *)
Definition part_host : @PartHost (host false) :=
  {| HasValue := fun cfg key =>
       existsb (fun p => String.eqb (fst p) key) (cfg_values cfg);
     GetValue := fun cfg key =>
       match find (fun p => String.eqb (fst p) key) (cfg_values cfg) with
       | Some p => snd p
       | None => ""
       end;
     load := fun text => mkConfigNode [("name", text)] [];
     parse_float := fun _ => 0%Z : @scalar (host false);
     dirname := fun path => path;
     float_1_0 := 100%Z : @scalar (host false);
     float_1_25 := 125%Z : @scalar (host false) |}.

(** The groups of a scene with one preloaded part. *)
Definition part_groups : list GroupEntry :=
  [{| entry_group := 0; entry_name := "fixture"; entry_config := "" |};
   {| entry_group := 1; entry_name := "part:fuel_tank";
      entry_config := "fuel_tank" |}].

(** An empty that marks the centre of mass. *)
Definition com_marker : @BObject (host false) :=
  object false "CoMOffset.001" None [] "MU_COL_NONE" "NONE" (0, 0, 1)%Z None.

End Example.
(** * Properties *)

(** ** Runs of the exporter monad *)

Section MonadLaws.
Context `{Host}.

Lemma bind_Ok {A B} (c : M A) (k : A -> M B) w b w' :
  bind c k w = Ok b w' ↔ ∃ a w1, c w = Ok a w1 ∧ k a w1 = Ok b w'.
Proof.
  unfold bind. split.
  - destruct (c w) as [a w1| |]; [eauto|done|done].
  - intros (a & w1 & -> & ?). done.
Qed.

Lemma bind_Raise {A B} (c : M A) (k : A -> M B) w e w' :
  bind c k w = Raise e w' ↔
  c w = Raise e w' ∨ ∃ a w1, c w = Ok a w1 ∧ k a w1 = Raise e w'.
Proof.
  unfold bind. split.
  - destruct (c w) as [a w1|e1 w1|].
    + intros ?; right; eauto.
    + intros [= -> ->]; by left.
    + done.
  - intros [->|(a & w1 & -> & ?)]; done.
Qed.

Lemma ret_Ok {A} (a b : A) w w' : ret a w = Ok b w' ↔ a = b ∧ w = w'.
Proof. unfold ret. split; [intros [= -> ->]|intros [-> ->]]; done. Qed.

Lemma return_view_Some {A B} (f : A -> World -> B) (o : outcome A) b :
  return_view f o = Some b → ∃ a w, o = Ok a w ∧ f a w = b.
Proof. destruct o as [a w| |]; [|done|done]. intros [= <-]. eauto. Qed.

Lemma raise_view_Some {A B} (f : exn -> World -> B) (o : outcome A) b :
  raise_view f o = Some b → ∃ e w, o = Raise e w ∧ f e w = b.
Proof. destruct o as [|e w|]; [done| |done]. intros [= <-]. eauto. Qed.

End MonadLaws.

(** Splits a run [bind c k w = Ok b w'] into the run of [c] and the run
    of [k]. *)
Ltac ok_step Hrun :=
  let a := fresh "a" in
  let w1 := fresh "w" in
  let H1 := fresh "Hrun" in
  apply bind_Ok in Hrun as (a & w1 & H1 & Hrun).

(** ** The child loops leave the head of the node alone *)

Section Frames.
Context `{Collaborators}.

Lemma same_head_refl m : same_head m m.
Proof. by repeat split. Qed.

Lemma same_head_trans a b c : same_head a b → same_head b c → same_head a c.
Proof. unfold same_head. intuition congruence. Qed.

Lemma same_head_append c m : same_head m (append_child c m).
Proof. by repeat split. Qed.

Lemma same_head_collider c m : same_head m (set_collider c m).
Proof. by repeat split. Qed.

Variable rec : nat -> string -> M (option MuObject).
Variable special : gmap string Handler.
Variable fuel : nat.

Lemma group_children_head group path os : ∀ muobj w m w',
  group_children rec fuel group path os muobj w = Ok m w' →
  same_head muobj m ∧ collider m = collider muobj.
Proof.
  induction os as [|o os IH]; intros muobj w m w' Hrun.
  - apply ret_Ok in Hrun as [-> _]. split; [apply same_head_refl|done].
  - cbn [group_children] in Hrun. ok_step Hrun.
    destruct a.
    + cbn [negb] in Hrun. do 4 ok_step Hrun.
      apply IH in Hrun as [Hh Hc]. destruct a1; [|done].
      split; [|done]. eapply same_head_trans; [apply same_head_append|done].
    + by apply IH in Hrun.
Qed.

Lemma object_children_head path os : ∀ muobj w m w',
  object_children rec special path os muobj w = Ok m w' →
  same_head muobj m.
Proof.
  induction os as [|o os IH]; intros muobj w m w' Hrun.
  - apply ret_Ok in Hrun as [-> _]. apply same_head_refl.
  - cbn [object_children] in Hrun. do 2 ok_step Hrun.
    destruct a0; [by apply IH in Hrun|].
    destruct (has_collider a).
    { apply IH in Hrun.
      eapply same_head_trans; [apply same_head_collider|done]. }
    destruct (match data a with
              | Some d => negb (exportable d)
              | None => false
              end).
    { by apply IH in Hrun. }
    ok_step Hrun. apply IH in Hrun.
    destruct a0; [|done].
    eapply same_head_trans; [apply same_head_append|done].
Qed.

End Frames.

(** ** Interning *)

Section Interner.
Context `{Host}.

Lemma make_textures_cons mu t ts :
  make_textures mu (t :: ts) =
  ((make_textures (make_texture mu t).1 ts).1,
   (make_texture mu t).2 :: (make_textures (make_texture mu t).1 ts).2).
Proof.
  cbn [make_textures]. destruct (make_texture mu t) as [mu1 u].
  cbn [fst snd]. by destruct (make_textures mu1 ts).
Qed.

Lemma make_texture_lookup mu t :
  ∃ x, textures (make_texture mu t).1 !! slot_tex t = Some x
       ∧ mattex_index (make_texture mu t).2 = tex_index x
       ∧ (∀ y, textures mu !! slot_tex t = Some y → x = y)
       ∧ (textures mu !! slot_tex t = None → tex_index x = size (textures mu)).
Proof.
  unfold make_texture.
  destruct (textures mu !! slot_tex t) as [y|] eqn:E; simpl.
  - exists y. rewrite E. repeat split; congruence.
  - rewrite lookup_insert_eq. eexists. repeat split; try done.
Qed.

Lemma make_texture_keeps mu t k x :
  textures mu !! k = Some x → textures (make_texture mu t).1 !! k = Some x.
Proof.
  intros Hk. unfold make_texture.
  destruct (textures mu !! slot_tex t) as [y|] eqn:E; simpl; [done|].
  rewrite lookup_insert_ne; [done|]. congruence.
Qed.

Lemma make_textures_keeps ts : ∀ mu k x,
  textures mu !! k = Some x → textures (make_textures mu ts).1 !! k = Some x.
Proof.
  induction ts as [|t ts IH]; intros mu k x Hk; [done|].
  rewrite make_textures_cons. cbn [fst]. apply IH. by apply make_texture_keeps.
Qed.

(** The use returned for the [i]-th reference is the one [make_texture]
    returns in the model as the references before it left it. *)
Lemma make_textures_lookup ts : ∀ mu i a,
  ts !! i = Some a →
  (make_textures mu ts).2 !! i =
  Some (make_texture (make_textures mu (take i ts)).1 a).2.
Proof.
  induction ts as [|t ts IH]; intros mu i a Hi; [done|].
  destruct i as [|i]; rewrite make_textures_cons.
  - simpl in Hi. by simplify_eq.
  - simpl in Hi. cbn [snd take]. rewrite make_textures_cons. cbn [fst].
    simpl. by apply IH.
Qed.

Lemma make_textures_app mu ts1 ts2 :
  (make_textures mu (ts1 ++ ts2)).1 =
  (make_textures (make_textures mu ts1).1 ts2).1.
Proof.
  revert mu. induction ts1 as [|t ts1 IH]; intros mu; [done|].
  rewrite <- app_comm_cons, !make_textures_cons. cbn [fst]. apply IH.
Qed.

Lemma same_but_resources_refl mu : same_but_resources mu mu.
Proof. by repeat split. Qed.

Lemma same_but_resources_trans a b c :
  same_but_resources a b → same_but_resources b c → same_but_resources a c.
Proof. unfold same_but_resources. intuition congruence. Qed.

Lemma make_texture_frame mu t :
  same_but_resources mu (make_texture mu t).1
  ∧ materials (make_texture mu t).1 = materials mu.
Proof.
  unfold make_texture. destruct (textures mu !! slot_tex t); cbn;
    (split; [by repeat split|done]).
Qed.

Lemma make_tex_property_from_frame ts : ∀ mu acc,
  same_but_resources mu (make_tex_property_from mu ts acc).1
  ∧ materials (make_tex_property_from mu ts acc).1 = materials mu.
Proof.
  induction ts as [|t ts IH]; intros mu acc; cbn [make_tex_property_from].
  - split; [apply same_but_resources_refl|done].
  - destruct (make_texture_frame mu t) as [Hs Hm].
    destruct (make_texture mu t) as [mu1 u]. cbn [fst] in *.
    destruct (IH mu1 (<[slot_name t:=u]> acc)) as [Hs' Hm'].
    split; [by eapply same_but_resources_trans|congruence].
Qed.

Lemma make_material_frame mu mat :
  same_but_resources mu (make_material mu mat).1
  ∧ materials (make_material mu mat).1 = materials mu
  ∧ material_index (make_material mu mat).2 = size (materials mu).
Proof.
  unfold make_material, make_tex_property.
  destruct (make_tex_property_from_frame
              (texture_properties (mumatprop mat)) mu ∅) as [Hs Hm].
  by destruct (make_tex_property_from _ _ _).
Qed.

Lemma intern_material_frame mu mat :
  same_but_resources mu (intern_material mu mat)
  ∧ (∀ k x, materials mu !! k = Some x →
            materials (intern_material mu mat) !! k = Some x)
  ∧ is_Some (materials (intern_material mu mat) !! mat_name mat).
Proof.
  unfold intern_material.
  destruct (materials mu !! mat_name mat) as [x|] eqn:E.
  - split; [apply same_but_resources_refl|]. split; [done|]. by rewrite E.
  - destruct (make_material_frame mu mat) as (Hs & Hm & _).
    split; [|split].
    + destruct Hs as (?&?&?&?&?&?&?&?&?&?). by repeat split.
    + intros k x Hk. cbn. rewrite Hm.
      rewrite lookup_insert_ne; [done|congruence].
    + cbn. rewrite lookup_insert_eq. eauto.
Qed.

Lemma renderer_materials_cons mu mat rest acc :
  renderer_materials mu (mat :: rest) acc =
  if truthy (shaderName (mumatprop mat)) then
    renderer_materials (intern_material mu mat) rest
      (acc ++ [match materials (intern_material mu mat) !! mat_name mat with
               | Some m => material_index m
               | None => 0
               end])
  else renderer_materials mu rest acc.
Proof.
  cbn [renderer_materials]. unfold intern_material.
  destruct (truthy _); [|done].
  destruct (materials mu !! mat_name mat); [done|].
  by destruct (make_material mu mat).
Qed.

Lemma renderer_materials_spec mats : ∀ mu acc seen,
  Forall2 (indexed mu) seen acc →
  let r := renderer_materials mu mats acc in
  same_but_resources mu r.1
  ∧ (∀ k x, materials mu !! k = Some x → materials r.1 !! k = Some x)
  ∧ Forall2 (indexed r.1)
      (seen ++ filter (λ mat, truthy (shaderName (mumatprop mat)) = true) mats)
      r.2.
Proof.
  induction mats as [|mat mats IH]; intros mu acc seen Hacc.
  - cbn. rewrite app_nil_r. split; [apply same_but_resources_refl|done].
  - rewrite renderer_materials_cons.
    destruct (truthy (shaderName (mumatprop mat))) eqn:E.
    + destruct (intern_material_frame mu mat) as (Hs & Hkeep & [m Hm]).
      rewrite Hm.
      edestruct (IH (intern_material mu mat) (acc ++ [material_index m])
                    (seen ++ [mat])) as (Hs' & Hkeep' & Hall).
      { apply Forall2_app.
        - eapply Forall2_impl; [exact Hacc|].
          intros x i (mx & Hx & Hi). exists mx. eauto.
        - constructor; [|constructor]. by exists m. }
      cbn zeta. split; [by eapply same_but_resources_trans|].
      split; [eauto|].
      rewrite filter_cons_True by done. by rewrite <- app_assoc in Hall.
    + rewrite filter_cons_False by (by rewrite E). by apply IH.
Qed.

Lemma make_renderer_spec mu mesh :
  same_but_resources mu (make_renderer mu mesh).1
  ∧ match (make_renderer mu mesh).2 with
    | None => shaded mesh = []
    | Some r => shaded mesh ≠ []
                ∧ Forall2 (indexed (make_renderer mu mesh).1)
                          (shaded mesh) (rend_materials r)
    end.
Proof.
  unfold make_renderer, shaded.
  destruct (renderer_materials_spec (mesh_materials mesh) mu [] [])
    as (Hs & _ & Hall); [constructor|].
  destruct (renderer_materials mu (mesh_materials mesh) []) as [mu' l].
  cbn [fst snd app] in *.
  destruct l as [|i l]; cbn [fst snd].
  - split; [done|]. by apply Forall2_nil_inv_r in Hall.
  - split; [done|]. split; [|done]. intros E. rewrite E in Hall.
    by apply Forall2_nil_inv_l in Hall.
Qed.

End Interner.

(** ** Relations every run keeps

    A relation between states that is a preorder and is kept by each
    elementary change of the state is kept by [make_obj], whether it
    returns or raises. *)

Create HintDb keeps.

Section Keeps.
Context `{Collaborators}.

Lemma make_head_run obj path w :
  make_head obj path w =
  Ok (head_node w obj, node_path path (w_objects w obj)) (registered path obj w).
Proof.
  unfold make_head, head_node, registered, node_path, base_rotation.
  cbn. unfold set_tag_and_layer, empty_MuObject. cbn.
  by destruct (String.eqb (rotation_mode (w_objects w obj)) "QUATERNION").
Qed.

(** A relation that holds across every change of the textures and the
    materials holds across the interning of [make_renderer]. *)
Lemma renderer_step (Q : World -> World -> Prop) :
  (∀ w mu, same_but_resources (w_mu w) mu → Q w (with_mu mu w)) →
  ∀ w mesh, Q w (with_mu (make_renderer (w_mu w) mesh).1 w).
Proof. intros HQ w mesh. apply HQ, make_renderer_spec. Qed.

Variable R : World -> World -> Prop.
Variable special : gmap string Handler.

Hypothesis R_refl : ∀ w, R w w.
Hypothesis R_trans : ∀ a b c, R a b → R b c → R a c.
Hypothesis R_head : ∀ w path obj, R w (registered path obj w).
Hypothesis R_location : ∀ w o v,
  R w (with_objects (update o (set_location v (w_objects w o)) (w_objects w)) w).
Hypothesis R_nodes : ∀ w n,
  R w (with_mu (set_nodes (nodes (w_mu w) ++ [n]) (w_mu w)) w).
Hypothesis R_offset : ∀ w name v, R w (with_mu (set_offset name v (w_mu w)) w).
Hypothesis R_renderer : ∀ w mesh,
  R w (with_mu (make_renderer (w_mu w) mesh).1 w).
Hypothesis R_handler : ∀ w k h o,
  special !! k = Some h → R w (with_mu (h (w_mu w) o).1 w).

Lemma keeps_ret {A} (a : A) : keeps R (ret a).
Proof. intros w. apply R_refl. Qed.

Lemma keeps_bind {A B} (c : M A) (k : A -> M B) :
  keeps R c → (∀ a, keeps R (k a)) → keeps R (bind c k).
Proof.
  intros Hc Hk w. unfold bind. specialize (Hc w).
  destruct (c w) as [a w1|e w1|]; [|done|done].
  specialize (Hk a w1). destruct (k a w1); [| |done]; by eapply R_trans.
Qed.

Lemma keeps_raise {A} e : keeps R (raise (A := A) e).
Proof. intros w. apply R_refl. Qed.

Lemma keeps_get : keeps R get.
Proof. intros w. apply R_refl. Qed.

Lemma keeps_get_object o : keeps R (get_object o).
Proof. intros w. apply R_refl. Qed.

Lemma keeps_get_group o : keeps R (get_group o).
Proof. intros w. apply R_refl. Qed.

Lemma keeps_read_location o : keeps R (read_location o).
Proof. intros w. apply R_refl. Qed.

Lemma keeps_assign_location o v : keeps R (assign_location o v).
Proof. intros w. apply R_location. Qed.

Lemma keeps_isub_location o v : keeps R (isub_location o v).
Proof. intros w. apply R_location. Qed.

Lemma keeps_group_root fuel o g : keeps R (group_root fuel o g).
Proof.
  intros w. unfold group_root.
  destruct (is_group_root _ _ _ _); [apply R_refl|done].
Qed.

Lemma keeps_make_transform o : keeps R (make_transform o).
Proof.
  unfold make_transform.
  apply keeps_bind; [apply keeps_get_object|intros].
  apply keeps_bind; [apply keeps_read_location|intros]. apply keeps_ret.
Qed.

Lemma keeps_make_light l o : keeps R (make_light l o).
Proof.
  unfold make_light. destruct (light_type_index _);
    [apply keeps_ret|apply keeps_raise].
Qed.

Lemma keeps_append_node n :
  keeps R (modify_mu (λ mu, set_nodes (nodes mu ++ [n]) mu)).
Proof. intros w. apply R_nodes. Qed.

Lemma keeps_set_offset name (v : Mu -> Vector) :
  keeps R (modify_mu (λ mu, set_offset name (v mu) mu)).
Proof. intros w. apply R_offset. Qed.

Lemma keeps_make_renderer mesh :
  keeps R (on_mu (λ mu, make_renderer mu mesh)).
Proof.
  intros w. unfold on_mu. specialize (R_renderer w mesh).
  by destruct (make_renderer (w_mu w) mesh).
Qed.

Lemma keeps_handler k h o :
  special !! k = Some h → keeps R (on_mu (λ mu, h mu o)).
Proof.
  intros Hk w. unfold on_mu. specialize (R_handler w k h o Hk).
  by destruct (h (w_mu w) o).
Qed.

Hint Resolve keeps_ret keeps_raise keeps_get keeps_get_object keeps_get_group
  keeps_read_location keeps_assign_location
  keeps_isub_location keeps_group_root keeps_make_transform keeps_make_light
  keeps_append_node keeps_set_offset keeps_make_renderer
  : keeps.

Ltac keeps_go :=
  repeat first
    [ apply keeps_bind; [|intros]
    | progress eauto with keeps
    | match goal with
      | |- keeps _ (match ?x with _ => _ end) => destruct x
      | |- keeps _ (if ?x then _ else _) => destruct x
      | |- keeps _ (let (_, _) := ?x in _) => destruct x
      end ].

Section Loops.
Variable rec : nat -> string -> M (option MuObject).
Variable fuel : nat.
Hypothesis rec_keeps : ∀ o p, keeps R (rec o p).

Lemma keeps_group_children group path os : ∀ muobj,
  keeps R (group_children rec fuel group path os muobj).
Proof.
  induction os as [|o os IH]; intros muobj; cbn [group_children]; keeps_go.
Qed.

Lemma keeps_object_children path os : ∀ muobj,
  keeps R (object_children rec special path os muobj).
Proof.
  induction os as [|o os IH]; intros muobj; cbn [object_children].
  { keeps_go. }
  apply keeps_bind; [keeps_go|intros c].
  apply keeps_bind.
  { destruct (special !! _) eqn:E; [by eapply keeps_handler|keeps_go]. }
  intros claimed. keeps_go.
Qed.

Lemma keeps_make_head obj path : keeps R (make_head obj path).
Proof. intros w. rewrite make_head_run. apply R_head. Qed.

Lemma keeps_make_empty o muobj : keeps R (make_empty o muobj).
Proof. unfold make_empty. keeps_go. Qed.

Lemma keeps_make_role o path muobj : keeps R (make_role rec fuel o path muobj).
Proof.
  unfold make_role, make_data. keeps_go; auto using keeps_group_children.
Qed.

Lemma keeps_make_tail obj head :
  keeps R (make_tail rec special fuel obj head).
Proof.
  unfold make_tail. destruct head as [muobj p].
  apply keeps_bind; [keeps_go|intros o].
  apply keeps_bind; [apply keeps_make_empty|intros [m|]]; [|keeps_go].
  apply keeps_bind; [apply keeps_make_role|intros m2].
  apply keeps_bind; [apply keeps_object_children|intros m3]. keeps_go.
Qed.

Lemma keeps_make_obj_body obj path :
  keeps R (make_obj_body rec special fuel obj path).
Proof.
  unfold make_obj_body.
  apply keeps_bind; [apply keeps_make_head|intros head].
  apply keeps_make_tail.
Qed.

End Loops.

Lemma keeps_make_obj fuel : ∀ obj path,
  keeps R (make_obj fuel special obj path).
Proof.
  induction fuel as [|fuel IH]; intros obj path; cbn [make_obj].
  - by intros w.
  - by apply keeps_make_obj_body.
Qed.

End Keeps.

(** ** The scene stays the same up to locations *)

Section Scene.
Context `{Collaborators}.

Lemma static_eq_refl a : static_eq a a.
Proof. by destruct a. Qed.

Lemma static_eq_trans a b c : static_eq a b → static_eq b c → static_eq a c.
Proof. unfold static_eq. intros <- <-. by destruct a. Qed.

Lemma static_eq_set v a : static_eq a (set_location v a).
Proof. by destruct a. Qed.

Lemma same_scene_refl w : same_scene w w.
Proof. split; [done|]. intros i. apply static_eq_refl. Qed.

Lemma same_scene_trans a b c :
  same_scene a b → same_scene b c → same_scene a c.
Proof.
  intros [Hg1 Ho1] [Hg2 Ho2]. split; [congruence|].
  intros i. eapply static_eq_trans; [apply Ho1|apply Ho2].
Qed.

Lemma same_scene_store w w' :
  w_groups w' = w_groups w → w_objects w' = w_objects w → same_scene w w'.
Proof.
  intros Hg Ho. split; [done|]. intros i. rewrite Ho. apply static_eq_refl.
Qed.

Lemma same_scene_location w o v :
  same_scene w (with_objects
                  (update o (set_location v (w_objects w o)) (w_objects w)) w).
Proof.
  split; [done|]. intros i. cbn. unfold update.
  destruct (Nat.eqb_spec i o) as [->|];
    [apply static_eq_set|apply static_eq_refl].
Qed.

Lemma make_obj_same_scene fuel special obj path :
  keeps same_scene (make_obj fuel special obj path).
Proof.
  apply keeps_make_obj;
    auto using same_scene_refl, same_scene_location, same_scene_store.
  apply same_scene_trans.
Qed.

Lemma make_role_same_scene rec fuel o path muobj :
  (∀ o p, keeps same_scene (rec o p)) →
  keeps same_scene (make_role rec fuel o path muobj).
Proof.
  intros Hrec. apply keeps_make_role;
    auto using same_scene_refl, same_scene_location, same_scene_store.
  apply same_scene_trans.
Qed.

End Scene.

(** ** One call of the builder, stage by stage *)

Section Calls.
Context `{Collaborators}.

Lemma make_obj_S fuel special obj path :
  make_obj (S fuel) special obj path =
  make_obj_body (make_obj fuel special) special fuel obj path.
Proof. done. Qed.

Lemma make_empty_Ok o m w kept w1 :
  make_empty o m w = Ok kept w1 →
  (kept = None ↔ declines o (inverse (w_mu w)) = true)
  ∧ (∀ m1, kept = Some m1 →
       m1 = (if is_attach_marker o then rotate quat_x_plus90 m else m))
  ∧ w_objects w1 = w_objects w ∧ w_groups w1 = w_groups w
  ∧ w_next w1 = w_next w
  ∧ object_paths (w_mu w1) = object_paths (w_mu w)
  ∧ materials (w_mu w1) = materials (w_mu w)
  ∧ textures (w_mu w1) = textures (w_mu w)
  ∧ inverse (w_mu w1) = inverse (w_mu w).
Proof.
  unfold make_empty, declines, is_attach_marker. destruct (data o).
  { intros [<- <-]%ret_Ok. repeat split; try done. by intros ? [= <-]. }
  destruct (String.eqb (substring 0 5 (strip_nnn (obj_name o))) "node_").
  - cbn. destruct (keep_transform _); cbn; intros [= <- <-];
      repeat split; try done.
    all: by intros ? [= <-].
  - destruct (existsb _ _); cbn; intros [= <- <-]; repeat split; try done.
    all: by intros ? [= <-].
Qed.

Lemma make_data_Ok d o m w m2 w2 :
  make_data d o m w = Ok m2 w2 →
  oid m2 = oid m ∧ mu_children m2 = mu_children m ∧ collider m2 = collider m
  ∧ tag_and_layer m2 = tag_and_layer m
  ∧ tr_name (transform m2) = tr_name (transform m)
  ∧ localRotation (transform m2) =
    match d with
    | DLight _ | DCamera _ =>
        quat_mul (localRotation (transform m)) quat_x_minus90
    | _ => localRotation (transform m)
    end
  ∧ renderer m2 =
    match d with
    | DMesh mesh => (make_renderer (w_mu w) mesh).2
    | _ => renderer m
    end
  ∧ w_objects w2 = w_objects w ∧ w_groups w2 = w_groups w
  ∧ w_next w2 = w_next w
  ∧ same_but_resources (w_mu w) (w_mu w2).
Proof.
  destruct d as [mesh|l|c|]; cbn [make_data].
  - intros Hrun. ok_step Hrun. apply ret_Ok in Hrun as [<- <-].
    unfold on_mu in Hrun0.
    destruct (make_renderer_spec (w_mu w) mesh) as [Hs _].
    destruct (make_renderer (w_mu w) mesh) as [mu' r] eqn:E.
    injection Hrun0 as <- <-. cbn [fst snd] in Hs.
    repeat split; try done; apply Hs.
  - intros Hrun. ok_step Hrun. apply ret_Ok in Hrun as [<- <-].
    unfold make_light in Hrun0. destruct (light_type_index _); [|done].
    injection Hrun0 as <- <-. by repeat split.
  - intros [<- <-]%ret_Ok. by repeat split.
  - intros [<- <-]%ret_Ok. by repeat split.
Qed.

(** One pass of the loop over the children, spelled out. *)
Lemma object_children_cons rec (special : gmap string Handler) path o rest
    muobj w :
  object_children rec special path (o :: rest) muobj w =
  let c := w_objects w o in
  let pass := λ w1 : World,
    if has_collider c then
      object_children rec special path rest
        (set_collider (make_collider c) muobj) w1
    else if match data c with
            | Some d => negb (exportable d)
            | None => false
            end
    then object_children rec special path rest muobj w1
    else match rec o path w1 with
         | Ok child w2 =>
             object_children rec special path rest
               (match child with
                | Some n => append_child n muobj
                | None => muobj
                end) w2
         | Raise e w2 => Raise e w2
         | OutOfFuel => OutOfFuel
         end in
  match (special !! prop_modelType (muproperties c) : option Handler)
  return outcome MuObject with
  | Some handler =>
      if ((handler (w_mu w) o).2 : bool)
      then object_children rec special path rest muobj
             (with_mu (handler (w_mu w) o).1 w)
      else pass (with_mu (handler (w_mu w) o).1 w)
  | None => pass w
  end.
Proof.
  cbn [object_children]. unfold bind, get_object, on_mu, ret. cbn zeta.
  destruct (special !! _) as [h|].
  - destruct (h (w_mu w) o) as [mu' claimed]. cbn [fst snd].
    destruct claimed; [done|].
    destruct (has_collider _); [done|].
    destruct (data _) as [d|]; [|by destruct (rec _ _ _)].
    destruct (negb (exportable d)); [done|by destruct (rec _ _ _)].
  - destruct (has_collider _); [done|].
    destruct (data _) as [d|]; [|by destruct (rec _ _ _)].
    destruct (negb (exportable d)); [done|by destruct (rec _ _ _)].
Qed.

(** One pass of the loop over the objects of the group, spelled out. *)
Lemma group_children_cons rec fuel group path o rest muobj w :
  group_children rec fuel group path (o :: rest) muobj w =
  match is_group_root fuel (w_objects w) o group with
  | None => OutOfFuel
  | Some false => group_children rec fuel group path rest muobj w
  | Some true =>
      match rec o path (shifted o group w) with
      | Ok child w1 =>
          group_children rec fuel group path rest
            (match child with
             | Some c => append_child c muobj
             | None => muobj
             end)
            (with_objects
               (update o
                  (set_location
                     (if live_vectors then location (w_objects w1 o)
                      else location (w_objects w o))
                     (w_objects w1 o))
                  (w_objects w1)) w1)
      | Raise e w1 => Raise e w1
      | OutOfFuel => OutOfFuel
      end
  end.
Proof.
  cbn [group_children]. unfold bind at 1, group_root.
  destruct (is_group_root _ _ _ _) as [[]|]; [|done|done].
  cbn [negb]. unfold bind, read_location, isub_location, assign_location.
  unfold shifted. destruct (rec o path _) as [child w1| |]; [|done|done].
  unfold deref. by destruct live_vectors.
Qed.

Variable rec : nat -> string -> M (option MuObject).
Variable special : gmap string Handler.
Variable fuel : nat.

Lemma make_obj_body_Ok obj path w r w' :
  make_obj_body rec special fuel obj path w = Ok r w' →
  let o := w_objects w obj in
  let p := node_path path o in
  ∃ kept w1, make_empty o (head_node w obj) (registered path obj w) = Ok kept w1
    ∧ match kept with
      | None => r = None ∧ w' = w1
      | Some m1 => ∃ m2 w2 m3,
          make_role rec fuel o p m1 w1 = Ok m2 w2
          ∧ object_children rec special p (children o) m2 w2 = Ok m3 w'
          ∧ r = Some m3
      end.
Proof.
  intros Hrun o p. unfold make_obj_body, make_tail in Hrun.
  ok_step Hrun. rewrite make_head_run in Hrun0. injection Hrun0 as <- <-.
  ok_step Hrun. injection Hrun0 as <- <-. cbn in Hrun. ok_step Hrun.
  exists a, w0. split; [done|].
  destruct a as [m1|].
  - do 2 ok_step Hrun. apply ret_Ok in Hrun as [<- <-]. eauto 10.
  - by apply ret_Ok in Hrun as [<- <-].
Qed.

(** What the [if]/[elif] chain does to the node, by the role of the
    object. *)
Lemma make_role_Ok o p m w m2 w2 :
  make_role rec fuel o p m w = Ok m2 w2 →
  oid m2 = oid m ∧ collider m2 = collider m
  ∧ tag_and_layer m2 = tag_and_layer m
  ∧ tr_name (transform m2) = tr_name (transform m)
  ∧ localRotation (transform m2) =
    match classify o with
    | LightRole | CameraRole =>
        quat_mul (localRotation (transform m)) quat_x_minus90
    | _ => localRotation (transform m)
    end
  ∧ renderer m2 =
    match classify o, data o with
    | RenderableMeshRole, Some (DMesh mesh) => (make_renderer (w_mu w) mesh).2
    | _, _ => renderer m
    end
  ∧ match classify o with
    | EmptyRole | ColliderOwnerRole | SkipRole => m2 = m ∧ w2 = w
    | _ => True
    end
  ∧ match classify o with
    | RenderableMeshRole | LightRole | CameraRole => True
    | _ => same_head m m2
    end.
Proof.
  unfold make_role, classify. destruct (data o) as [d|] eqn:Ed.
  - destruct (has_collider o).
    { intros [<- <-]%ret_Ok. destruct (dupli_group o); by repeat split. }
    intros Hrun.
    assert (make_data d o m w = Ok m2 w2) as Hd by (by destruct (dupli_group o)).
    clear Hrun. pose proof Hd as (?&?&?&?&?&?&?&?)%make_data_Ok.
    destruct d; repeat split; try done;
      by apply ret_Ok in Hd as [<- <-].
  - destruct (dupli_group o) as [g|].
    + intros Hrun. ok_step Hrun.
      apply group_children_head in Hrun as [(?&Ht&?&?&?&?&?) ?].
      rewrite <- Ht. by repeat split.
    + destruct (has_collider o); intros [<- <-]%ret_Ok; by repeat split.
Qed.

End Calls.

(** ** The builder returns *)

Section Progress.
Context `{Collaborators}.

Lemma static_eq_fields a b :
  static_eq a b →
  obj_name b = obj_name a ∧ data b = data a ∧ parent b = parent a
  ∧ children b = children a ∧ dupli_group b = dupli_group a
  ∧ users_group b = users_group a ∧ muproperties b = muproperties a.
Proof. unfold static_eq. intros <-. by destruct a. Qed.

Lemma static_eq_classify a b : static_eq a b → classify b = classify a.
Proof.
  intros (_ & Hd & _ & _ & Hg & _ & Hm)%static_eq_fields.
  unfold classify, has_collider. by rewrite Hd, Hg, Hm.
Qed.

Lemma is_group_root_static fuel objs objs' group : ∀ x,
  (∀ i, static_eq (objs i) (objs' i)) →
  is_group_root fuel objs' x group = is_group_root fuel objs x group.
Proof.
  induction fuel as [|fuel IH]; intros x Hs; cbn [is_group_root];
    destruct (static_eq_fields _ _ (Hs x)) as (_ & _ & -> & _);
    destruct (parent (objs x)) as [p|]; try done;
    destruct (static_eq_fields _ _ (Hs p)) as (_ & _ & _ & _ & _ & -> & _);
    try done.
  destruct (negb _); [done|]. by apply IH.
Qed.

Lemma buildable_static fuel : ∀ w w' obj,
  same_scene w w' →
  buildable fuel (w_objects w) (w_groups w) obj →
  buildable fuel (w_objects w') (w_groups w') obj.
Proof.
  induction fuel as [|fuel IH]; intros w w' obj Hs; [done|].
  pose proof Hs as [Hg Ho]. cbn [buildable]. lazy zeta.
  destruct (static_eq_fields _ _ (Ho obj)) as (_ & Hd & _ & Hk & Hdg & _).
  rewrite (static_eq_classify _ _ (Ho obj)), Hd, Hk, Hdg.
  intros [Hrole Hkids]. split.
  - destruct (classify (w_objects w obj)); try done.
    intros g Hgr. specialize (Hrole g Hgr).
    assert (w_groups w' g = w_groups w g) as -> by (by rewrite Hg).
    eapply Forall_impl; [exact Hrole|]. intros x (b & Hb & Hx).
    exists b. rewrite (is_group_root_static _ _ _ _ _ Ho). split; [done|].
    intros Hbt. eapply IH; [exact Hs|]. by apply Hx.
  - eapply Forall_impl; [exact Hkids|]. intros c. by apply IH.
Qed.

Lemma make_empty_returns o m w : ∃ kept w1, make_empty o m w = Ok kept w1.
Proof.
  unfold make_empty. destruct (data o); [by eexists _, _|].
  destruct (String.eqb _ "node_").
  - cbn. destruct (keep_transform _); by eexists _, _.
  - destruct (existsb _ _); by eexists _, _.
Qed.

Section ProgressLoops.
Variable rec : nat -> string -> M (option MuObject).
Variable special : gmap string Handler.
Variable fuel : nat.
Variable w0 : World.
Hypothesis rec_scene : ∀ o p, keeps same_scene (rec o p).
Hypothesis rec_returns : ∀ o p w,
  same_scene w0 w → buildable fuel (w_objects w0) (w_groups w0) o →
  ∃ r w', rec o p w = Ok r w'.

Lemma object_children_returns path os : ∀ muobj w,
  same_scene w0 w →
  Forall (buildable fuel (w_objects w0) (w_groups w0)) os →
  ∃ m w', object_children rec special path os muobj w = Ok m w'.
Proof.
  induction os as [|o os IH]; intros muobj w Hs Hall; [by eexists _, _|].
  apply Forall_cons in Hall as [Ho Hall].
  rewrite object_children_cons. lazy zeta.
  assert (∀ w1 : World, same_scene w0 w1 →
    ∃ m w',
      (if has_collider (w_objects w o)
       then object_children rec special path os
              (set_collider (make_collider (w_objects w o)) muobj) w1
       else if match data (w_objects w o) with
               | Some d => negb (exportable d)
               | None => false
               end
       then object_children rec special path os muobj w1
       else match rec o path w1 with
            | Ok child w2 =>
                object_children rec special path os
                  (match child with
                   | Some n => append_child n muobj
                   | None => muobj
                   end) w2
            | Raise e w2 => Raise e w2
            | OutOfFuel => OutOfFuel
            end) = Ok m w') as Hpass.
  { intros w1 Hs1. destruct (has_collider _); [by apply IH|].
    destruct (match data _ with Some _ => _ | None => _ end); [by apply IH|].
    destruct (rec_returns o path w1 Hs1 Ho) as (r & w2 & Hrec).
    pose proof (rec_scene o path w1) as Hk. rewrite Hrec in Hk. rewrite Hrec.
    apply IH; [|done]. by eapply same_scene_trans. }
  destruct (special !! _) as [h|]; [|by apply Hpass].
  assert (same_scene w0 (with_mu (h (w_mu w) o).1 w)) as Hs1.
  { eapply same_scene_trans; [exact Hs|]. by apply same_scene_store. }
  destruct (h (w_mu w) o).2; [by apply IH|by apply Hpass].
Qed.

Lemma group_children_returns group path os : ∀ muobj w,
  same_scene w0 w →
  Forall (λ x, ∃ b, is_group_root fuel (w_objects w0) x group = Some b
                    ∧ (b = true →
                       buildable fuel (w_objects w0) (w_groups w0) x)) os →
  ∃ m w', group_children rec fuel group path os muobj w = Ok m w'.
Proof.
  induction os as [|o os IH]; intros muobj w Hs Hall; [by eexists _, _|].
  apply Forall_cons in Hall as [(b & Hb & Ho) Hall].
  rewrite group_children_cons.
  rewrite (is_group_root_static _ _ _ _ _ (proj2 Hs)), Hb.
  destruct b; [|by apply IH].
  assert (same_scene w0 (shifted o group w)) as Hs1.
  { eapply same_scene_trans; [exact Hs|]. apply same_scene_location. }
  destruct (rec_returns o path _ Hs1 (Ho eq_refl)) as (r & w2 & Hrec).
  pose proof (rec_scene o path (shifted o group w)) as Hk.
  rewrite Hrec in Hk. rewrite Hrec. apply IH; [|done].
  eapply same_scene_trans; [exact Hs1|].
  eapply same_scene_trans; [exact Hk|]. apply same_scene_location.
Qed.

Lemma make_obj_body_returns obj path w :
  same_scene w0 w →
  buildable (S fuel) (w_objects w0) (w_groups w0) obj →
  ∃ r w', make_obj_body rec special fuel obj path w = Ok r w'.
Proof.
  intros Hs Hb. apply (buildable_static (S fuel) _ _ _ Hs) in Hb.
  destruct Hb as [Hrole Hkids].
  unfold make_obj_body, bind at 1. rewrite make_head_run.
  unfold make_tail, bind at 1, get_object at 1.
  change (w_objects (registered path obj w) obj) with (w_objects w obj).
  destruct (make_empty_returns (w_objects w obj) (head_node w obj)
              (registered path obj w)) as (kept & w1 & Hempty).
  unfold bind at 1. rewrite Hempty.
  destruct kept as [m1|]; [|by eexists _, _].
  pose proof Hempty as (_ & _ & Ho1 & Hg1 & _)%make_empty_Ok.
  assert (same_scene w w1) as Hs1 by (by apply same_scene_store).
  assert (∃ m2 w2, make_role rec fuel (w_objects w obj)
                     (node_path path (w_objects w obj)) m1 w1 = Ok m2 w2)
    as (m2 & w2 & Hmr).
  { unfold make_role. unfold classify in Hrole.
    destruct (data (w_objects w obj)) as [d|] eqn:Ed.
    - destruct (has_collider _); [by eexists _, _|].
      destruct d as [mesh|l|c|]; cbn [make_data].
      + unfold bind, on_mu. destruct (make_renderer _ _). by eexists _, _.
      + unfold bind, make_light. specialize (Hrole l eq_refl).
        destruct (light_type l); try (by destruct Hrole); by eexists _, _.
      + by eexists _, _.
      + by eexists _, _.
    - destruct (dupli_group (w_objects w obj)) as [g|] eqn:Eg.
      + unfold bind at 1, get_group at 1.
        apply group_children_returns.
        * by eapply same_scene_trans; [|exact Hs1].
        * destruct Hs as [Hg0 Ho0]. destruct Hs1 as [Hgw _].
          specialize (Hrole g eq_refl). rewrite Hgw.
          eapply Forall_impl; [exact Hrole|]. intros x (b & Hb & Hx).
          exists b. rewrite <- (is_group_root_static _ _ _ _ _ Ho0).
          split; [done|]. intros Hbt.
          eapply (buildable_static fuel w w0); [|by apply Hx].
          split; [done|]. intros i. specialize (Ho0 i).
          unfold static_eq in *. rewrite <- Ho0. by destruct (w_objects w0 i).
      + destruct (has_collider _); by eexists _, _. }
  unfold bind at 1. rewrite Hmr.
  pose proof (make_role_same_scene rec fuel (w_objects w obj)
                (node_path path (w_objects w obj)) m1 rec_scene w1) as Hk.
  rewrite Hmr in Hk.
  destruct (object_children_returns (node_path path (w_objects w obj))
              (children (w_objects w obj)) m2 w2) as (m3 & w3 & Hloop).
  { eapply same_scene_trans; [exact Hs|]. by eapply same_scene_trans. }
  { eapply Forall_impl; [exact Hkids|]. intros c Hc.
    eapply (buildable_static fuel w w0); [|done].
    destruct Hs as [Hg0 Ho0]. split; [done|]. intros i. specialize (Ho0 i).
    unfold static_eq in *. rewrite <- Ho0. by destruct (w_objects w0 i). }
  unfold bind. rewrite Hloop. by eexists _, _.
Qed.

End ProgressLoops.

(** On a scene that is buildable within the fuel, the builder returns. *)
Lemma make_obj_returns fuel special : ∀ w0 obj path w,
  same_scene w0 w →
  buildable fuel (w_objects w0) (w_groups w0) obj →
  ∃ r w', make_obj fuel special obj path w = Ok r w'.
Proof.
  induction fuel as [|fuel IH]; intros w0 obj path w Hs Hb; [done|].
  rewrite make_obj_S. eapply make_obj_body_returns; try done.
  - intros o p. apply make_obj_same_scene.
  - intros o p w1 Hs1 Hb1. by eapply IH.
Qed.

End Progress.

(** ** The resource interner *)

Section InternerClaims.
Context `{Host}.

(** Claim C4.  Of the texture references interned one after the other
    into one model, any two with the same source identifier get the
    same index, and each use keeps the tiling scale and offset of its
    own reference; a reference whose source identifier is not in the
    table when it is interned gets the size of the table as its index,
    and the table grows by that one entry. *)
Theorem make_texture_shares_index (mu : Mu) (ts : list TexSlot) (i j : nat)
    (a b : TexSlot) :
  i < j → ts !! i = Some a → ts !! j = Some b → slot_tex a = slot_tex b →
  let before := (make_textures mu (take i ts)).1 in
  ∃ ua ub,
    (make_textures mu ts).2 !! i = Some ua
    ∧ (make_textures mu ts).2 !! j = Some ub
    ∧ mattex_index ua = mattex_index ub
    ∧ mattex_scale ua = slot_scale a ∧ mattex_offset ua = slot_offset a
    ∧ mattex_scale ub = slot_scale b ∧ mattex_offset ub = slot_offset b
    ∧ (textures before !! slot_tex a = None →
       mattex_index ua = size (textures before)
       ∧ size (textures (make_texture before a).1) = S (size (textures before))).
Proof.
  intros Hij Hi Hj Hab before.
  eexists _, _. split; [by apply make_textures_lookup|].
  split; [by apply make_textures_lookup|].
  split; [|do 4 (split; [done|]); intros Hnone; split].
  - destruct (make_texture_lookup before a) as (x & Hx & Hix & _).
    fold before. rewrite Hix.
    destruct (make_texture_lookup (make_textures mu (take j ts)).1 b)
      as (y & Hy & Hiy & Hsame & _).
    rewrite Hiy. f_equal. symmetry. apply Hsame. rewrite <- Hab.
    assert (∃ rest, take j ts = take i ts ++ a :: rest) as [rest ->].
    { exists (take (j - S i) (drop (S i) ts)).
      rewrite <- (take_drop (S i) ts) at 1.
      assert (length (take (S i) ts) = S i) as Hlen.
      { apply lookup_lt_Some in Hi. rewrite length_take. lia. }
      rewrite take_app_ge by lia. rewrite Hlen.
      rewrite (take_S_r _ _ _ Hi). by rewrite <- app_assoc. }
    rewrite make_textures_app. fold before. rewrite make_textures_cons.
    cbn [fst]. by apply make_textures_keeps.
  - fold before.
    destruct (make_texture_lookup before a) as (x & Hx & Hix & _ & Hfresh).
    rewrite Hix. by apply Hfresh.
  - unfold make_texture. rewrite Hnone. cbn. by rewrite map_size_insert_None.
Qed.

End InternerClaims.

(** ** The tree builder, call by call *)

Section BuilderClaims.
Context `{Collaborators}.

Lemma declining_marker_returns_None fuel special obj path w :
  declines (w_objects w obj) (inverse (w_mu w)) = true →
  make_obj (S fuel) special obj path w =
  Ok None (with_mu (set_nodes
                      (nodes (w_mu w) ++
                       [new_AttachNode (w_objects w obj) (inverse (w_mu w))])
                      (w_mu (registered path obj w)))
                   (registered path obj w)).
Proof.
  intros Hd. rewrite make_obj_S. unfold make_obj_body, make_tail, bind.
  rewrite make_head_run.
  cbn [get_object registered with_mu with_next w_objects].
  unfold declines, is_attach_marker in Hd.
  apply andb_true_iff in Hd as [Hm Hk]. apply negb_true_iff in Hk.
  unfold make_empty. destruct (data (w_objects w obj)); [done|].
  rewrite Hm. cbn. rewrite Hk. done.
Qed.


(** Claim C6.  The rotation of a built node is the rotation of its
    object with the one correction of its role multiplied on from the
    right: +90 degrees about X for an attachment-node marker, -90
    degrees about X for a light or a camera, none for any other role. *)
Theorem make_obj_rotation_by_role fuel special obj path w node w' :
  make_obj fuel special obj path w = Ok (Some node) w' →
  localRotation (transform node) =
  apply_correction (role_correction (w_objects w obj))
                   (base_rotation (w_objects w obj)).
Proof.
  intros Hrun. destruct fuel as [|fuel]; [done|].
  rewrite make_obj_S in Hrun.
  apply make_obj_body_Ok in Hrun as (kept & w1 & Hempty & Hrest).
  apply make_empty_Ok in Hempty as (_ & Hsome & _).
  destruct kept as [m1|]; [|by destruct Hrest].
  destruct Hrest as (m2 & w2 & m3 & Hrole & Hkids & [= ->]).
  apply make_role_Ok in Hrole as (_ & _ & _ & _ & Hrot & _).
  apply object_children_head in Hkids as (_ & <- & _).
  rewrite Hrot, (Hsome m1 eq_refl). unfold role_correction.
  unfold is_attach_marker, classify.
  destruct (data (w_objects w obj)) as [d|].
  - destruct (has_collider _); [done|]. by destruct d.
  - destruct (String.eqb _ "node_"); by destruct (dupli_group _).
Qed.

(** Claim C5.  The renderer of the node of a mesh object is what
    [make_renderer] returns for the mesh (none at all when the object is
    a collider owner): its material list holds the indices of the
    materials that have a shader, in their order, and of no other; and
    when no material of the mesh has a shader the node has no renderer
    rather than one with an empty list. *)
Theorem mesh_renderer_only_shaded_materials
    fuel special obj path w mesh node w' :
  data (w_objects w obj) = Some (DMesh mesh) →
  make_obj fuel special obj path w = Ok (Some node) w' →
  let built := make_renderer (w_mu (registered path obj w)) mesh in
  renderer node =
    (if has_collider (w_objects w obj) then None else built.2)
  ∧ (shaded mesh = [] → renderer node = None)
  ∧ (∀ r, renderer node = Some r →
       rend_materials r ≠ []
       ∧ Forall2 (indexed built.1) (shaded mesh) (rend_materials r)).
Proof.
  intros Hdata Hrun built. destruct fuel as [|fuel]; [done|].
  rewrite make_obj_S in Hrun.
  apply make_obj_body_Ok in Hrun as (kept & w1 & Hempty & Hrest).
  unfold make_empty in Hempty. rewrite Hdata in Hempty.
  apply ret_Ok in Hempty as [<- <-].
  destruct Hrest as (m2 & w2 & m3 & Hrole & Hkids & [= ->]).
  apply make_role_Ok in Hrole as (_ & _ & _ & _ & _ & Hrend & _).
  apply object_children_head in Hkids as (_ & _ & _ & _ & <- & _).
  unfold classify in Hrend. rewrite Hdata in Hrend.
  assert (renderer m2 =
          if has_collider (w_objects w obj) then None else built.2) as Heq.
  { rewrite Hrend. by destruct (has_collider _). }
  split; [done|].
  destruct (make_renderer_spec (w_mu (registered path obj w)) mesh)
    as [_ Hspec].
  fold built in Hspec. rewrite Heq.
  destruct (has_collider _); [by split|].
  destruct built.2 as [r|].
  - destruct Hspec as [Hne Hall]. split; [done|]. intros ? [= <-].
    split; [|done]. intros E. rewrite E in Hall.
    by apply Forall2_nil_inv_r in Hall.
  - by split.
Qed.

End BuilderClaims.

(** ** Collider children *)

Section ColliderClaims.
Context `{Collaborators}.

Lemma static_eq_collider_child special a b :
  static_eq a b → collider_child special b = collider_child special a.
Proof.
  unfold static_eq. intros <-. by destruct a.
Qed.

Lemma collider_child_true special o :
  collider_child special o = true →
  special !! prop_modelType (muproperties o) = None ∧ has_collider o = true.
Proof. unfold collider_child. by destruct (special !! _). Qed.

(** A collider child costs one pass of the loop and nothing else: the
    builder is not called, the state stays as it is, and the collider
    made of the child becomes the collider of the parent's node. *)
Lemma object_children_collider_step rec special path c rest muobj w :
  collider_child special (w_objects w c) = true →
  object_children rec special path (c :: rest) muobj w =
  object_children rec special path rest
    (set_collider (make_collider (w_objects w c)) muobj) w.
Proof.
  intros [Hnone Hcol]%collider_child_true.
  rewrite object_children_cons. lazy zeta. by rewrite Hnone, Hcol.
Qed.

(** The loop over the children never calls the builder on a collider
    child: two builders that agree on every other child give the same
    loop. *)
Lemma object_children_ext rec rec' special path os : ∀ muobj w,
  (∀ o p w, collider_child special (w_objects w o) = false →
            rec o p w = rec' o p w) →
  object_children rec special path os muobj w =
  object_children rec' special path os muobj w.
Proof.
  intros muobj w Hext. revert muobj w.
  induction os as [|o os IH]; intros muobj w; [done|].
  rewrite !object_children_cons. lazy zeta.
  unfold collider_child in Hext.
  destruct (special !! prop_modelType (muproperties (w_objects w o)))
    as [h|] eqn:Eh.
  - destruct (h (w_mu w) o).2; [apply IH|].
    destruct (has_collider (w_objects w o)); [apply IH|].
    destruct (match data (w_objects w o) with
              | Some d => negb (exportable d)
              | None => false
              end); [apply IH|].
    rewrite <- Hext by (cbn; by rewrite Eh).
    destruct (rec o path _); [apply IH|done|done].
  - destruct (has_collider (w_objects w o)) eqn:Ecol; [apply IH|].
    destruct (match data (w_objects w o) with
              | Some d => negb (exportable d)
              | None => false
              end); [apply IH|].
    rewrite <- Hext by (by rewrite Eh).
    destruct (rec o path w); [apply IH|done|done].
Qed.

(** The collider of the node the loop over the children leaves is the
    one the node had, or the collider made of one of the children. *)
Lemma object_children_collider_source rec special w0 path os :
  (∀ o p, keeps same_scene (rec o p)) →
  ∀ muobj w m w',
    same_scene w0 w →
    object_children rec special path os muobj w = Ok m w' →
    collider m = collider muobj
    ∨ ∃ k b, k ∈ os ∧ static_eq (w_objects w0 k) b ∧ has_collider b = true
             ∧ collider m = Some (make_collider b).
Proof.
  intros Hrec. induction os as [|o os IH]; intros muobj w m w' Hs Hrun.
  { apply ret_Ok in Hrun as [<- _]. by left. }
  assert (∀ mo w1, same_scene w0 w1 → collider mo = collider muobj →
            object_children rec special path os mo w1 = Ok m w' →
            collider m = collider muobj
            ∨ ∃ k b, k ∈ o :: os ∧ static_eq (w_objects w0 k) b
                     ∧ has_collider b = true
                     ∧ collider m = Some (make_collider b)) as Hskip.
  { intros mo w1 Hs1 Hmo Hr.
    destruct (IH _ _ _ _ Hs1 Hr) as [Hc|(k & b & Hk & Hb & Hcol & Hc)].
    - left. congruence.
    - right. exists k, b. split; [by right|done]. }
  rewrite object_children_cons in Hrun. lazy zeta in Hrun.
  assert (∀ w1 : World, same_scene w0 w1 →
    (if has_collider (w_objects w o)
     then object_children rec special path os
            (set_collider (make_collider (w_objects w o)) muobj) w1
     else if match data (w_objects w o) with
             | Some d => negb (exportable d)
             | None => false
             end
     then object_children rec special path os muobj w1
     else match rec o path w1 with
          | Ok child w2 =>
              object_children rec special path os
                (match child with
                 | Some n => append_child n muobj
                 | None => muobj
                 end) w2
          | Raise e w2 => Raise e w2
          | OutOfFuel => OutOfFuel
          end) = Ok m w' →
    collider m = collider muobj
    ∨ ∃ k b, k ∈ o :: os ∧ static_eq (w_objects w0 k) b
             ∧ has_collider b = true
             ∧ collider m = Some (make_collider b)) as Hpass.
  { intros w1 Hs1 Hpass. destruct (has_collider (w_objects w o)) eqn:Ecol.
    - destruct (IH _ _ _ _ Hs1 Hpass) as [Hc|(k & b & Hk & Hb & Hcol & Hc)].
      + right. exists o, (w_objects w o). split; [by left|].
        split; [apply Hs|]. split; [done|]. by rewrite Hc.
      + right. exists k, b. split; [by right|done].
    - destruct (match data _ with Some _ => _ | None => _ end);
        [by eapply (Hskip _ w1 Hs1); [|exact Hpass]|].
      destruct (rec o path w1) as [child w2| |] eqn:Erec; [|done|done].
      eapply (Hskip _ w2); [| |exact Hpass].
      + pose proof (Hrec o path w1) as Hk. rewrite Erec in Hk.
        by eapply same_scene_trans.
      + by destruct child. }
  destruct (special !! _) as [h|]; [|by apply (Hpass w)].
  assert (same_scene w0 (with_mu (h (w_mu w) o).1 w)) as Hs1.
  { eapply same_scene_trans; [exact Hs|]. by apply same_scene_store. }
  destruct (h (w_mu w) o).2;
    [by eapply (Hskip _ _ Hs1); [|exact Hrun]|by eapply (Hpass _ Hs1)].
Qed.

(** What the builder makes of an object that has a collider set, when
    it is called on the object itself. *)
Lemma make_obj_collider_bearer fuel special obj path w r w' :
  has_collider (w_objects w obj) = true →
  make_obj fuel special obj path w = Ok r w' →
  match r with
  | None => declines (w_objects w obj) (inverse (w_mu w)) = true
  | Some node =>
      declines (w_objects w obj) (inverse (w_mu w)) = false
      ∧ shared_mesh node = None ∧ renderer node = None
      ∧ light node = None ∧ camera node = None
      ∧ ∀ x, collider node = Some x →
          ∃ k b, k ∈ children (w_objects w obj)
                 ∧ static_eq (w_objects w k) b ∧ has_collider b = true
                 ∧ x = make_collider b
  end.
Proof.
  intros Hcol Hrun. destruct fuel as [|fuel]; [done|].
  rewrite make_obj_S in Hrun.
  apply make_obj_body_Ok in Hrun as (kept & w1 & Hempty & Hrest).
  apply make_empty_Ok in Hempty as (Hnone & Hsome & Ho1 & Hg1 & _).
  destruct kept as [m1|]; [|destruct Hrest as [-> _]; by apply Hnone].
  destruct Hrest as (m2 & w2 & m3 & Hrole & Hkids & ->).
  assert (declines (w_objects w obj) (inverse (w_mu w)) = false) as Hd.
  { destruct (declines _ _); [|done]. destruct Hnone as [_ Hdecl].
    by specialize (Hdecl eq_refl). }
  split; [done|].
  assert (same_scene w w2) as Hs2.
  { eapply same_scene_trans; [by apply same_scene_store|].
    pose proof (make_role_same_scene (make_obj fuel special) fuel
                  (w_objects w obj) (node_path path (w_objects w obj)) m1
                  (λ o p, make_obj_same_scene fuel special o p) w1) as Hk.
    by rewrite Hrole in Hk. }
  assert (same_head m1 m2 ∧ collider m2 = None) as [Hhead Hc2].
  { pose proof Hrole as (_ & Hc & _ & _ & _ & _ & _ & Hh)%make_role_Ok.
    assert (collider m1 = None) as Hc1
      by (rewrite (Hsome m1 eq_refl); by destruct (is_attach_marker _)).
    split; [|congruence]. unfold classify in Hh. rewrite Hcol in Hh.
    destruct (data (w_objects w obj)); [done|].
    by destruct (dupli_group (w_objects w obj)). }
  pose proof (object_children_head _ _ _ _ _ _ _ _ Hkids)
    as (_ & _ & _ & Hsm & Hre & Hli & Hca).
  destruct Hhead as (_ & _ & _ & Hsm1 & Hre1 & Hli1 & Hca1).
  rewrite <- Hsm, <- Hre, <- Hli, <- Hca, <- Hsm1, <- Hre1, <- Hli1, <- Hca1.
  rewrite (Hsome m1 eq_refl).
  split; [by destruct (is_attach_marker _)|].
  split; [by destruct (is_attach_marker _)|].
  split; [by destruct (is_attach_marker _)|].
  split; [by destruct (is_attach_marker _)|].
  intros x Hx.
  destruct (object_children_collider_source (make_obj fuel special) special
              w _ _ (λ o p, make_obj_same_scene fuel special o p)
              _ _ _ _ Hs2 Hkids) as [Hc|(k & b & Hk & Hb & Hcb & Hc)].
  - congruence.
  - exists k, b. rewrite Hx in Hc. by simplify_eq.
Qed.

(** Claim C2, as amended.  A collider child met by the loop over the
    children of its parent, and claimed by no special handler, is not
    built: the builder is never called on it, the state is left as it
    is, and its collider becomes the collider of the parent's node.  An
    object with a collider that is handed to the builder itself, with
    or without data, is not made into a collider record: on a scene
    that is buildable the call returns, and what it returns is nothing
    when the object is an attachment-node marker that declines to keep
    its transform and otherwise a node without mesh, renderer, light
    and camera, whose collider, if it has one, is made of one of the
    children of the object. *)
Theorem collider_child_becomes_parent_field rec special path c rest muobj w :
  collider_child special (w_objects w c) = true →
  object_children rec special path (c :: rest) muobj w =
    object_children rec special path rest
      (set_collider (make_collider (w_objects w c)) muobj) w
  ∧ (∀ rec' os m v,
       (∀ o p u, collider_child special (w_objects u o) = false →
                 rec o p u = rec' o p u) →
       object_children rec special path os m v =
       object_children rec' special path os m v)
  ∧ (∀ fuel table obj p v,
       has_collider (w_objects v obj) = true →
       (buildable fuel (w_objects v) (w_groups v) obj →
        ∃ r v', make_obj fuel table obj p v = Ok r v')
       ∧ ∀ r v', make_obj fuel table obj p v = Ok r v' →
           match r with
           | None => declines (w_objects v obj) (inverse (w_mu v)) = true
           | Some node =>
               declines (w_objects v obj) (inverse (w_mu v)) = false
               ∧ shared_mesh node = None ∧ renderer node = None
               ∧ light node = None ∧ camera node = None
               ∧ ∀ x, collider node = Some x →
                   ∃ k b, k ∈ children (w_objects v obj)
                          ∧ static_eq (w_objects v k) b
                          ∧ has_collider b = true
                          ∧ x = make_collider b
           end).
Proof.
  intros Hc. split; [by apply object_children_collider_step|].
  split; [intros; by apply object_children_ext|].
  intros fuel table obj p v Hcol. split.
  - intros Hb. eapply make_obj_returns; [apply same_scene_refl|done].
  - intros r v' Hrun. by eapply make_obj_collider_bearer.
Qed.

Section LastCollider.
Variable rec : nat -> string -> M (option MuObject).
Variable special : gmap string Handler.
Hypothesis rec_scene : ∀ o p, keeps same_scene (rec o p).
Hypothesis special_claiming : claiming special.

(** One pass of the loop over the children. *)
Lemma object_children_cons_Ok path x rest muobj w m w' :
  object_children rec special path (x :: rest) muobj w = Ok m w' →
  ∃ muobj1 w1,
    same_scene w w1
    ∧ object_children rec special path rest muobj1 w1 = Ok m w'
    ∧ (if collider_child special (w_objects w x)
       then collider muobj1 = Some (make_collider (w_objects w x))
       else collider muobj1 = collider muobj).
Proof.
  cbn [object_children]. intros Hrun. do 2 ok_step Hrun.
  injection Hrun0 as <- <-. unfold collider_child.
  destruct (special !! prop_modelType (muproperties (w_objects w x)))
    as [h|] eqn:Eh.
  - unfold on_mu in Hrun1. pose proof (special_claiming _ h (w_mu w) x Eh).
    destruct (h (w_mu w) x) as [mu' claimed]. cbn in *. subst claimed.
    injection Hrun1 as <- <-. exists muobj, (with_mu mu' w).
    split; [by apply same_scene_store|done].
  - apply ret_Ok in Hrun1 as [<- <-].
    destruct (has_collider (w_objects w x)).
    { eexists _, w. split; [apply same_scene_refl|done]. }
    destruct (match data (w_objects w x) with
              | Some d => negb (exportable d)
              | None => false
              end).
    { exists muobj, w. split; [apply same_scene_refl|done]. }
    ok_step Hrun. pose proof (rec_scene x path w) as Hs.
    rewrite Hrun0 in Hs. eexists _, w0. split; [done|].
    split; [done|]. by destruct a.
Qed.

Lemma object_children_keep_collider w0 path post : ∀ muobj w m w',
  same_scene w0 w →
  Forall (λ x, collider_child special (w_objects w0 x) = false) post →
  object_children rec special path post muobj w = Ok m w' →
  collider m = collider muobj.
Proof.
  induction post as [|x post IH]; intros muobj w m w' Hs Hpost Hrun.
  - by apply ret_Ok in Hrun as [<- _].
  - apply Forall_cons in Hpost as [Hx Hpost].
    apply object_children_cons_Ok in Hrun as (m1 & w1 & Hs1 & Hrun & Hcol).
    rewrite (static_eq_collider_child special _ _ (proj2 Hs x)), Hx in Hcol.
    rewrite <- Hcol. eapply IH; [|done|done]. by eapply same_scene_trans.
Qed.

Lemma object_children_last_collider w0 path pre c post : ∀ muobj w m w',
  same_scene w0 w →
  collider_child special (w_objects w0 c) = true →
  Forall (λ x, collider_child special (w_objects w0 x) = false) post →
  object_children rec special path (pre ++ c :: post) muobj w = Ok m w' →
  ∃ b, static_eq (w_objects w0 c) b ∧ collider m = Some (make_collider b).
Proof.
  induction pre as [|x pre IH]; intros muobj w m w' Hs Hc Hpost Hrun.
  - cbn [app] in Hrun.
    apply object_children_cons_Ok in Hrun as (m1 & w1 & Hs1 & Hrun & Hcol).
    rewrite (static_eq_collider_child special _ _ (proj2 Hs c)), Hc in Hcol.
    exists (w_objects w c). split; [apply Hs|].
    rewrite <- Hcol. eapply object_children_keep_collider; [|done|done].
    by eapply same_scene_trans.
  - rewrite <- app_comm_cons in Hrun.
    apply object_children_cons_Ok in Hrun as (m1 & w1 & Hs1 & Hrun & _).
    eapply IH; [|done|done|done]. by eapply same_scene_trans.
Qed.

End LastCollider.

(** Claim C10.  Of the collider children of one parent that no special
    handler claims, the last one in the order of the children gives the
    node its collider: whatever collider children come before it, the
    finished node holds the collider made of the last, and that one
    only. *)
Theorem last_collider_child_wins fuel special obj path w node w' pre c post :
  claiming special →
  make_obj fuel special obj path w = Ok (Some node) w' →
  children (w_objects w obj) = pre ++ c :: post →
  collider_child special (w_objects w c) = true →
  Forall (λ x, collider_child special (w_objects w x) = false) post →
  ∃ b, static_eq (w_objects w c) b ∧ collider node = Some (make_collider b).
Proof.
  intros Hclaim Hrun Hkids Hc Hpost. destruct fuel as [|fuel]; [done|].
  rewrite make_obj_S in Hrun.
  apply make_obj_body_Ok in Hrun as (kept & w1 & Hempty & Hrest).
  apply make_empty_Ok in Hempty as (_ & _ & Ho1 & Hg1 & _).
  destruct kept as [m1|]; [|by destruct Hrest].
  destruct Hrest as (m2 & w2 & m3 & Hrole & Hloop & [= ->]).
  rewrite Hkids in Hloop.
  eapply object_children_last_collider in Hloop; try done.
  - intros o p. apply make_obj_same_scene.
  - eapply same_scene_trans; [by apply same_scene_store|].
    pose proof (make_role_same_scene (make_obj fuel special) fuel
                  (w_objects w obj) (node_path path (w_objects w obj)) m1
                  (λ o p, make_obj_same_scene fuel special o p) w1) as Hk.
    by rewrite Hrole in Hk.
Qed.

End ColliderClaims.

(** ** Group instances: the location of a group root *)

Section GroupClaims.
Context `{Collaborators}.

Lemma set_location_back (b : BObject) d :
  set_location (location b) (set_location d b) = b.
Proof. by destruct b. Qed.

Section CopiedVectors.
Hypothesis copies : live_vectors = false.
Variable rec : nat -> string -> M (option MuObject).
Variable special : gmap string Handler.
Variable fuel : nat.
Hypothesis rec_restores : ∀ o p w r w',
  rec o p w = Ok r w' → ∀ i, w_objects w' i = w_objects w i.

Lemma group_children_restores group path os : ∀ muobj w m w',
  group_children rec fuel group path os muobj w = Ok m w' →
  ∀ i, w_objects w' i = w_objects w i.
Proof.
  induction os as [|o os IH]; intros muobj w m w' Hrun i.
  - by apply ret_Ok in Hrun as [_ <-].
  - cbn [group_children] in Hrun. ok_step Hrun.
    unfold group_root in Hrun0.
    destruct (is_group_root _ _ _ _); [|done]. injection Hrun0 as <- <-.
    destruct b; cbn [negb] in Hrun; [|by eapply IH].
    do 4 ok_step Hrun.
    unfold read_location in Hrun0. rewrite copies in Hrun0.
    injection Hrun0 as <- <-. injection Hrun1 as <- <-.
    injection Hrun3 as <- <-.
    rewrite (IH _ _ _ _ Hrun i). cbn. unfold update.
    pose proof (rec_restores _ _ _ _ _ Hrun2) as Hrec.
    destruct (Nat.eqb_spec i o) as [->|Hne].
    + rewrite Hrec. cbn. unfold update. rewrite Nat.eqb_refl.
      apply set_location_back.
    + rewrite Hrec. cbn. unfold update.
      by destruct (Nat.eqb_spec i o).
Qed.

Lemma object_children_restores path os : ∀ muobj w m w',
  object_children rec special path os muobj w = Ok m w' →
  ∀ i, w_objects w' i = w_objects w i.
Proof.
  induction os as [|o os IH]; intros muobj w m w' Hrun i.
  - by apply ret_Ok in Hrun as [_ <-].
  - rewrite object_children_cons in Hrun. lazy zeta in Hrun.
    assert (∀ w1 : World, w_objects w1 = w_objects w →
      (if has_collider (w_objects w o)
       then object_children rec special path os
              (set_collider (make_collider (w_objects w o)) muobj) w1
       else if match data (w_objects w o) with
               | Some d => negb (exportable d)
               | None => false
               end
       then object_children rec special path os muobj w1
       else match rec o path w1 with
            | Ok child w2 =>
                object_children rec special path os
                  (match child with
                   | Some n => append_child n muobj
                   | None => muobj
                   end) w2
            | Raise e w2 => Raise e w2
            | OutOfFuel => OutOfFuel
            end) = Ok m w' →
      w_objects w' i = w_objects w i) as Hpass.
    { intros w1 Hw1 Hpass.
      destruct (has_collider _); [rewrite <- Hw1; by eapply IH|].
      destruct (match data _ with Some _ => _ | None => _ end);
        [rewrite <- Hw1; by eapply IH|].
      destruct (rec o path w1) as [child w2| |] eqn:Erec; [|done|done].
      rewrite (IH _ _ _ _ Hpass i), <- Hw1. by eapply rec_restores. }
    destruct (special !! _) as [h|]; [|by apply (Hpass w)].
    destruct (h (w_mu w) o).2;
      [|by apply (Hpass (with_mu (h (w_mu w) o).1 w))].
    by rewrite (IH _ _ _ _ Hrun i).
Qed.

Lemma make_obj_body_restores obj path w r w' :
  make_obj_body rec special fuel obj path w = Ok r w' →
  ∀ i, w_objects w' i = w_objects w i.
Proof.
  intros Hrun i.
  apply make_obj_body_Ok in Hrun as (kept & w1 & Hempty & Hrest).
  apply make_empty_Ok in Hempty as (_ & _ & Ho1 & _).
  cbn in Ho1. destruct kept as [m1|]; [|destruct Hrest as [_ ->]; by rewrite Ho1].
  destruct Hrest as (m2 & w2 & m3 & Hrole & Hloop & _).
  rewrite (object_children_restores _ _ _ _ _ _ Hloop i), <- Ho1.
  unfold make_role in Hrole.
  assert ((if has_collider (w_objects w obj) then ret m1
           else match data (w_objects w obj) with
                | Some d => make_data d (w_objects w obj) m1
                | None => ret m1
                end) w1 = Ok m2 w2 → w_objects w2 i = w_objects w1 i) as Hplain.
  { destruct (has_collider _); [by intros [_ <-]%ret_Ok|].
    destruct (data _) as [d|]; [|by intros [_ <-]%ret_Ok].
    intros (_&_&_&_&_&_&_&->&_)%make_data_Ok. done. }
  destruct (data (w_objects w obj)) as [d|] eqn:Ed; [by apply Hplain|].
  destruct (dupli_group (w_objects w obj)) as [g|]; [|by apply Hplain].
  ok_step Hrole. injection Hrun as <- <-.
  by eapply group_children_restores.
Qed.

End CopiedVectors.

Lemma make_obj_restores fuel special :
  live_vectors = false →
  ∀ obj path w r w',
    make_obj fuel special obj path w = Ok r w' →
    ∀ i, w_objects w' i = w_objects w i.
Proof.
  intros Hcopy. induction fuel as [|fuel IH]; intros obj path w r w' Hrun;
    [done|].
  rewrite make_obj_S in Hrun. by eapply make_obj_body_restores.
Qed.

(** The nested build of a group root runs in the state with the root
    moved; when it raises, the loop raises with it, in the state the
    nested build left. *)
Lemma group_children_raises rec fuel group path o rest muobj w e w1 :
  is_group_root fuel (w_objects w) o group = Some true →
  rec o path (shifted o group w) = Raise e w1 →
  group_children rec fuel group path (o :: rest) muobj w = Raise e w1.
Proof.
  intros Hroot Hrec. cbn [group_children].
  unfold bind at 1, group_root. rewrite Hroot. cbn [negb].
  unfold bind at 1, read_location at 1.
  unfold bind at 1, isub_location at 1.
  unfold bind at 1. unfold shifted in Hrec. by rewrite Hrec.
Qed.

(** Claim C1, as amended.  When the host hands out locations as values
    of their own, every call of the builder that returns leaves every
    object of the scene as it found it: each group root is back at the
    location it had before the traversal.  When the nested build of a
    group root raises, the exception leaves the loop at once, in the
    state the nested build left: nothing restores the location. *)
Theorem group_root_location_restored_on_return :
  (live_vectors = false →
   ∀ fuel special obj path w r w',
     make_obj fuel special obj path w = Ok r w' →
     ∀ i, w_objects w' i = w_objects w i)
  ∧ (∀ rec fuel group path o rest muobj w e w1,
       is_group_root fuel (w_objects w) o group = Some true →
       rec o path (shifted o group w) = Raise e w1 →
       group_children rec fuel group path (o :: rest) muobj w = Raise e w1).
Proof.
  split.
  - intros Hcopy fuel special. by apply make_obj_restores.
  - intros. by apply group_children_raises.
Qed.

Lemma declined_marker_registered fuel special obj path w :
  declines (w_objects w obj) (inverse (w_mu w)) = true →
  ∃ w', make_obj (S fuel) special obj path w = Ok None w'
        ∧ object_paths (w_mu w') !! node_path path (w_objects w obj)
          = Some (w_next w)
        ∧ w_next w' = S (w_next w)
        ∧ nodes (w_mu w') =
          nodes (w_mu w) ++ [new_AttachNode (w_objects w obj) (inverse (w_mu w))].
Proof.
  intros Hd. eexists. split; [by apply declining_marker_returns_None|].
  cbn. by rewrite lookup_insert_eq.
Qed.

End GroupClaims.

(** ** Paths and the path index *)

Section PathClaims.
Context `{Collaborators}.

Lemma append_assoc (a b c : string) : (a +:+ b) +:+ c = a +:+ (b +:+ c).
Proof.
  induction a as [|x a IH]; [done|].
  change (String x ((a +:+ b) +:+ c) = String x (a +:+ (b +:+ c))).
  by rewrite IH.
Qed.

Lemma append_inv_head (s a b : string) : s +:+ a = s +:+ b → a = b.
Proof.
  induction s as [|x s IH]; [done|].
  change (String x (s +:+ a) = String x (s +:+ b) → a = b).
  intros [= Heq]. by apply IH.
Qed.

Lemma append_empty (s a : string) : s +:+ a = "" → a = "".
Proof. by destruct s. Qed.

(** With a parent path, the path of a node is the parent's path, a
    slash and the name of the node. *)
Lemma extend_path_join path name :
  path ≠ "" → extend_path path name = path +:+ "/" +:+ name.
Proof.
  intros Hne. unfold extend_path, truthy.
  destruct (String.eqb_spec path ""); [done|]. apply append_assoc.
Qed.

Lemma in_step_refl w : in_step w w.
Proof.
  split; [done|]. split; [lia|done].
Qed.

Lemma in_step_trans a b c : in_step a b → in_step b c → in_step a c.
Proof.
  unfold in_step, collision_free.
  intros (Hn1 & Hs1 & Hi1) (Hn2 & Hs2 & Hi2).
  split; [lia|]. split; [lia|]. intros Ht.
  etrans; [apply Hi1|apply Hi2]; lia.
Qed.

(** A run in step that is free of collisions as a whole is free of
    collisions in each of its parts. *)
Lemma collision_free_split a b c :
  in_step a b → in_step b c → collision_free a c →
  collision_free a b ∧ collision_free b c.
Proof.
  unfold in_step, collision_free.
  intros (Hn1 & Hs1 & _) (Hn2 & Hs2 & _) Ht. lia.
Qed.

Lemma in_step_same w w' :
  w_next w' = w_next w → object_paths (w_mu w') = object_paths (w_mu w) →
  in_step w w'.
Proof.
  intros Hn Hp. unfold in_step, collision_free. rewrite Hn, Hp.
  split; [done|]. split; [lia|done].
Qed.

Lemma in_step_head w path obj : in_step w (registered path obj w).
Proof.
  unfold in_step, collision_free, registered. cbn.
  split; [lia|].
  destruct (object_paths (w_mu w) !! node_path path (w_objects w obj))
    as [i|] eqn:E.
  - rewrite map_size_insert_Some by done. split; lia.
  - rewrite map_size_insert_None by done. split; [lia|]. intros _.
    by apply insert_subseteq.
Qed.

Lemma make_obj_in_step fuel special obj path :
  handlers_keep_paths special →
  keeps in_step (make_obj fuel special obj path).
Proof.
  intros Hh. apply keeps_make_obj; auto using in_step_refl, in_step_head.
  - apply in_step_trans.
  - intros. by apply in_step_same.
  - intros. by apply in_step_same.
  - intros. by apply in_step_same.
  - apply renderer_step. intros w mu (_ & Hp & _). by apply in_step_same.
  - intros w k h o Hk. apply in_step_same; [done|]. cbn. by eapply Hh.
Qed.

Section InStepLoops.
Variable rec : nat -> string -> M (option MuObject).
Variable special : gmap string Handler.
Variable fuel : nat.
Hypothesis special_keeps : handlers_keep_paths special.
Hypothesis rec_in_step : ∀ o p, keeps in_step (rec o p).

Lemma in_step_handler w k h o :
  special !! k = Some h → in_step w (with_mu (h (w_mu w) o).1 w).
Proof. intros Hk. apply in_step_same; [done|]. cbn. by eapply special_keeps. Qed.

Lemma in_step_resources w mesh :
  in_step w (with_mu (make_renderer (w_mu w) mesh).1 w).
Proof.
  apply renderer_step. clear w. intros w mu (_ & Hp & _). by apply in_step_same.
Qed.

Lemma object_children_in_step path os muobj :
  keeps in_step (object_children rec special path os muobj).
Proof.
  apply keeps_object_children;
    eauto using in_step_refl, in_step_trans, in_step_handler.
Qed.

Lemma group_children_in_step group path os muobj :
  keeps in_step (group_children rec fuel group path os muobj).
Proof.
  apply keeps_group_children; eauto using in_step_refl, in_step_trans.
  intros. by apply in_step_same.
Qed.

Lemma make_role_in_step o path muobj :
  keeps in_step (make_role rec fuel o path muobj).
Proof.
  apply keeps_make_role;
    eauto using in_step_refl, in_step_trans, in_step_resources.
  intros. by apply in_step_same.
Qed.

End InStepLoops.

End PathClaims.
(** ** Every node of the tree is in the path index *)

Section TreeClaims.
Context `{Collaborators}.

Lemma trees_inv_nil p w w' : trees_inv p w [] w'.
Proof.
  split; [by constructor|]. split; [by constructor|]. by constructor.
Qed.

(** The invariant looks at the counter and the index of the two states
    only. *)
Lemma trees_inv_proper p a a' b b' ts :
  w_next a' = w_next a → object_paths (w_mu a') = object_paths (w_mu a) →
  w_next b' = w_next b → object_paths (w_mu b') = object_paths (w_mu b) →
  trees_inv p a ts b → trees_inv p a' ts b'.
Proof.
  unfold trees_inv, made_between, all_indexed, collision_free.
  by intros -> -> -> ->.
Qed.

Lemma made_between_weaken a b a' b' l :
  w_next a' ≤ w_next a → w_next b ≤ w_next b' →
  made_between a b l → made_between a' b' l.
Proof.
  intros Ha Hb Hl. unfold made_between.
  eapply Forall_impl; [exact Hl|]. intros e; simpl; lia.
Qed.

Lemma all_indexed_weaken w w' l :
  object_paths (w_mu w) ⊆ object_paths (w_mu w') →
  all_indexed w l → all_indexed w' l.
Proof.
  intros Hsub Hl. unfold all_indexed.
  eapply Forall_impl; [exact Hl|]. intros e He; simpl in *.
  by eapply lookup_weaken.
Qed.

Lemma trees_inv_app p a b c ts1 ts2 :
  in_step a b → in_step b c →
  trees_inv p a ts1 b → trees_inv p b ts2 c →
  trees_inv p a (ts1 ++ ts2) c.
Proof.
  intros Hab Hbc (Hm1 & Hn1 & Hi1) (Hm2 & Hn2 & Hi2).
  pose proof Hab as (Hab1 & _). pose proof Hbc as (Hbc1 & _ & Hbc3).
  unfold trees_inv. rewrite flat_map_app, fmap_app.
  split; [|split].
  - apply Forall_app. split.
    + eapply made_between_weaken; [| |exact Hm1]; lia.
    + eapply made_between_weaken; [| |exact Hm2]; lia.
  - apply NoDup_app. split; [done|]. split; [|done].
    intros i [e1 [-> He1]]%list_elem_of_fmap [e2 [Heq He2]]%list_elem_of_fmap.
    unfold made_between in Hm1, Hm2. rewrite Forall_forall in Hm1, Hm2.
    specialize (Hm1 e1 He1). specialize (Hm2 e2 He2). lia.
  - intros Ht. destruct (collision_free_split a b c Hab Hbc Ht) as [Ht1 Ht2].
    apply Forall_app. split; [|by apply Hi2].
    eapply all_indexed_weaken; [by apply Hbc3|by apply Hi1].
Qed.

Section TreeLoops.
Variable rec : nat -> string -> M (option MuObject).
Variable special : gmap string Handler.
Variable fuel : nat.
Hypothesis special_keeps : handlers_keep_paths special.
Hypothesis rec_in_step : ∀ o p, keeps in_step (rec o p).
Hypothesis rec_trees : ∀ o p w r w',
  rec o p w = Ok r w' → trees_inv p w (option_list r) w'.

Lemma rec_Ok_in_step o p w r w' : rec o p w = Ok r w' → in_step w w'.
Proof. intros Hrun. pose proof (rec_in_step o p w) as Hk. by rewrite Hrun in Hk. Qed.

Lemma object_children_trees path os : ∀ muobj w m w',
  object_children rec special path os muobj w = Ok m w' →
  ∃ added, mu_children m = mu_children muobj ++ added
           ∧ trees_inv path w added w'.
Proof.
  induction os as [|o os IH]; intros muobj w m w' Hrun.
  { apply ret_Ok in Hrun as [<- <-]. exists []. rewrite app_nil_r.
    split; [done|apply trees_inv_nil]. }
  rewrite object_children_cons in Hrun. lazy zeta in Hrun.
  assert (∀ w1 : World,
    w_next w1 = w_next w → object_paths (w_mu w1) = object_paths (w_mu w) →
    (if has_collider (w_objects w o)
     then object_children rec special path os
            (set_collider (make_collider (w_objects w o)) muobj) w1
     else if match data (w_objects w o) with
             | Some d => negb (exportable d)
             | None => false
             end
     then object_children rec special path os muobj w1
     else match rec o path w1 with
          | Ok child w2 =>
              object_children rec special path os
                (match child with
                 | Some n => append_child n muobj
                 | None => muobj
                 end) w2
          | Raise e w2 => Raise e w2
          | OutOfFuel => OutOfFuel
          end) = Ok m w' →
    ∃ added, mu_children m = mu_children muobj ++ added
             ∧ trees_inv path w added w') as Hpass.
  { intros w1 Hn1 Hp1 Hpass.
    destruct (has_collider _).
    { apply IH in Hpass as (added & Hkids & Hinv). exists added.
      split; [done|]. by eapply trees_inv_proper. }
    destruct (match data _ with Some _ => _ | None => _ end).
    { apply IH in Hpass as (added & Hkids & Hinv). exists added.
      split; [done|]. by eapply trees_inv_proper. }
    destruct (rec o path w1) as [child w2| |] eqn:Erec; [|done|done].
    pose proof (rec_Ok_in_step _ _ _ _ _ Erec) as Hstep.
    pose proof (rec_trees _ _ _ _ _ Erec) as Hchild.
    pose proof (object_children_in_step rec special special_keeps
                  rec_in_step path os
                  (match child with
                   | Some n => append_child n muobj
                   | None => muobj
                   end) w2) as Hloop.
    rewrite Hpass in Hloop.
    apply IH in Hpass as (added & Hkids & Hinv).
    exists (option_list child ++ added). split.
    - rewrite Hkids. destruct child; cbn; [by rewrite <- app_assoc|done].
    - eapply (trees_inv_proper path w1 w w' w'); try done.
      by eapply trees_inv_app. }
  destruct (special !! _) as [h|] eqn:Eh; [|by apply (Hpass w)].
  destruct (h (w_mu w) o).2.
  - apply IH in Hrun as (added & Hkids & Hinv). exists added.
    split; [done|]. eapply trees_inv_proper; [| | | |exact Hinv]; try done.
    cbn. symmetry. by eapply special_keeps.
  - apply (Hpass (with_mu (h (w_mu w) o).1 w)); [done| |done].
    cbn. by eapply special_keeps.
Qed.

Lemma group_children_trees group path os : ∀ muobj w m w',
  group_children rec fuel group path os muobj w = Ok m w' →
  ∃ added, mu_children m = mu_children muobj ++ added
           ∧ trees_inv path w added w'.
Proof.
  induction os as [|o os IH]; intros muobj w m w' Hrun.
  { apply ret_Ok in Hrun as [<- <-]. exists []. rewrite app_nil_r.
    split; [done|apply trees_inv_nil]. }
  rewrite group_children_cons in Hrun.
  destruct (is_group_root _ _ _ _) as [[]|]; [|by apply IH|done].
  destruct (rec o path _) as [child w1| |] eqn:Erec; [|done|done].
  pose proof (rec_Ok_in_step _ _ _ _ _ Erec) as Hstep.
  pose proof (rec_trees _ _ _ _ _ Erec) as Hchild.
  match type of Hrun with
  | group_children _ _ _ _ _ ?mo ?wa = _ =>
      pose proof (group_children_in_step rec fuel rec_in_step
                    group path os mo wa) as Hloop
  end.
  rewrite Hrun in Hloop.
  apply IH in Hrun as (added & Hkids & Hinv).
  exists (option_list child ++ added). split.
  - rewrite Hkids. destruct child; cbn; [by rewrite <- app_assoc|done].
  - eapply (trees_inv_app path w w1 w').
    + by eapply in_step_trans; [apply in_step_same|exact Hstep].
    + eapply in_step_trans; [|exact Hloop]. by apply in_step_same.
    + eapply trees_inv_proper; [| | | |exact Hchild]; done.
    + eapply trees_inv_proper; [| | | |exact Hinv]; done.
Qed.

Lemma make_role_trees o p m1 w1 m2 w2 :
  make_role rec fuel o p m1 w1 = Ok m2 w2 →
  ∃ added, mu_children m2 = mu_children m1 ++ added
           ∧ trees_inv p w1 added w2.
Proof.
  unfold make_role. intros Hrun.
  assert ((if has_collider o then ret m1
           else match data o with
                | Some d => make_data d o m1
                | None => ret m1
                end) w1 = Ok m2 w2 →
          ∃ added, mu_children m2 = mu_children m1 ++ added
                   ∧ trees_inv p w1 added w2) as Hplain.
  { intros Hp. exists []. rewrite app_nil_r. split; [|apply trees_inv_nil].
    destruct (has_collider o); [by apply ret_Ok in Hp as [<- _]|].
    destruct (data o) as [d|]; [|by apply ret_Ok in Hp as [<- _]].
    by apply make_data_Ok in Hp as (_ & -> & _). }
  destruct (data o) as [d|]; [by apply Hplain|].
  destruct (dupli_group o) as [g|]; [|by apply Hplain].
  ok_step Hrun. injection Hrun0 as <- <-.
  by eapply group_children_trees.
Qed.

Lemma tree_paths_unfold prefix t :
  tree_paths prefix t =
  (extend_path prefix (tr_name (transform t)), oid t)
    :: flat_map (tree_paths (extend_path prefix (tr_name (transform t))))
                (mu_children t).
Proof. by destruct t. Qed.

Lemma make_obj_body_trees obj path w r w' :
  make_obj_body rec special fuel obj path w = Ok r w' →
  trees_inv path w (option_list r) w'.
Proof.
  intros Hrun.
  apply make_obj_body_Ok in Hrun as (kept & w1 & Hempty & Hrest).
  apply make_empty_Ok in Hempty
    as (_ & Hsome & _ & _ & Hn1 & Hp1 & _).
  destruct kept as [m1|]; [|destruct Hrest as [-> _]; apply trees_inv_nil].
  destruct Hrest as (m2 & w2 & m3 & Hrole & Hloop & ->).
  pose proof (make_role_in_step rec fuel rec_in_step
                (w_objects w obj) (node_path path (w_objects w obj)) m1 w1)
    as Hstep1.
  rewrite Hrole in Hstep1.
  pose proof (object_children_in_step rec special special_keeps rec_in_step
                (node_path path (w_objects w obj))
                (children (w_objects w obj)) m2 w2) as Hstep2.
  rewrite Hloop in Hstep2.
  pose proof Hrole as (Hoid & _ & _ & Hname & _)%make_role_Ok.
  pose proof Hloop as (Hoid' & Htr' & _)%object_children_head.
  apply make_role_trees in Hrole as (added1 & Hkids1 & Hinv1).
  apply object_children_trees in Hloop as (added2 & Hkids2 & Hinv2).
  assert (mu_children m1 = [] ∧ oid m1 = w_next w
          ∧ tr_name (transform m1) = strip_nnn (obj_name (w_objects w obj)))
    as (Hk0 & Hi0 & Ht0).
  { rewrite (Hsome m1 eq_refl). by destruct (is_attach_marker _). }
  pose proof (trees_inv_app _ _ _ _ _ _ Hstep1 Hstep2 Hinv1 Hinv2) as Hkids.
  assert (in_step (registered path obj w) w') as Hstep.
  { eapply in_step_trans; [by apply in_step_same|].
    by eapply in_step_trans. }
  eapply (trees_inv_proper _ w1 (registered path obj w) w' w') in Hkids;
    try done.
  destruct Hkids as (Hmade & Hnodup & Hidx).
  unfold trees_inv.
  change (option_list (Some m3)) with [m3]. cbn [flat_map]. rewrite app_nil_r.
  rewrite tree_paths_unfold, <- Htr', <- Hoid', Hname, Hoid, Ht0, Hi0.
  rewrite Hkids2, Hkids1, Hk0. cbn [app].
  fold (node_path path (w_objects w obj)).
  pose proof Hstep as (Hnext & _ & Hsub). cbn in Hnext.
  split; [|split].
  - constructor; [cbn; lia|].
    eapply Forall_impl; [exact Hmade|]. intros e; cbn; lia.
  - rewrite fmap_cons. constructor; [|done]. cbn [snd].
    intros [e [Heq He]]%list_elem_of_fmap.
    unfold made_between in Hmade. rewrite Forall_forall in Hmade.
    specialize (Hmade e He). cbn in Hmade. lia.
  - intros Ht.
    destruct (collision_free_split w (registered path obj w) w')
      as [_ Ht2]; [apply in_step_head|done|done|].
    constructor; [|by apply Hidx].
    cbn [fst snd]. eapply lookup_weaken; [|by apply Hsub].
    cbn. by rewrite lookup_insert_eq.
Qed.

End TreeLoops.

Lemma make_obj_trees fuel special :
  handlers_keep_paths special →
  ∀ obj path w r w',
    make_obj fuel special obj path w = Ok r w' →
    trees_inv path w (option_list r) w'.
Proof.
  intros Hh. induction fuel as [|fuel IH]; intros obj path w r w' Hrun;
    [done|].
  rewrite make_obj_S in Hrun.
  eapply make_obj_body_trees; [done| |done|done].
  intros o p. by apply make_obj_in_step.
Qed.

End TreeClaims.
(** ** The paths of a scene without name collisions *)

Section Regions.
Context `{Collaborators}.

Lemma append_length (a b : string) :
  String.length (a +:+ b) = String.length a + String.length b.
Proof.
  induction a as [|x a IH]; [done|].
  change (S (String.length (a +:+ b)) = S (String.length a + String.length b)).
  by rewrite IH.
Qed.

Lemma append_nil_r (a : string) : a +:+ "" = a.
Proof.
  induction a as [|x a IH]; [done|].
  change (String x (a +:+ "") = String x a). by rewrite IH.
Qed.

Lemma plain_name_spec n :
  plain_name n = true →
  n ≠ ""
  ∧ forallb (λ c, negb (Ascii.eqb c "/")) (list_ascii_of_string n) = true.
Proof.
  unfold plain_name. intros [Hne Hs]%andb_true_iff. split; [|done].
  by intros ->.
Qed.

Lemma distinct_cons x l : distinct (x :: l) = true → (x ∉ l) ∧ distinct l = true.
Proof.
  cbn [distinct]. intros [Hx Hl]%andb_true_iff. split; [|done].
  intros Hin. apply negb_true_iff in Hx.
  assert (existsb (String.eqb x) l = true) as Hex; [|congruence].
  apply existsb_exists. exists x.
  split; [by apply list_elem_of_In|apply String.eqb_refl].
Qed.

Lemma distinct_app a b :
  distinct (a ++ b) = true →
  distinct a = true ∧ distinct b = true ∧ ∀ x, x ∈ a → x ∉ b.
Proof.
  induction a as [|y a IH]; cbn [app].
  { intros Hb. split; [done|]. split; [done|]. by intros x Hx%elem_of_nil. }
  intros [Hy Hl]%distinct_cons. destruct (IH Hl) as (Ha & Hb & Hd).
  split; [|split; [done|]].
  - cbn [distinct]. rewrite Ha, andb_true_r. apply negb_true_iff.
    destruct (existsb (String.eqb y) a) eqn:E; [|done].
    apply existsb_exists in E as (z & Hz & ->%String.eqb_eq).
    exfalso. apply Hy, elem_of_app. left. by apply list_elem_of_In.
  - intros x [->|Hin]%elem_of_cons; [|by apply Hd].
    intros Hb'. apply Hy, elem_of_app. by right.
Qed.

(** Two names without a slash, each followed by nothing or by a slash
    and more, that read the same are the same name. *)
Lemma plain_prefix_inj n1 : ∀ n2 r1 r2,
  forallb (λ c, negb (Ascii.eqb c "/")) (list_ascii_of_string n1) = true →
  forallb (λ c, negb (Ascii.eqb c "/")) (list_ascii_of_string n2) = true →
  (r1 = "" ∨ ∃ x, r1 = String "/" x) → (r2 = "" ∨ ∃ x, r2 = String "/" x) →
  n1 +:+ r1 = n2 +:+ r2 → n1 = n2.
Proof.
  induction n1 as [|c n1 IH]; intros [|d n2] r1 r2 H1 H2 Hr1 Hr2 Heq.
  - done.
  - change (r1 = String d (n2 +:+ r2)) in Heq. cbn in H2.
    destruct Hr1 as [->|[x ->]]; [done|]. injection Heq as <- _. done.
  - change (String c (n1 +:+ r1) = r2) in Heq. cbn in H1.
    destruct Hr2 as [->|[x ->]]; [done|]. injection Heq as -> _. done.
  - change (String c (n1 +:+ r1) = String d (n2 +:+ r2)) in Heq.
    injection Heq as -> Heq. cbn in H1, H2.
    apply andb_true_iff in H1 as [_ H1]. apply andb_true_iff in H2 as [_ H2].
    f_equal. exact (IH n2 r1 r2 H1 H2 Hr1 Hr2 Heq).
Qed.

Lemma under_tail p q :
  under p q ↔ ∃ r, (r = "" ∨ ∃ x, r = String "/" x) ∧ q = p +:+ r.
Proof.
  split.
  - intros [->|[rest ->]].
    + exists "". split; [by left|by rewrite append_nil_r].
    + exists (String "/" rest). split; [right; by eexists|done].
  - intros (r & [->|[x ->]] & ->).
    + left. by rewrite append_nil_r.
    + right. by exists x.
Qed.

Lemma under_refl p : under p p.
Proof. by left. Qed.

Lemma under_length p q : under p q → String.length p ≤ String.length q.
Proof.
  intros (r & _ & ->)%under_tail. rewrite append_length. lia.
Qed.

Lemma extend_path_length p n :
  p ≠ "" → String.length p < String.length (extend_path p n).
Proof.
  intros Hp. rewrite extend_path_join by done. rewrite !append_length.
  cbn. lia.
Qed.

Lemma extend_path_nonempty p n : n ≠ "" → extend_path p n ≠ "".
Proof. unfold extend_path. intros Hn Heq. by apply append_empty in Heq. Qed.

Lemma under_extend p n q : p ≠ "" → under (extend_path p n) q → under p q.
Proof.
  intros Hp (r & _ & ->)%under_tail. rewrite extend_path_join by done.
  right. exists (n +:+ r). by rewrite !append_assoc.
Qed.

Lemma not_under_extend p n : p ≠ "" → ¬ under (extend_path p n) p.
Proof.
  intros Hp Hu%under_length. pose proof (extend_path_length p n Hp). lia.
Qed.

Lemma regions_disjoint p n1 n2 q :
  p ≠ "" → plain_name n1 = true → plain_name n2 = true →
  under (extend_path p n1) q → under (extend_path p n2) q → n1 = n2.
Proof.
  intros Hp [_ H1]%plain_name_spec [_ H2]%plain_name_spec
         (r1 & Hr1 & ->)%under_tail (r2 & Hr2 & Heq)%under_tail.
  rewrite !extend_path_join in Heq by done.
  rewrite !append_assoc in Heq.
  apply append_inv_head in Heq. apply append_inv_head in Heq.
  exact (plain_prefix_inj n1 n2 r1 r2 H1 H2 Hr1 Hr2 Heq).
Qed.

Lemma collision_free_same a a' b b' :
  w_next a' = w_next a → object_paths (w_mu a') = object_paths (w_mu a) →
  w_next b' = w_next b → object_paths (w_mu b') = object_paths (w_mu b) →
  collision_free a b → collision_free a' b'.
Proof. unfold collision_free. by intros -> -> -> ->. Qed.

Lemma collision_free_trans a b c :
  in_step a b → in_step b c →
  collision_free a b → collision_free b c → collision_free a c.
Proof.
  unfold collision_free. intros (Hn1 & _) (Hn2 & _) H1 H2. lia.
Qed.

Lemma object_names_in w o os :
  o ∈ os → strip_nnn (obj_name (w_objects w o)) ∈ object_names w os.
Proof.
  intros Ho. unfold object_names. apply list_elem_of_fmap. by exists o.
Qed.

Lemma forallb_elem {A} (f : A -> bool) l x :
  forallb f l = true → x ∈ l → f x = true.
Proof.
  intros Hall Hx. rewrite forallb_forall in Hall.
  by apply Hall, list_elem_of_In.
Qed.

Section RegionLoops.
Variable rec : nat -> string -> M (option MuObject).
Variable special : gmap string Handler.
Variable fuel : nat.
Variable w0 : World.
Variable p : string.
Hypothesis p_nonempty : p ≠ "".
Hypothesis special_keeps : handlers_keep_paths special.
Hypothesis rec_in_step : ∀ o q, keeps in_step (rec o q).
Hypothesis rec_scene : ∀ o q, keeps same_scene (rec o q).
Hypothesis rec_region : ∀ o w r w',
  same_scene w0 w → well_named fuel w0 o = true →
  fresh_under w (node_path p (w_objects w0 o)) →
  rec o p w = Ok r w' →
  collision_free w w'
  ∧ ∀ q, ¬ under (node_path p (w_objects w0 o)) q →
         object_paths (w_mu w') !! q = object_paths (w_mu w) !! q.

(** The first of the siblings and one of the others have no path in
    common at or below theirs. *)
Lemma sibling_regions o rest o' q :
  forallb plain_name (object_names w0 (o :: rest)) = true →
  distinct (object_names w0 (o :: rest)) = true →
  o' ∈ rest →
  under (node_path p (w_objects w0 o')) q →
  ¬ under (node_path p (w_objects w0 o)) q.
Proof.
  intros Hplain Hdist Ho' Hq' Hq.
  change (object_names w0 (o :: rest))
    with (strip_nnn (obj_name (w_objects w0 o)) :: object_names w0 rest)
    in Hplain, Hdist.
  apply distinct_cons in Hdist as [Hnew _]. apply Hnew.
  cbn [forallb] in Hplain. apply andb_true_iff in Hplain as [Hp0 Hprest].
  rewrite (regions_disjoint p _ _ q p_nonempty Hp0
             (forallb_elem _ _ _ Hprest (object_names_in w0 o' rest Ho'))
             Hq Hq').
  by apply object_names_in.
Qed.

(** What one build among the siblings, followed by the loop over the
    rest, gives. *)
Lemma region_step o rest w1 child w2 w3 w' :
  same_scene w0 w1 →
  forallb plain_name (object_names w0 (o :: rest)) = true →
  distinct (object_names w0 (o :: rest)) = true →
  forallb (well_named fuel w0) (o :: rest) = true →
  (∀ x, x ∈ o :: rest → fresh_under w1 (node_path p (w_objects w0 x))) →
  rec o p w1 = Ok child w2 →
  w_next w3 = w_next w2 → object_paths (w_mu w3) = object_paths (w_mu w2) →
  in_step w3 w' →
  ((∀ x, x ∈ rest → fresh_under w3 (node_path p (w_objects w0 x))) →
   collision_free w3 w'
   ∧ ∀ q, (∀ x, x ∈ rest → ¬ under (node_path p (w_objects w0 x)) q) →
          object_paths (w_mu w') !! q = object_paths (w_mu w3) !! q) →
  collision_free w1 w'
  ∧ ∀ q, (∀ x, x ∈ o :: rest → ¬ under (node_path p (w_objects w0 x)) q) →
         object_paths (w_mu w') !! q = object_paths (w_mu w1) !! q.
Proof.
  intros Hs1 Hplain Hdist Hwell Hfresh Erec Hn3 Hp3 Hstep3 Hrest.
  cbn [forallb] in Hwell. apply andb_true_iff in Hwell as [Hwo _].
  destruct (rec_region o w1 child w2 Hs1 Hwo
              (Hfresh o ltac:(by left)) Erec) as [Hcf1 Hframe1].
  pose proof (rec_in_step o p w1) as Hstep1. rewrite Erec in Hstep1.
  destruct Hrest as [Hcf3 Hframe3].
  { intros x Hx q Hq. rewrite Hp3, Hframe1.
    - apply (Hfresh x); [by right|done].
    - by eapply sibling_regions. }
  split.
  - eapply collision_free_trans; [exact Hstep1| |exact Hcf1|].
    + eapply in_step_trans; [|exact Hstep3]. by apply in_step_same.
    + by eapply (collision_free_same w3 w2 w' w').
  - intros q Hq. rewrite Hframe3, Hp3, Hframe1; [done| |].
    + apply Hq. by left.
    + intros x Hx. apply Hq. by right.
Qed.

Lemma all_but_first {A} (P : A -> Prop) (o : A) rest :
  (∀ x, x ∈ o :: rest → P x) → ∀ x, x ∈ rest → P x.
Proof. intros HP x Hx. apply HP. by right. Qed.

Lemma names_of_rest o rest :
  forallb plain_name (object_names w0 (o :: rest)) = true →
  distinct (object_names w0 (o :: rest)) = true →
  forallb (well_named fuel w0) (o :: rest) = true →
  forallb plain_name (object_names w0 rest) = true
  ∧ distinct (object_names w0 rest) = true
  ∧ forallb (well_named fuel w0) rest = true.
Proof.
  change (object_names w0 (o :: rest))
    with (strip_nnn (obj_name (w_objects w0 o)) :: object_names w0 rest).
  cbn [forallb]. intros [_ ?]%andb_true_iff [_ ?]%distinct_cons
                        [_ ?]%andb_true_iff. done.
Qed.

Lemma object_children_region os : ∀ muobj w m w',
  same_scene w0 w →
  forallb plain_name (object_names w0 os) = true →
  distinct (object_names w0 os) = true →
  forallb (well_named fuel w0) os = true →
  (∀ o, o ∈ os → fresh_under w (node_path p (w_objects w0 o))) →
  object_children rec special p os muobj w = Ok m w' →
  collision_free w w'
  ∧ ∀ q, (∀ o, o ∈ os → ¬ under (node_path p (w_objects w0 o)) q) →
         object_paths (w_mu w') !! q = object_paths (w_mu w) !! q.
Proof.
  induction os as [|o os IH];
    intros muobj w m w' Hs Hplain Hdist Hwell Hfresh Hrun.
  { apply ret_Ok in Hrun as [_ <-]. split; [|done].
    unfold collision_free. lia. }
  destruct (names_of_rest o os Hplain Hdist Hwell) as (Hplain' & Hdist' & Hwell').
  assert (∀ mo w1, same_scene w0 w1 →
            w_next w1 = w_next w →
            object_paths (w_mu w1) = object_paths (w_mu w) →
            object_children rec special p os mo w1 = Ok m w' →
            collision_free w w'
            ∧ ∀ q, (∀ x, x ∈ o :: os →
                         ¬ under (node_path p (w_objects w0 x)) q) →
                   object_paths (w_mu w') !! q = object_paths (w_mu w) !! q)
    as Hskip.
  { intros mo w1 Hs1 Hn1 Hp1 Hr.
    destruct (IH mo w1 m w' Hs1 Hplain' Hdist' Hwell') as [Hcf Hframe];
      [|exact Hr|].
    { intros x Hx q Hq. rewrite Hp1. apply (Hfresh x); [by right|done]. }
    split; [by eapply (collision_free_same w1 w w' w')|].
    intros q Hq. rewrite Hframe, Hp1; [done|].
    by apply (all_but_first _ o). }
  rewrite object_children_cons in Hrun. lazy zeta in Hrun.
  assert (∀ w1 : World, same_scene w0 w1 →
    w_next w1 = w_next w →
    object_paths (w_mu w1) = object_paths (w_mu w) →
    (if has_collider (w_objects w o)
     then object_children rec special p os
            (set_collider (make_collider (w_objects w o)) muobj) w1
     else if match data (w_objects w o) with
             | Some d => negb (exportable d)
             | None => false
             end
     then object_children rec special p os muobj w1
     else match rec o p w1 with
          | Ok child w2 =>
              object_children rec special p os
                (match child with
                 | Some n => append_child n muobj
                 | None => muobj
                 end) w2
          | Raise e w2 => Raise e w2
          | OutOfFuel => OutOfFuel
          end) = Ok m w' →
    collision_free w w'
    ∧ ∀ q, (∀ x, x ∈ o :: os →
                 ¬ under (node_path p (w_objects w0 x)) q) →
           object_paths (w_mu w') !! q = object_paths (w_mu w) !! q)
    as Hpass.
  { intros w1 Hs1 Hn1 Hp1 Hpass.
    destruct (has_collider _);
      [by eapply (Hskip _ w1 Hs1 Hn1 Hp1); exact Hpass|].
    destruct (match data _ with Some _ => _ | None => _ end);
      [by eapply (Hskip _ w1 Hs1 Hn1 Hp1); exact Hpass|].
    destruct (rec o p w1) as [child w2| |] eqn:Erec; [|done|done].
    assert (same_scene w0 w2) as Hs2.
    { pose proof (rec_scene o p w1) as Hk. rewrite Erec in Hk.
      by eapply same_scene_trans. }
    pose proof (object_children_in_step rec special special_keeps
                  rec_in_step p os
                  (match child with
                   | Some n => append_child n muobj
                   | None => muobj
                   end) w2) as Hloop.
    rewrite Hpass in Hloop.
    destruct (region_step o os w1 child w2 w2 w' Hs1 Hplain Hdist Hwell)
      as [Hcf Hframe]; try done.
    { intros x Hx q Hq. rewrite Hp1. by apply (Hfresh x). }
    { intros Hf. by eapply IH. }
    split; [by eapply (collision_free_same w1 w w' w')|].
    intros q Hq. by rewrite Hframe, Hp1. }
  destruct (special !! _) as [h|] eqn:Eh; [|by apply (Hpass w)].
  assert (same_scene w0 (with_mu (h (w_mu w) o).1 w)) as Hs1.
  { eapply same_scene_trans; [exact Hs|]. by apply same_scene_store. }
  assert (object_paths (w_mu (with_mu (h (w_mu w) o).1 w))
          = object_paths (w_mu w)) as Hp1 by (cbn; by eapply special_keeps).
  destruct (h (w_mu w) o).2.
  - by eapply (Hskip _ _ Hs1 eq_refl Hp1); exact Hrun.
  - by eapply (Hpass _ Hs1 eq_refl Hp1).
Qed.

Lemma group_children_region group os : ∀ muobj w m w',
  same_scene w0 w →
  forallb plain_name (object_names w0 os) = true →
  distinct (object_names w0 os) = true →
  forallb (well_named fuel w0) os = true →
  (∀ o, o ∈ os → fresh_under w (node_path p (w_objects w0 o))) →
  group_children rec fuel group p os muobj w = Ok m w' →
  collision_free w w'
  ∧ ∀ q, (∀ o, o ∈ os → ¬ under (node_path p (w_objects w0 o)) q) →
         object_paths (w_mu w') !! q = object_paths (w_mu w) !! q.
Proof.
  induction os as [|o os IH];
    intros muobj w m w' Hs Hplain Hdist Hwell Hfresh Hrun.
  { apply ret_Ok in Hrun as [_ <-]. split; [|done].
    unfold collision_free. lia. }
  destruct (names_of_rest o os Hplain Hdist Hwell) as (Hplain' & Hdist' & Hwell').
  rewrite group_children_cons in Hrun.
  destruct (is_group_root _ _ _ _) as [[]|]; [| |done].
  - assert (same_scene w0 (shifted o group w)) as Hs1.
    { eapply same_scene_trans; [exact Hs|]. apply same_scene_location. }
    destruct (rec o p _) as [child w2| |] eqn:Erec; [|done|done].
    assert (same_scene w0 w2) as Hs2.
    { pose proof (rec_scene o p (shifted o group w)) as Hk.
      rewrite Erec in Hk. by eapply same_scene_trans. }
    match type of Hrun with
    | group_children _ _ _ _ _ ?mo ?w3 = _ =>
        pose proof (group_children_in_step rec fuel rec_in_step
                      group p os mo w3) as Hloop;
        rewrite Hrun in Hloop;
        destruct (region_step o os (shifted o group w) child w2 w3 w'
                    Hs1 Hplain Hdist Hwell) as [Hcf Hframe]; try done
    end.
    { intros Hf. eapply IH; [|done|done|done|exact Hf|exact Hrun].
      eapply same_scene_trans; [exact Hs2|]. apply same_scene_location. }
  - destruct (IH muobj w m w' Hs Hplain' Hdist' Hwell') as [Hcf Hframe];
      [|exact Hrun|].
    { by apply (all_but_first _ o). }
    split; [done|]. intros q Hq. apply Hframe.
    by apply (all_but_first _ o).
Qed.

End RegionLoops.

Lemma node_path_scene w0 w path obj :
  same_scene w0 w →
  node_path path (w_objects w obj) = node_path path (w_objects w0 obj).
Proof.
  intros [_ Ho]. unfold node_path.
  by destruct (static_eq_fields _ _ (Ho obj)) as (-> & _).
Qed.

Lemma make_role_paths rec fuel o pth m1 w1 m2 w2 :
  ¬ (data o = None ∧ is_Some (dupli_group o)) →
  make_role rec fuel o pth m1 w1 = Ok m2 w2 →
  w_next w2 = w_next w1 ∧ object_paths (w_mu w2) = object_paths (w_mu w1).
Proof.
  intros Hno Hrun. unfold make_role in Hrun.
  assert ((if has_collider o then ret m1
           else match data o with
                | Some d => make_data d o m1
                | None => ret m1
                end) w1 = Ok m2 w2 →
          w_next w2 = w_next w1
          ∧ object_paths (w_mu w2) = object_paths (w_mu w1)) as Hplain.
  { intros Hp. destruct (has_collider o); [by apply ret_Ok in Hp as [_ <-]|].
    destruct (data o) as [d|]; [|by apply ret_Ok in Hp as [_ <-]].
    apply make_data_Ok in Hp as (_&_&_&_&_&_&_&_&_&Hn&_&Hpth&_). done. }
  destruct (data o) as [d|]; [by apply Hplain|].
  destruct (dupli_group o) as [g|]; [|by apply Hplain].
  exfalso. apply Hno. by split.
Qed.

Section RegionBody.
Variable rec : nat -> string -> M (option MuObject).
Variable special : gmap string Handler.
Variable fuel : nat.
Variable w0 : World.
Hypothesis special_keeps : handlers_keep_paths special.
Hypothesis rec_in_step : ∀ o q, keeps in_step (rec o q).
Hypothesis rec_scene : ∀ o q, keeps same_scene (rec o q).
Hypothesis rec_region : ∀ p o w r w',
  same_scene w0 w → well_named fuel w0 o = true →
  fresh_under w (node_path p (w_objects w0 o)) →
  rec o p w = Ok r w' →
  collision_free w w'
  ∧ ∀ q, ¬ under (node_path p (w_objects w0 o)) q →
         object_paths (w_mu w') !! q = object_paths (w_mu w) !! q.

Lemma make_obj_body_region obj path w r w' :
  same_scene w0 w → well_named (S fuel) w0 obj = true →
  fresh_under w (node_path path (w_objects w0 obj)) →
  make_obj_body rec special fuel obj path w = Ok r w' →
  collision_free w w'
  ∧ ∀ q, ¬ under (node_path path (w_objects w0 obj)) q →
         object_paths (w_mu w') !! q = object_paths (w_mu w) !! q.
Proof.
  intros Hs Hwell Hfresh Hrun.
  cbn [well_named] in Hwell. lazy zeta in Hwell.
  apply andb_true_iff in Hwell as [Hwell Hsibs].
  apply andb_true_iff in Hwell as [Hwell Hdist].
  apply andb_true_iff in Hwell as [Hown Hplain].
  set (P := node_path path (w_objects w0 obj)) in *.
  assert (P ≠ "") as HP.
  { apply extend_path_nonempty. by apply plain_name_spec in Hown as [? _]. }
  pose proof (node_path_scene w0 w path obj Hs) as HPw. fold P in HPw.
  apply make_obj_body_Ok in Hrun as (kept & w1 & Hempty & Hrest).
  rewrite HPw in Hrest.
  apply make_empty_Ok in Hempty
    as (_ & Hsome & Ho1 & Hg1 & Hn1 & Hp1 & _).
  cbn in Ho1, Hg1, Hn1, Hp1. rewrite HPw in Hp1.
  assert (in_step w w1 ∧ collision_free w w1
          ∧ ∀ q, q ≠ P →
                 object_paths (w_mu w1) !! q = object_paths (w_mu w) !! q)
    as (Hstep1 & Hcf1 & Hframe1).
  { split; [|split].
    - eapply in_step_trans; [apply (in_step_head w path obj)|].
      apply in_step_same; [done|]. cbn. by rewrite HPw.
    - unfold collision_free. rewrite Hn1, Hp1.
      rewrite map_size_insert_None by (apply Hfresh, under_refl). lia.
    - intros q Hq. rewrite Hp1. by rewrite lookup_insert_ne. }
  destruct kept as [m1|]; [|destruct Hrest as [_ ->]].
  2:{ split; [done|]. intros q Hq. apply Hframe1. intros ->.
      apply Hq, under_refl. }
  destruct Hrest as (m2 & w2 & m3 & Hrole & Hkids & _).
  assert (same_scene w0 w1) as Hs1.
  { eapply same_scene_trans; [exact Hs|]. by apply same_scene_store. }
  assert (∀ x q, under (node_path P (w_objects w0 x)) q →
                 object_paths (w_mu w1) !! q = None) as Hfresh1.
  { intros x q Hq. rewrite Hframe1.
    - apply Hfresh. by eapply under_extend.
    - intros ->. by eapply not_under_extend. }
  destruct (static_eq_fields _ _ (proj2 Hs obj))
    as (_ & Hd & _ & Hch & Hdg & _).
  unfold sibling_objects in Hplain, Hdist, Hsibs.
  unfold object_names in Hplain, Hdist. rewrite fmap_app in Hplain, Hdist.
  fold (object_names w0) in Hplain, Hdist.
  rewrite forallb_app in Hplain, Hsibs.
  apply andb_true_iff in Hplain as [HplainG HplainC].
  apply andb_true_iff in Hsibs as [HwellG HwellC].
  apply distinct_app in Hdist as (HdistG & HdistC & Hapart).
  pose proof (make_role_in_step rec fuel rec_in_step (w_objects w obj) P m1 w1)
    as Hstep2.
  rewrite Hrole in Hstep2.
  pose proof (object_children_in_step rec special special_keeps rec_in_step P
                (children (w_objects w obj)) m2 w2) as Hstep3.
  rewrite Hkids in Hstep3.
  assert (same_scene w0 w2) as Hs2.
  { pose proof (make_role_same_scene rec fuel (w_objects w obj) P m1
                  rec_scene w1) as Hk.
    rewrite Hrole in Hk. by eapply same_scene_trans. }
  assert (collision_free w1 w2
          ∧ ∀ q, (∀ x, x ∈ children (w_objects w0 obj) →
                       under (node_path P (w_objects w0 x)) q →
                       object_paths (w_mu w2) !! q = None)
                 ∧ (¬ under P q →
                    object_paths (w_mu w2) !! q = object_paths (w_mu w1) !! q))
    as [Hcf2 Hafter2].
  { destruct (data (w_objects w0 obj)) as [d|] eqn:Ed0.
    { destruct (make_role_paths rec fuel (w_objects w obj) P m1 w1 m2 w2)
        as [Hn2 Hp2]; [rewrite Hd; by intros [? _]|done|].
      split; [unfold collision_free; rewrite Hn2, Hp2; lia|].
      intros q. rewrite Hp2. split; [|done]. intros x _ Hq. by eapply Hfresh1. }
    destruct (dupli_group (w_objects w0 obj)) as [g|] eqn:Eg0.
    2:{ destruct (make_role_paths rec fuel (w_objects w obj) P m1 w1 m2 w2)
          as [Hn2 Hp2]; [rewrite Hdg; by intros [_ [? ?]]|done|].
        split; [unfold collision_free; rewrite Hn2, Hp2; lia|].
        intros q. rewrite Hp2. split; [|done].
        intros x _ Hq. by eapply Hfresh1. }
    unfold make_role in Hrole. rewrite Hd, Hdg in Hrole.
    ok_step Hrole. injection Hrun as <- <-. rewrite Hg1 in Hrole.
    destruct Hs as [Hg0 _]. rewrite Hg0 in Hrole.
    destruct (group_children_region rec fuel w0 P HP rec_in_step
                rec_scene (rec_region P) (w_groups w0 g)
                (group_objects (w_groups w0 g)) m1 w1 m2 w2 Hs1
                HplainG HdistG HwellG) as [Hcf Hframe]; [|exact Hrole|].
    { intros x _ q Hq. by eapply Hfresh1. }
    split; [done|]. intros q. split.
    - intros x Hx Hq. rewrite Hframe; [by eapply Hfresh1|].
      intros y Hy Hqy.
      apply (Hapart (strip_nnn (obj_name (w_objects w0 y)))).
      + by apply object_names_in.
      + rewrite (regions_disjoint P _ _ q HP
                   (forallb_elem _ _ _ HplainG (object_names_in w0 y _ Hy))
                   (forallb_elem _ _ _ HplainC (object_names_in w0 x _ Hx))
                   Hqy Hq).
        by apply object_names_in.
    - intros Hq. apply Hframe. intros y _ Hqy. apply Hq.
      by eapply under_extend. }
  rewrite Hch in Hkids.
  destruct (object_children_region rec special fuel w0 P HP special_keeps
              rec_in_step rec_scene (rec_region P)
              (children (w_objects w0 obj)) m2 w2 m3 w' Hs2
              HplainC HdistC HwellC) as [Hcf3 Hframe3]; [|exact Hkids|].
  { intros x Hx q Hq. by apply (proj1 (Hafter2 q) x). }
  split.
  - eapply collision_free_trans; [exact Hstep1| |exact Hcf1|].
    + by eapply in_step_trans.
    + by eapply collision_free_trans.
  - intros q Hq. rewrite Hframe3.
    + rewrite (proj2 (Hafter2 q) Hq). apply Hframe1. intros ->.
      apply Hq, under_refl.
    + intros x _ Hqx. apply Hq. by eapply under_extend.
Qed.

End RegionBody.

(** In a scene without name collisions, a build that starts from an
    index with no entry at or below the path of its object enters every
    node under a path of its own, and touches no entry elsewhere. *)
Lemma make_obj_region fuel special :
  handlers_keep_paths special →
  ∀ w0 path obj w r w',
    same_scene w0 w → well_named fuel w0 obj = true →
    fresh_under w (node_path path (w_objects w0 obj)) →
    make_obj fuel special obj path w = Ok r w' →
    collision_free w w'
    ∧ ∀ q, ¬ under (node_path path (w_objects w0 obj)) q →
           object_paths (w_mu w') !! q = object_paths (w_mu w) !! q.
Proof.
  intros Hh. induction fuel as [|fuel IH];
    intros w0 path obj w r w' Hs Hwell Hfresh Hrun; [done|].
  rewrite make_obj_S in Hrun.
  eapply (make_obj_body_region (make_obj fuel special) special fuel w0);
    try done.
  - intros o q. by apply make_obj_in_step.
  - intros o q. apply make_obj_same_scene.
  - intros p o w1 r1 w2. by apply IH.
Qed.

End Regions.

(** ** The path of a node, and when it is entered *)

Section PathIndexClaims.
Context `{Collaborators}.

Lemma paths_stay_refl w : paths_stay w w.
Proof. by intros p. Qed.

Lemma paths_stay_trans a b c : paths_stay a b → paths_stay b c → paths_stay a c.
Proof. intros Hab Hbc p Hp. by apply Hbc, Hab. Qed.

Lemma paths_stay_same w w' :
  object_paths (w_mu w') = object_paths (w_mu w) → paths_stay w w'.
Proof. intros Heq p. by rewrite Heq. Qed.

Lemma paths_stay_head w path obj : paths_stay w (registered path obj w).
Proof.
  intros p Hp. cbn. rewrite lookup_insert_is_Some.
  destruct (decide (node_path path (w_objects w obj) = p)); auto.
Qed.

Lemma make_tail_paths_stay fuel special obj head :
  handlers_keep_paths special →
  keeps paths_stay (make_tail (make_obj fuel special) special fuel obj head).
Proof.
  intros Hh.
  assert (∀ w k h o, special !! k = Some h →
                     paths_stay w (with_mu (h (w_mu w) o).1 w)) as Hhandler.
  { intros w k h o Hk. apply paths_stay_same. cbn. by eapply Hh. }
  assert (∀ w mesh,
            paths_stay w (with_mu (make_renderer (w_mu w) mesh).1 w)) as Hres.
  { apply renderer_step. intros w mu (_ & Hp & _). by apply paths_stay_same. }
  apply keeps_make_tail;
    eauto using paths_stay_refl, paths_stay_trans, paths_stay_same.
  intros o p. apply keeps_make_obj;
    eauto using paths_stay_refl, paths_stay_trans, paths_stay_same,
                paths_stay_head.
Qed.

(** Distinct nodes that are all found in the index have distinct
    paths. *)
Lemma all_indexed_NoDup w l :
  NoDup l.*2 → all_indexed w l → NoDup l.*1.
Proof.
  induction l as [|e l IH]; intros Hids Hidx; [constructor|].
  apply NoDup_cons in Hids as [Hnew Hids].
  apply Forall_cons in Hidx as [He Hidx].
  rewrite fmap_cons. constructor; [|by apply IH].
  intros [e' [Heq He']]%list_elem_of_fmap. apply Hnew.
  apply list_elem_of_fmap. exists e'. split; [|done].
  unfold all_indexed in Hidx. rewrite Forall_forall in Hidx.
  specialize (Hidx e' He'). rewrite <- Heq, He in Hidx. by injection Hidx.
Qed.

Lemma make_obj_Some_head fuel special obj path w node w' :
  make_obj fuel special obj path w = Ok (Some node) w' →
  oid node = w_next w
  ∧ tr_name (transform node) = strip_nnn (obj_name (w_objects w obj)).
Proof.
  intros Hrun. destruct fuel as [|fuel]; [done|].
  rewrite make_obj_S in Hrun.
  apply make_obj_body_Ok in Hrun as (kept & w1 & Hempty & Hrest).
  apply make_empty_Ok in Hempty as (_ & Hsome & _).
  destruct kept as [m1|]; [|by destruct Hrest].
  destruct Hrest as (m2 & w2 & m3 & Hrole & Hkids & [= ->]).
  apply make_role_Ok in Hrole as (Hi & _ & _ & Hn & _).
  apply object_children_head in Hkids as (<- & <- & _).
  rewrite Hi, Hn, (Hsome m1 eq_refl). by destruct (is_attach_marker _).
Qed.

(** Claim C3.  The path a node is entered under is the path it was
    built below, extended by its stripped name: with a parent path that
    is the parent's path, a slash and the name.  The node is in the
    index, under that path and with its own identity, in the state in
    which everything else of the call runs, the builds of its children
    included, and the path is still in the index when the call returns
    or raises.  When no registration of the call collided with another
    path, every node of the tree built is found in the index under its
    path, and no two nodes of the tree share a path.  That is so
    whenever the names authored in the scene do not collide: when every
    object in reach of the build has a stripped name that is neither
    empty nor holds a slash, the objects built below one node (its
    children and, for an instance, the objects of its group) have
    pairwise distinct stripped names, and the index holds no entry at
    or below the path of the node when the call starts, then no
    registration of the call collides, every node of the tree is found
    under its path, and no two nodes of the tree share a path. *)
Theorem node_paths_registered fuel special obj path w :
  handlers_keep_paths special →
  let p := node_path path (w_objects w obj) in
  (path ≠ "" → p = path +:+ "/" +:+ strip_nnn (obj_name (w_objects w obj)))
  ∧ make_obj (S fuel) special obj path w =
      make_tail (make_obj fuel special) special fuel obj
                (head_node w obj, p) (registered path obj w)
  ∧ object_paths (w_mu (registered path obj w)) !! p = Some (w_next w)
  ∧ match make_obj (S fuel) special obj path w with
    | OutOfFuel => True
    | Raise _ w' => is_Some (object_paths (w_mu w') !! p)
    | Ok r w' =>
        is_Some (object_paths (w_mu w') !! p)
        ∧ ∀ tree, r = Some tree →
            tree_paths path tree =
              (p, w_next w) :: flat_map (tree_paths p) (mu_children tree)
            ∧ (collision_free w w' →
               all_indexed w' (tree_paths path tree)
               ∧ NoDup (tree_paths path tree).*1)
            ∧ (well_named (S fuel) w obj = true → fresh_under w p →
               collision_free w w'
               ∧ all_indexed w' (tree_paths path tree)
               ∧ NoDup (tree_paths path tree).*1)
    end.
Proof.
  intros Hh p.
  assert (make_obj (S fuel) special obj path w =
          make_tail (make_obj fuel special) special fuel obj
                    (head_node w obj, p) (registered path obj w)) as Hrun.
  { rewrite make_obj_S. unfold make_obj_body, bind at 1.
    by rewrite make_head_run. }
  assert (object_paths (w_mu (registered path obj w)) !! p = Some (w_next w))
    as Hreg by (cbn; by rewrite lookup_insert_eq).
  split; [by apply extend_path_join|]. split; [done|]. split; [done|].
  pose proof (make_tail_paths_stay fuel special obj (head_node w obj, p) Hh
                (registered path obj w)) as Hstay.
  rewrite <- Hrun in Hstay.
  destruct (make_obj (S fuel) special obj path w) as [r w'|e w'|] eqn:E;
    [|by apply Hstay; rewrite Hreg|done].
  split; [by apply Hstay; rewrite Hreg|].
  intros tree ->.
  pose proof (make_obj_Some_head _ _ _ _ _ _ _ E) as [Hoid Hname].
  split.
  { rewrite tree_paths_unfold, Hoid, Hname. done. }
  pose proof (make_obj_trees (S fuel) special Hh _ _ _ _ _ E)
    as (_ & Hids & Hidx).
  change (option_list (Some tree)) with [tree] in *.
  cbn [flat_map] in *. rewrite app_nil_r in *.
  assert (collision_free w w' →
          all_indexed w' (tree_paths path tree)
          ∧ NoDup (tree_paths path tree).*1) as Huniq.
  { intros Hfree. split; [by apply Hidx|].
    eapply all_indexed_NoDup; [done|by apply Hidx]. }
  split; [done|]. intros Hwell Hfresh.
  destruct (make_obj_region (S fuel) special Hh w path obj w _ w'
              (same_scene_refl w) Hwell Hfresh E) as [Hfree _].
  split; [done|]. by apply Huniq.
Qed.

End PathIndexClaims.

(** ** The config emitter *)

Section ConfigClaims.
Context `{Collaborators}.

Lemma add_prop_nodes_spec (objs : nat -> BObject) (ps : list nat) : ∀ node,
  let filled := fold_left (λ node prop, add_prop_node node (objs prop)) ps node in
  cfg_values filled = cfg_values node
  ∧ ∃ blocks, cfg_nodes filled = cfg_nodes node ++ blocks
              ∧ Forall2 (λ prop b, b.1 = "PROP" ∧ prop_block (objs prop) b.2)
                        ps blocks.
Proof.
  induction ps as [|prop ps IH]; intros node; cbn [fold_left].
  - split; [done|]. exists []. by rewrite app_nil_r.
  - destruct (IH (add_prop_node node (objs prop))) as (Hv & blocks & Hn & Hall).
    split; [by rewrite Hv|].
    eexists (_ :: blocks). split.
    + rewrite Hn. cbn. by rewrite <- app_assoc.
    + constructor; [|done]. split; [done|]. split; [done|]. by eexists.
Qed.

(** Claim C7, as amended.  For a model of type INTERNAL the section of
    the type gets one PROP block for each captured prop, in the order of
    capture and after the sections it had: each block carries the
    stripped name of the prop, its axis-swapped position, its swizzled
    rotation and its axis-swapped scale, and the values of the section
    stay as they were.  For a model of type PART what is written does
    not depend on the props of the model: before the attachment nodes
    are saved, the section has gained its offsets and, when an internal
    space was captured, one INTERNAL block, and no other section. *)
Theorem config_blocks_by_model_type (mu : Mu) (objs : nat -> BObject)
    (node : ConfigNode) :
  (cfg_values (fill_section "INTERNAL" mu objs node) = cfg_values node
   ∧ ∃ blocks,
       cfg_nodes (fill_section "INTERNAL" mu objs node) =
         cfg_nodes node ++ blocks
       ∧ Forall2 (λ prop b, b.1 = "PROP" ∧ prop_block (objs prop) b.2)
                 (props mu) blocks)
  ∧ (∀ ps, fill_section "PART" (set_props ps mu) objs node =
           fill_section "PART" mu objs node)
  ∧ ∃ before blocks,
      fill_section "PART" mu objs node =
        fold_left (λ node n, save_node n node) (nodes mu) before
      ∧ cfg_nodes before = cfg_nodes node ++ blocks
      ∧ match internal mu with
        | Some i => ∃ b, blocks = [("INTERNAL", b)] ∧ internal_block (objs i) b
        | None => blocks = []
        end.
Proof.
  split; [|split].
  - change (fill_section "INTERNAL" mu objs node)
      with (fold_left (λ node prop, add_prop_node node (objs prop))
                      (props mu) node).
    apply add_prop_nodes_spec.
  - done.
  - change (fill_section "PART" mu objs node)
      with (fold_left (λ node n, save_node n node) (nodes mu)
              (match internal mu with
               | Some i =>
                   add_internal_node
                     (add_offset "CoLOffset" (CoLOffset mu)
                        (add_offset "CoPOffset" (CoPOffset mu)
                           (add_offset "CoMOffset" (CoMOffset mu) node)))
                     (objs i)
               | None =>
                   add_offset "CoLOffset" (CoLOffset mu)
                     (add_offset "CoPOffset" (CoPOffset mu)
                        (add_offset "CoMOffset" (CoMOffset mu) node))
               end)).
    assert (∀ name v n, cfg_nodes (add_offset name v n) = cfg_nodes n) as Hoff.
    { intros name [v|] n; done. }
    destruct (internal mu) as [i|].
    + eexists _, _. split; [done|]. split.
      * cbn [add_internal_node AddNewNode cfg_nodes]. rewrite !Hoff.
        reflexivity.
      * eexists. split; [done|]. unfold internal_block.
        destruct (vec_truthy (location (objs i))),
                 (negb (vec_eqb (scale (objs i)) vec_ones));
          (split; [done|by eexists]).
    + eexists _, []. split; [done|]. by rewrite !Hoff, app_nil_r.
Qed.

End ConfigClaims.

(** ** The tables of textures and materials *)

Section Tables.
Context `{Collaborators}.

Lemma well_indexed_insert {A} (index : A -> nat) (t : gmap string A) k a :
  t !! k = None → index a = size t →
  well_indexed index t → well_indexed index (<[k:=a]> t).
Proof.
  intros Hk Ha (Hlt & Hinj & Hsur). unfold well_indexed.
  rewrite map_size_insert_None by done. split; [|split].
  - intros k' a' [[-> ->]|[_ Hl]]%lookup_insert_Some; [lia|].
    apply Hlt in Hl. lia.
  - intros k1 k2 a1 a2 [[<- <-]|[? Hl1]]%lookup_insert_Some
                       [[<- <-]|[? Hl2]]%lookup_insert_Some Heq; try done.
    + apply Hlt in Hl2. lia.
    + apply Hlt in Hl1. lia.
    + by eapply Hinj.
  - intros i Hi. destruct (decide (i = size t)) as [->|Hne].
    + exists k, a. by rewrite lookup_insert_eq.
    + destruct (Hsur i) as (k' & a' & Hl & Hidx); [lia|].
      exists k', a'. split; [|done].
      rewrite lookup_insert_ne; [done|]. congruence.
Qed.

Lemma well_indexed_empty {A} (index : A -> nat) : well_indexed index ∅.
Proof.
  split; [|split].
  - by intros k a ?%lookup_empty_Some.
  - by intros k1 k2 a1 a2 ?%lookup_empty_Some.
  - rewrite map_size_empty. lia.
Qed.

Lemma texture_at_weaken mu mu' i :
  textures mu ⊆ textures mu' → texture_at mu i → texture_at mu' i.
Proof. intros Hsub (k & t & Hk & Hi). exists k, t. eauto using lookup_weaken. Qed.

Lemma material_at_weaken mu mu' i :
  materials mu ⊆ materials mu' → material_at mu i → material_at mu' i.
Proof. intros Hsub (k & t & Hk & Hi). exists k, t. eauto using lookup_weaken. Qed.

(** [model_ok] looks at the two tables only. *)
Lemma model_ok_proper mu mu' :
  materials mu' = materials mu → textures mu' = textures mu →
  model_ok mu → model_ok mu'.
Proof. unfold model_ok, texture_at. by intros -> ->. Qed.

Lemma make_texture_grows mu tex :
  textures mu ⊆ textures (make_texture mu tex).1.
Proof.
  unfold make_texture. destruct (textures mu !! slot_tex tex) eqn:E; cbn;
    [done|by apply insert_subseteq].
Qed.

Lemma make_texture_ok mu tex :
  model_ok mu → model_ok (make_texture mu tex).1.
Proof.
  intros (Ht & Hm & Hnt & Hnm). unfold make_texture.
  destruct (textures mu !! slot_tex tex) eqn:E; cbn; [done|].
  split; [|split; [done|split]]; cbn.
  - by apply well_indexed_insert.
  - intros k t [[<- <-]|[_ Hl]]%lookup_insert_Some; [done|by apply Hnt].
  - intros k m Hk. destruct (Hnm k m Hk) as [Hname Hrefs].
    split; [done|]. intros p u Hu.
    eapply texture_at_weaken; [|by eapply Hrefs].
    cbn. by apply insert_subseteq.
Qed.

Lemma make_texture_at mu tex :
  texture_at (make_texture mu tex).1 (mattex_index (make_texture mu tex).2).
Proof.
  destruct (make_texture_lookup mu tex) as (x & Hx & Hi & _).
  exists (slot_tex tex), x. by rewrite Hi.
Qed.

Lemma make_tex_property_from_ok ts : ∀ mu acc,
  model_ok mu →
  (∀ p u, acc !! p = Some u → texture_at mu (mattex_index u)) →
  let r := make_tex_property_from mu ts acc in
  model_ok r.1 ∧ textures mu ⊆ textures r.1
  ∧ ∀ p u, r.2 !! p = Some u → texture_at r.1 (mattex_index u).
Proof.
  induction ts as [|t ts IH]; intros mu acc Hok Hacc;
    cbn [make_tex_property_from].
  { cbn. split; [done|]. split; [done|exact Hacc]. }
  pose proof (make_texture_ok mu t Hok) as Hok1.
  pose proof (make_texture_grows mu t) as Hsub1.
  pose proof (make_texture_at mu t) as Hat.
  destruct (make_texture mu t) as [mu1 u]. cbn [fst snd] in *.
  destruct (IH mu1 (<[slot_name t:=u]> acc) Hok1) as (Hok2 & Hsub2 & Hrefs).
  { intros p v [[<- <-]|[_ Hl]]%lookup_insert_Some; [done|].
    eapply texture_at_weaken; [done|by eapply Hacc]. }
  cbn zeta. split; [done|]. split; [by etrans|done].
Qed.

Lemma intern_material_ok mu mat :
  model_ok mu →
  model_ok (intern_material mu mat)
  ∧ materials mu ⊆ materials (intern_material mu mat)
  ∧ textures mu ⊆ textures (intern_material mu mat).
Proof.
  intros Hok. unfold intern_material.
  destruct (materials mu !! mat_name mat) eqn:E; [done|].
  destruct (make_material_frame mu mat) as (_ & Hmats & Hidx).
  assert (model_ok (make_material mu mat).1
          ∧ textures mu ⊆ textures (make_material mu mat).1
          ∧ material_name (make_material mu mat).2 = mat_name mat
          ∧ ∀ p u, textureProperties (make_material mu mat).2 !! p = Some u →
                   texture_at (make_material mu mat).1 (mattex_index u))
    as (Hok1 & Hsub & Hname & Hrefs).
  { unfold make_material, make_tex_property.
    destruct (make_tex_property_from_ok
                (texture_properties (mumatprop mat)) mu ∅ Hok)
      as (Hok1 & Hsub & Hrefs); [by intros p u ?%lookup_empty_Some|].
    by destruct (make_tex_property_from mu _ ∅). }
  destruct (make_material mu mat) as [mu1 m]. cbn [fst snd] in *.
  destruct Hok1 as (Ht & Hm & Hnt & Hnm). rewrite <- Hmats in E, Hidx.
  split; [|split; [rewrite <- Hmats; by apply insert_subseteq|done]].
  split; [done|]. split; [by apply well_indexed_insert|]. split; [done|].
  cbn [materials set_materials].
  intros k x [[<- <-]|[_ Hl]]%lookup_insert_Some.
  - split; [done|]. intros p u Hu. exact (Hrefs p u Hu).
  - destruct (Hnm k x Hl) as [Hn Hr]. split; [done|].
    intros p u Hu. exact (Hr p u Hu).
Qed.

Lemma renderer_materials_ok mats : ∀ mu acc,
  model_ok mu →
  let r := renderer_materials mu mats acc in
  model_ok r.1 ∧ materials mu ⊆ materials r.1 ∧ textures mu ⊆ textures r.1.
Proof.
  induction mats as [|mat mats IH]; intros mu acc Hok; [done|].
  rewrite renderer_materials_cons. destruct (truthy _); [|by apply IH].
  destruct (intern_material_ok mu mat Hok) as (Hok1 & Hm1 & Ht1).
  edestruct (IH (intern_material mu mat)) as (Hok2 & Hm2 & Ht2); [done|].
  cbn zeta. split; [done|]. split; etrans; done.
Qed.

Lemma intern_material_grows mu mat :
  materials mu ⊆ materials (intern_material mu mat)
  ∧ textures mu ⊆ textures (intern_material mu mat).
Proof.
  unfold intern_material.
  destruct (materials mu !! mat_name mat) eqn:E; [done|].
  destruct (make_material_frame mu mat) as (_ & Hmats & _).
  assert (textures mu ⊆ textures (make_material mu mat).1) as Hsub.
  { unfold make_material, make_tex_property.
    generalize (∅ : gmap string MuMatTex).
    generalize (texture_properties (mumatprop mat)). clear E Hmats.
    intros ts. revert mu. induction ts as [|t ts IH]; intros mu acc.
    - done.
    - pose proof (make_texture_grows mu t) as Hsub1.
      specialize (IH (make_texture mu t).1
                     (<[slot_name t:=(make_texture mu t).2]> acc)).
      cbn [make_tex_property_from].
      destruct (make_texture mu t) as [mu1 u]. cbn [fst snd] in *.
      destruct (make_tex_property_from mu1 ts _). cbn [fst] in *. by etrans. }
  destruct (make_material mu mat) as [mu1 m]. cbn [fst snd] in *.
  split; [|done]. rewrite <- Hmats. apply insert_subseteq. by rewrite Hmats.
Qed.

Lemma renderer_materials_grows mats : ∀ mu acc,
  let r := renderer_materials mu mats acc in
  materials mu ⊆ materials r.1 ∧ textures mu ⊆ textures r.1.
Proof.
  induction mats as [|mat mats IH]; intros mu acc; [done|].
  rewrite renderer_materials_cons. destruct (truthy _); [|by apply IH].
  destruct (intern_material_grows mu mat) as [Hm1 Ht1].
  edestruct (IH (intern_material mu mat)) as [Hm2 Ht2].
  cbn zeta. split; etrans; done.
Qed.

Lemma make_renderer_grows mu mesh :
  materials mu ⊆ materials (make_renderer mu mesh).1
  ∧ textures mu ⊆ textures (make_renderer mu mesh).1.
Proof.
  unfold make_renderer.
  pose proof (renderer_materials_grows (mesh_materials mesh) mu []) as Hg.
  destruct (renderer_materials mu (mesh_materials mesh) []) as [mu' l].
  by destruct l.
Qed.

Lemma make_renderer_model_ok mu mesh :
  model_ok mu → model_ok (make_renderer mu mesh).1.
Proof.
  intros Hok. unfold make_renderer.
  pose proof (renderer_materials_ok (mesh_materials mesh) mu [] Hok) as Hg.
  destruct (renderer_materials mu (mesh_materials mesh) []) as [mu' l].
  destruct l; apply Hg.
Qed.

Lemma make_renderer_at mu mesh r :
  (make_renderer mu mesh).2 = Some r →
  Forall (material_at (make_renderer mu mesh).1) (rend_materials r).
Proof.
  intros Hr. destruct (make_renderer_spec mu mesh) as [_ Hspec].
  rewrite Hr in Hspec. destruct Hspec as [_ Hall].
  induction Hall as [|mat i mats l (m & Hm & Hi) _ IH]; constructor; [|done].
  by exists (mat_name mat), m.
Qed.

End Tables.

(** ** Properties of the interner *)

Section TableProperties.
Context `{Collaborators}.

Lemma make_property_from name items : ∀ acc : gmap string PropValue,
  fold_left (λ muprop item, <[item_name item := item_value item]> muprop)
            items acc !! name =
  match last_named name items with
  | Some v => Some v
  | None => acc !! name
  end.
Proof.
  induction items as [|item rest IH]; intros acc; [done|].
  cbn [fold_left]. rewrite IH. unfold last_named. rewrite filter_cons.
  destruct (decide (item_name item = name)) as [Heq|Hne].
  - rewrite last_cons. destruct (last (filter _ rest)); cbn; [done|].
    by rewrite Heq, lookup_insert_eq.
  - destruct (last (filter _ rest)); cbn; [done|].
    by rewrite lookup_insert_ne.
Qed.

(** Property X1.  A property bucket holds, for every name, the value of
    the last item of that name in the collection, and nothing for a name
    no item has: a later item of a name replaces an earlier one. *)
Theorem make_property_last_wins items name :
  make_property items !! name = last_named name items.
Proof.
  unfold make_property. rewrite make_property_from.
  by destruct (last_named name items).
Qed.

(** Property X2.  Interning a texture keeps the texture table well
    indexed and keeps every entry it had; the index it returns is the
    index of the entry the table has for the source of the reference,
    and is below the size of the table. *)
Theorem make_texture_keeps_table_indexed mu tex :
  well_indexed tex_index (textures mu) →
  well_indexed tex_index (textures (make_texture mu tex).1)
  ∧ textures mu ⊆ textures (make_texture mu tex).1
  ∧ materials (make_texture mu tex).1 = materials mu
  ∧ ∃ t, textures (make_texture mu tex).1 !! slot_tex tex = Some t
         ∧ tex_index t = mattex_index (make_texture mu tex).2
         ∧ tex_index t < size (textures (make_texture mu tex).1).
Proof.
  intros Hwi.
  assert (well_indexed tex_index (textures (make_texture mu tex).1)) as Hwi'.
  { unfold make_texture. destruct (textures mu !! slot_tex tex) eqn:E; cbn;
      [done|by apply well_indexed_insert]. }
  split; [done|]. split; [apply make_texture_grows|].
  split; [apply make_texture_frame|].
  destruct (make_texture_lookup mu tex) as (x & Hx & Hi & _).
  exists x. split; [done|]. split; [done|]. by eapply Hwi'.
Qed.

(** Property X3.  A new material gets the size of the material table as
    its index; making it leaves the material table alone, keeps the
    model in order, and every texture the material uses is in the
    texture table. *)
Theorem make_material_textures_interned mu mat :
  model_ok mu →
  material_index (make_material mu mat).2 = size (materials mu)
  ∧ material_name (make_material mu mat).2 = mat_name mat
  ∧ materials (make_material mu mat).1 = materials mu
  ∧ textures mu ⊆ textures (make_material mu mat).1
  ∧ model_ok (make_material mu mat).1
  ∧ ∀ p u, textureProperties (make_material mu mat).2 !! p = Some u →
           texture_at (make_material mu mat).1 (mattex_index u).
Proof.
  intros Hok. destruct (make_material_frame mu mat) as (_ & Hmats & Hidx).
  split; [done|]. unfold make_material, make_tex_property in *.
  destruct (make_tex_property_from_ok
              (texture_properties (mumatprop mat)) mu ∅ Hok)
    as (Hok1 & Hsub & Hrefs); [by intros p u ?%lookup_empty_Some|].
  by destruct (make_tex_property_from mu _ ∅).
Qed.

(** Property X4.  [make_renderer] keeps the model in order and keeps
    every entry of the two tables; every index of the renderer it
    returns is the index of a material in the table, below the size of
    the table. *)
Theorem make_renderer_indices_in_table mu mesh :
  model_ok mu →
  model_ok (make_renderer mu mesh).1
  ∧ materials mu ⊆ materials (make_renderer mu mesh).1
  ∧ textures mu ⊆ textures (make_renderer mu mesh).1
  ∧ ∀ r, (make_renderer mu mesh).2 = Some r →
      Forall (λ i, material_at (make_renderer mu mesh).1 i
                   ∧ i < size (materials (make_renderer mu mesh).1))
             (rend_materials r).
Proof.
  intros Hok. pose proof (make_renderer_model_ok mu mesh Hok) as Hok'.
  split; [done|]. destruct (make_renderer_grows mu mesh) as [Hm Ht].
  split; [done|]. split; [done|]. intros r Hr.
  eapply Forall_impl; [by apply make_renderer_at|].
  intros i Hat. split; [done|].
  destruct Hat as (k & m & Hk & <-). destruct Hok' as (_ & Hwi & _).
  by eapply Hwi.
Qed.

Lemma renderer_materials_list mats : ∀ mu acc,
  (renderer_materials mu mats acc).2 =
  acc ++ map (index_of (renderer_materials mu mats acc).1)
             (filter (λ mat, truthy (shaderName (mumatprop mat)) = true) mats).
Proof.
  induction mats as [|mat mats IH]; intros mu acc.
  { cbn. by rewrite app_nil_r. }
  rewrite renderer_materials_cons.
  destruct (truthy (shaderName (mumatprop mat))) eqn:E.
  - rewrite filter_cons_True by done. rewrite IH, <- app_assoc. cbn [map app].
    do 2 f_equal.
    destruct (intern_material_frame mu mat) as (_ & _ & [m Hm]).
    rewrite Hm. unfold index_of.
    pose proof (renderer_materials_grows mats (intern_material mu mat)
                  (acc ++ [material_index m])) as [Hsub _].
    by rewrite (lookup_weaken _ _ _ _ Hm Hsub).
  - rewrite filter_cons_False by (by rewrite E). apply IH.
Qed.

Lemma renderer_materials_known mats : ∀ mu acc,
  Forall (λ mat, is_Some (materials mu !! mat_name mat))
         (filter (λ mat, truthy (shaderName (mumatprop mat)) = true) mats) →
  renderer_materials mu mats acc =
  (mu, acc ++ map (index_of mu)
         (filter (λ mat, truthy (shaderName (mumatprop mat)) = true) mats)).
Proof.
  induction mats as [|mat mats IH]; intros mu acc Hall.
  { cbn. by rewrite app_nil_r. }
  rewrite renderer_materials_cons.
  destruct (truthy (shaderName (mumatprop mat))) eqn:E.
  - rewrite filter_cons_True in * by done.
    apply Forall_cons in Hall as [[m Hm] Hall].
    assert (intern_material mu mat = mu) as ->
      by (unfold intern_material; by rewrite Hm).
    rewrite IH by done. rewrite <- app_assoc. cbn [map app].
    unfold index_of at 2. by rewrite Hm.
  - rewrite filter_cons_False in * by (by rewrite E). by apply IH.
Qed.

(** Property X5.  Building the renderer of a mesh a second time changes
    nothing in the model and gives the same renderer: the materials are
    found in the table, under the indices they got the first time. *)
Theorem make_renderer_again mu mesh :
  make_renderer (make_renderer mu mesh).1 mesh = make_renderer mu mesh.
Proof.
  unfold make_renderer.
  pose proof (renderer_materials_list (mesh_materials mesh) mu []) as Hl.
  destruct (renderer_materials_spec (mesh_materials mesh) mu [] [])
    as (_ & _ & Hall); [constructor|].
  destruct (renderer_materials mu (mesh_materials mesh) []) as [mu' l] eqn:E.
  cbn [fst snd app] in *.
  assert ((let (mu0, mats) := (mu', l) in
           match mats with
           | [] => (mu0, None)
           | _ :: _ => (mu0, Some {| rend_materials := mats |})
           end).1 = mu') as -> by (by destruct l).
  rewrite renderer_materials_known.
  - cbn [app]. by rewrite <- Hl.
  - clear Hl E. induction Hall as [|mat i mats l' (m & Hm & _) _ IH];
      constructor; [by rewrite Hm|done].
Qed.

End TableProperties.

(** ** What a build does to the model *)

Section BuildTables.
Context `{Collaborators}.

Lemma tables_grow_refl w : tables_grow w w.
Proof. split; [done|]. split; [done|auto]. Qed.

Lemma tables_grow_trans a b c :
  tables_grow a b → tables_grow b c → tables_grow a c.
Proof.
  intros (Hm1 & Ht1 & Hok1) (Hm2 & Ht2 & Hok2).
  split; [by etrans|]. split; [by etrans|auto].
Qed.

Lemma tables_grow_same w w' :
  materials (w_mu w') = materials (w_mu w) →
  textures (w_mu w') = textures (w_mu w) → tables_grow w w'.
Proof.
  intros Hm Ht. unfold tables_grow. rewrite Hm, Ht.
  split; [done|]. split; [done|]. by apply model_ok_proper.
Qed.

Lemma tables_grow_renderer w mesh :
  tables_grow w (with_mu (make_renderer (w_mu w) mesh).1 w).
Proof.
  destruct (make_renderer_grows (w_mu w) mesh) as [Hm Ht].
  split; [done|]. split; [done|]. apply make_renderer_model_ok.
Qed.

Lemma make_obj_tables_grow fuel special obj path :
  handlers_keep_tables special →
  keeps tables_grow (make_obj fuel special obj path).
Proof.
  intros Hh. apply keeps_make_obj;
    auto using tables_grow_refl, tables_grow_renderer.
  - apply tables_grow_trans.
  - intros. by apply tables_grow_same.
  - intros. by apply tables_grow_same.
  - intros. by apply tables_grow_same.
  - intros. by apply tables_grow_same.
  - intros w k h o Hk. destruct (Hh k h (w_mu w) o Hk).
    by apply tables_grow_same.
Qed.

(** *** The renderers of the tree *)

Lemma materials_at_grow w w' l :
  tables_grow w w' →
  Forall (material_at (w_mu w)) l → Forall (material_at (w_mu w')) l.
Proof.
  intros [Hm _] Hl. eapply Forall_impl; [exact Hl|].
  intros i. by apply material_at_weaken.
Qed.

Lemma materials_at_same w w' l :
  materials (w_mu w') = materials (w_mu w) →
  Forall (material_at (w_mu w)) l → Forall (material_at (w_mu w')) l.
Proof. intros Hm. unfold material_at. by rewrite Hm. Qed.

Lemma tree_materials_unfold t :
  tree_materials t =
  match renderer t with
  | Some r => rend_materials r
  | None => []
  end ++ flat_map tree_materials (mu_children t).
Proof. by destruct t. Qed.

Lemma tree_materials_head m m' :
  renderer m' = renderer m → mu_children m' = mu_children m →
  tree_materials m' = tree_materials m.
Proof. intros Hr Hk. by rewrite !tree_materials_unfold, Hr, Hk. Qed.

Lemma tree_materials_append c m :
  tree_materials (append_child c m) = tree_materials m ++ tree_materials c.
Proof.
  rewrite !tree_materials_unfold. cbn [renderer mu_children append_child].
  rewrite flat_map_app. cbn [flat_map]. rewrite app_nil_r.
  by rewrite tree_materials_unfold, app_assoc.
Qed.

Section MaterialLoops.
Variable rec : nat -> string -> M (option MuObject).
Variable special : gmap string Handler.
Variable fuel : nat.
Hypothesis special_keeps : handlers_keep_tables special.
Hypothesis rec_grow : ∀ o p, keeps tables_grow (rec o p).
Hypothesis rec_mats : ∀ o p w r w',
  rec o p w = Ok r w' →
  Forall (material_at (w_mu w')) (flat_map tree_materials (option_list r)).

Lemma rec_Ok_grow o p w r w' : rec o p w = Ok r w' → tables_grow w w'.
Proof. intros Hrun. pose proof (rec_grow o p w) as Hk. by rewrite Hrun in Hk. Qed.

Lemma child_materials w1 w2 o p child muobj :
  rec o p w1 = Ok child w2 →
  Forall (material_at (w_mu w1)) (tree_materials muobj) →
  Forall (material_at (w_mu w2))
         (tree_materials (match child with
                          | Some c => append_child c muobj
                          | None => muobj
                          end)).
Proof.
  intros Hrec Hok. pose proof (rec_Ok_grow _ _ _ _ _ Hrec) as Hg.
  apply rec_mats in Hrec. destruct child as [c|].
  - rewrite tree_materials_append. apply Forall_app. split.
    + by eapply materials_at_grow.
    + change (option_list (Some c)) with [c] in Hrec. cbn [flat_map] in Hrec.
      by rewrite app_nil_r in Hrec.
  - by eapply materials_at_grow.
Qed.

Lemma object_children_materials path os : ∀ muobj w m w',
  object_children rec special path os muobj w = Ok m w' →
  Forall (material_at (w_mu w)) (tree_materials muobj) →
  Forall (material_at (w_mu w')) (tree_materials m).
Proof.
  induction os as [|o os IH]; intros muobj w m w' Hrun Hok.
  { by apply ret_Ok in Hrun as [<- <-]. }
  rewrite object_children_cons in Hrun. lazy zeta in Hrun.
  assert (∀ w1 : World,
    materials (w_mu w1) = materials (w_mu w) →
    (if has_collider (w_objects w o)
     then object_children rec special path os
            (set_collider (make_collider (w_objects w o)) muobj) w1
     else if match data (w_objects w o) with
             | Some d => negb (exportable d)
             | None => false
             end
     then object_children rec special path os muobj w1
     else match rec o path w1 with
          | Ok child w2 =>
              object_children rec special path os
                (match child with
                 | Some n => append_child n muobj
                 | None => muobj
                 end) w2
          | Raise e w2 => Raise e w2
          | OutOfFuel => OutOfFuel
          end) = Ok m w' →
    Forall (material_at (w_mu w')) (tree_materials m)) as Hpass.
  { intros w1 Hm1 Hpass.
    assert (Forall (material_at (w_mu w1)) (tree_materials muobj)) as Hok1
      by (by eapply materials_at_same).
    destruct (has_collider _).
    { eapply IH; [exact Hpass|].
      by rewrite (tree_materials_head muobj)
        by done. }
    destruct (match data _ with Some _ => _ | None => _ end);
      [by eapply IH|].
    destruct (rec o path w1) as [child w2| |] eqn:Erec; [|done|done].
    eapply IH; [exact Hpass|]. by eapply child_materials. }
  destruct (special !! _) as [h|] eqn:Eh; [|by apply (Hpass w)].
  destruct (special_keeps _ _ (w_mu w) o Eh) as [Hm _].
  destruct (h (w_mu w) o).2.
  - eapply IH; [exact Hrun|]. by eapply materials_at_same.
  - by apply (Hpass (with_mu (h (w_mu w) o).1 w)).
Qed.

Lemma group_children_materials group path os : ∀ muobj w m w',
  group_children rec fuel group path os muobj w = Ok m w' →
  Forall (material_at (w_mu w)) (tree_materials muobj) →
  Forall (material_at (w_mu w')) (tree_materials m).
Proof.
  induction os as [|o os IH]; intros muobj w m w' Hrun Hok.
  { by apply ret_Ok in Hrun as [<- <-]. }
  rewrite group_children_cons in Hrun.
  destruct (is_group_root _ _ _ _) as [[]|]; [|by eapply IH|done].
  destruct (rec o path _) as [child w1| |] eqn:Erec; [|done|done].
  eapply IH; [exact Hrun|].
  eapply (materials_at_same w1); [done|].
  eapply child_materials; [exact Erec|]. by eapply materials_at_same.
Qed.

Lemma make_role_materials o p m1 w1 m2 w2 :
  make_role rec fuel o p m1 w1 = Ok m2 w2 →
  Forall (material_at (w_mu w1)) (tree_materials m1) →
  Forall (material_at (w_mu w2)) (tree_materials m2).
Proof.
  unfold make_role. intros Hrun Hok.
  assert ((if has_collider o then ret m1
           else match data o with
                | Some d => make_data d o m1
                | None => ret m1
                end) w1 = Ok m2 w2 →
          Forall (material_at (w_mu w2)) (tree_materials m2)) as Hplain.
  { intros Hp.
    destruct (has_collider o); [by apply ret_Ok in Hp as [<- <-]|].
    destruct (data o) as [d|]; [|by apply ret_Ok in Hp as [<- <-]].
    destruct d as [mesh|l|c|]; cbn [make_data] in Hp.
    - ok_step Hp. apply ret_Ok in Hp as [<- <-]. unfold on_mu in Hrun0.
      pose proof (tables_grow_renderer w1 mesh) as Hg.
      pose proof (make_renderer_at (w_mu w1) mesh) as Hat.
      destruct (make_renderer (w_mu w1) mesh) as [mu' r]. cbn [fst snd] in *.
      injection Hrun0 as <- <-.
      rewrite tree_materials_unfold in Hok |- *.
      cbn [renderer mu_children set_renderer set_shared_mesh].
      apply Forall_app in Hok as [_ Hkids]. apply Forall_app. split.
      + destruct r as [r|]; [by apply Hat|constructor].
      + by eapply materials_at_grow.
    - ok_step Hp. apply ret_Ok in Hp as [<- <-].
      unfold make_light in Hrun0. destruct (light_type_index _); [|done].
      injection Hrun0 as <- <-.
      by rewrite (tree_materials_head m1) by done.
    - apply ret_Ok in Hp as [<- <-].
      by rewrite (tree_materials_head m1) by done.
    - by apply ret_Ok in Hp as [<- <-]. }
  destruct (data o) as [d|]; [by apply Hplain|].
  destruct (dupli_group o) as [g|]; [|by apply Hplain].
  ok_step Hrun. injection Hrun0 as <- <-.
  by eapply group_children_materials.
Qed.

Lemma make_obj_body_materials obj path w r w' :
  make_obj_body rec special fuel obj path w = Ok r w' →
  Forall (material_at (w_mu w')) (flat_map tree_materials (option_list r)).
Proof.
  intros Hrun.
  apply make_obj_body_Ok in Hrun as (kept & w1 & Hempty & Hrest).
  apply make_empty_Ok in Hempty as (_ & Hsome & _).
  destruct kept as [m1|]; [|destruct Hrest as [-> _]; constructor].
  destruct Hrest as (m2 & w2 & m3 & Hrole & Hloop & ->).
  change (option_list (Some m3)) with [m3]. cbn [flat_map]. rewrite app_nil_r.
  eapply object_children_materials; [exact Hloop|].
  eapply make_role_materials; [exact Hrole|].
  rewrite (Hsome m1 eq_refl). destruct (is_attach_marker _); constructor.
Qed.

End MaterialLoops.

Lemma make_obj_materials fuel special :
  handlers_keep_tables special →
  ∀ obj path w r w',
    make_obj fuel special obj path w = Ok r w' →
    Forall (material_at (w_mu w')) (flat_map tree_materials (option_list r)).
Proof.
  intros Hh. induction fuel as [|fuel IH]; intros obj path w r w' Hrun;
    [done|].
  rewrite make_obj_S in Hrun.
  eapply make_obj_body_materials; [done| |done|done].
  intros o p. by apply make_obj_tables_grow.
Qed.

End BuildTables.

(** ** What a build adds, and what it raises *)

Section BuildProperties.
Context `{Collaborators}.

Lemma model_grows_refl w : model_grows w w.
Proof. by repeat split. Qed.

Lemma model_grows_trans a b c :
  model_grows a b → model_grows b c → model_grows a c.
Proof.
  intros (Hn1 & Ht1 & Hi1 & Hno1 & Hp1 & Hin1)
         (Hn2 & Ht2 & Hi2 & Hno2 & Hp2 & Hin2).
  repeat split; try congruence; [by etrans|by etrans|auto].
Qed.

Lemma model_grows_same w w' :
  mu_name (w_mu w') = mu_name (w_mu w) → mu_type (w_mu w') = mu_type (w_mu w) →
  inverse (w_mu w') = inverse (w_mu w) → nodes (w_mu w') = nodes (w_mu w) →
  props (w_mu w') = props (w_mu w) → internal (w_mu w') = internal (w_mu w) →
  model_grows w w'.
Proof.
  intros Hn Ht Hi Hno Hp Hin. unfold model_grows.
  rewrite Hn, Ht, Hi, Hno, Hp, Hin. by repeat split.
Qed.

Lemma model_grows_handler special w k h o :
  capturing special → special !! k = Some h →
  model_grows w (with_mu (h (w_mu w) o).1 w).
Proof.
  intros Hc Hk. destruct (Hc k h Hk) as [->| ->].
  - unfold add_internal. cbn [fst].
    destruct (internal (w_mu w)) eqn:E.
    + by apply model_grows_same.
    + repeat split; try done. cbn. by rewrite E.
  - repeat split; try done. cbn. by apply prefix_app_r.
Qed.

Lemma make_obj_model_grows fuel special obj path :
  capturing special → keeps model_grows (make_obj fuel special obj path).
Proof.
  intros Hc. apply keeps_make_obj; auto using model_grows_refl.
  - apply model_grows_trans.
  - intros. by apply model_grows_same.
  - intros. by apply model_grows_same.
  - intros. repeat split; try done. cbn. by apply prefix_app_r.
  - intros. by apply model_grows_same.
  - apply renderer_step.
    intros w mu (Hn & _ & Hno & Hp & Hin & Ht & _ & _ & _ & Hi).
    by apply model_grows_same.
  - intros. by eapply model_grows_handler.
Qed.

(** The handlers of the four tables of [special_modelTypes]. *)
Lemma special_modelTypes_capturing t special :
  special_modelTypes !! t = Some special → capturing special.
Proof.
  unfold special_modelTypes. intros Hl.
  repeat (apply lookup_insert_Some in Hl as [[_ <-]|[_ Hl]]);
    [| | | |by apply lookup_empty_Some in Hl]; intros k h Hk.
  - by apply lookup_empty_Some in Hk.
  - apply lookup_insert_Some in Hk as [[_ <-]|[_ Hk]]; [by left|].
    by apply lookup_empty_Some in Hk.
  - by apply lookup_empty_Some in Hk.
  - apply lookup_insert_Some in Hk as [[_ <-]|[_ Hk]]; [by right|].
    by apply lookup_empty_Some in Hk.
Qed.

Lemma capturing_keep_tables special :
  capturing special → handlers_keep_tables special.
Proof.
  intros Hc k h mu o Hk. destruct (Hc k h Hk) as [->| ->]; [|done].
  unfold add_internal. by destruct (internal mu).
Qed.

Lemma capturing_keep_paths special :
  capturing special → handlers_keep_paths special.
Proof.
  intros Hc k h mu o Hk. destruct (Hc k h Hk) as [->| ->]; [|done].
  unfold add_internal. by destruct (internal mu).
Qed.

(** Property X6.  The tables of the model only grow in a build, whether
    it returns or raises, as long as the special handlers leave them
    alone: every texture and material that was interned keeps its entry,
    index included, and a model that was in order stays in order. *)
Theorem build_keeps_tables fuel special obj path w :
  handlers_keep_tables special →
  match make_obj fuel special obj path w with
  | Ok _ w' | Raise _ w' =>
      materials (w_mu w) ⊆ materials (w_mu w')
      ∧ textures (w_mu w) ⊆ textures (w_mu w')
      ∧ (model_ok (w_mu w) → model_ok (w_mu w'))
  | OutOfFuel => True
  end.
Proof.
  intros Hh. pose proof (make_obj_tables_grow fuel special obj path Hh w) as Hk.
  by destruct (make_obj fuel special obj path w).
Qed.

(** Property X7.  Every material index in a renderer of the tree a build
    returns is the index of a material in the table of the model, and is
    below the size of the table when the build started from a model in
    order. *)
Theorem tree_materials_in_table fuel special obj path w tree w' :
  handlers_keep_tables special →
  make_obj fuel special obj path w = Ok (Some tree) w' →
  Forall (λ i, material_at (w_mu w') i
               ∧ (model_ok (w_mu w) → i < size (materials (w_mu w'))))
         (tree_materials tree).
Proof.
  intros Hh Hrun.
  pose proof (make_obj_tables_grow fuel special obj path Hh w) as Hk.
  rewrite Hrun in Hk. destruct Hk as (_ & _ & Hok).
  apply (make_obj_materials fuel special Hh) in Hrun.
  change (option_list (Some tree)) with [tree] in Hrun.
  cbn [flat_map] in Hrun. rewrite app_nil_r in Hrun.
  eapply Forall_impl; [exact Hrun|]. intros i Hat. split; [done|].
  intros Hok0. destruct (Hok Hok0) as (_ & Hwi & _).
  destruct Hat as (k & m & Hm & <-). by eapply Hwi.
Qed.

(** Property X8.  With the capturing handlers of the exporter, a build,
    whether it returns or raises, leaves the name, the type and the
    inverse matrix of the model as they were, adds attachment nodes and
    props at the end of their lists only, and never replaces an internal
    space that was captured. *)
Theorem build_appends_to_model fuel special obj path w :
  capturing special →
  match make_obj fuel special obj path w with
  | Ok _ w' | Raise _ w' =>
      mu_name (w_mu w') = mu_name (w_mu w)
      ∧ mu_type (w_mu w') = mu_type (w_mu w)
      ∧ inverse (w_mu w') = inverse (w_mu w)
      ∧ nodes (w_mu w) `prefix_of` nodes (w_mu w')
      ∧ props (w_mu w) `prefix_of` props (w_mu w')
      ∧ (∀ i, internal (w_mu w) = Some i → internal (w_mu w') = Some i)
  | OutOfFuel => True
  end.
Proof.
  intros Hc. pose proof (make_obj_model_grows fuel special obj path Hc w) as Hk.
  by destruct (make_obj fuel special obj path w).
Qed.

(** Property X11.  A build, whether it returns or raises, leaves the
    groups of the scene as they were and changes nothing of an object
    but its location. *)
Theorem build_changes_locations_only fuel special obj path w :
  match make_obj fuel special obj path w with
  | Ok _ w' | Raise _ w' =>
      w_groups w' = w_groups w
      ∧ ∀ i, w_objects w' i =
             set_location (location (w_objects w' i)) (w_objects w i)
  | OutOfFuel => True
  end.
Proof.
  pose proof (make_obj_same_scene fuel special obj path w) as Hk.
  destruct (make_obj fuel special obj path w) as [r w'|e w'|]; [| |done].
  - destruct Hk as [Hg Ho]. split; [done|]. intros i. symmetry. apply Ho.
  - destruct Hk as [Hg Ho]. split; [done|]. intros i. symmetry. apply Ho.
Qed.

End BuildProperties.

(** ** Group roots and the root of an export *)

Section Roots.
Context `{Collaborators}.

(** Property X12.  An object is a root of the group exactly when each of
    its parents, up to the top of the hierarchy, is a member of the
    group; whether the object itself is a member is not looked at. *)
Theorem is_group_root_follows_parents fuel objs group o l :
  ancestors objs o l → length l ≤ fuel →
  is_group_root fuel objs o group = Some (forallb (in_group objs group) l).
Proof.
  intros Ha. revert fuel.
  induction Ha as [o Hp|o p l Hp Ha IH]; intros fuel Hlen.
  - destruct fuel; cbn [is_group_root]; by rewrite Hp.
  - destruct fuel as [|fuel]; [cbn in Hlen; lia|].
    cbn [is_group_root forallb]. rewrite Hp. fold (in_group objs group p).
    destruct (in_group objs group p); cbn [negb andb]; [|done].
    apply IH. cbn in Hlen. lia.
Qed.

Lemma make_empty_lights o m w m1 w1 :
  make_empty o m w = Ok (Some m1) w1 →
  light m1 = light m ∧ camera m1 = camera m.
Proof.
  intros (_ & Hsome & _)%make_empty_Ok. rewrite (Hsome m1 eq_refl).
  by destruct (is_attach_marker o).
Qed.

(** Property X13.  The node of a root the export operators accept, an
    object without data or with a mesh, carries neither a light nor a
    camera. *)
Theorem polled_root_has_no_light_or_camera fuel special obj path w node w' :
  poll (Some (w_objects w obj)) = true →
  make_obj fuel special obj path w = Ok (Some node) w' →
  light node = None ∧ camera node = None.
Proof.
  intros Hpoll Hrun. destruct fuel as [|fuel]; [done|].
  rewrite make_obj_S in Hrun.
  apply make_obj_body_Ok in Hrun as (kept & w1 & Hempty & Hrest).
  destruct kept as [m1|]; [|by destruct Hrest].
  destruct Hrest as (m2 & w2 & m3 & Hrole & Hkids & [= ->]).
  apply make_empty_lights in Hempty as [Hl1 Hc1]. cbn in Hl1, Hc1.
  apply object_children_head in Hkids as (_ & _ & _ & _ & _ & <- & <-).
  rewrite <- Hl1, <- Hc1. clear Hl1 Hc1.
  unfold poll in Hpoll. unfold make_role in Hrole.
  destruct (data (w_objects w obj)) as [[mesh|l|c|]|] eqn:Ed; try done.
  - assert ((if has_collider (w_objects w obj) then ret m1
             else make_data (DMesh mesh) (w_objects w obj) m1) w1 = Ok m2 w2)
      as Hd by (by destruct (dupli_group (w_objects w obj))).
    destruct (has_collider _); [by apply ret_Ok in Hd as [<- _]|].
    cbn [make_data] in Hd. ok_step Hd. by apply ret_Ok in Hd as [<- _].
  - destruct (dupli_group (w_objects w obj)) as [g|].
    + ok_step Hrole.
      by apply group_children_head in Hrole as [(_ & _ & _ & _ & _ & <- & <-) _].
    + destruct (has_collider _); by apply ret_Ok in Hrole as [<- _].
Qed.

End Roots.

(** ** The document [generate_cfg] writes *)

Section ConfigProperties.
Context `{Collaborators}.





Lemma generate_cfg_run mu filepath objs :
  generate_cfg mu filepath objs =
  match find_template mu filepath with
  | None => (mu, None)
  | Some (cfgfile, cfgnode) =>
      match GetNode (section_type mu) cfgnode with
      | None => (mu, None)
      | Some _ =>
          let mu' := if String.eqb (section_type mu) "PART"
                     then set_nodes (sort_nodes (nodes mu)) mu else mu in
          (mu', Some (cfgfile,
                      update_node (section_type mu)
                        (fill_section (section_type mu) mu' objs)
                        (parse_node mu cfgnode)))
      end
  end.
Proof. done. Qed.

(** Property X14.  No config is written exactly when no template is
    found or the template has no section of the type of the model (of
    the scene, for a model of type NONE); the model is then left as it
    was, its attachment nodes unsorted. *)
Theorem generate_cfg_writes_nothing mu filepath objs :
  ((generate_cfg mu filepath objs).2 = None ↔
   find_template mu filepath = None
   ∨ ∃ file template, find_template mu filepath = Some (file, template)
                      ∧ GetNode (section_type mu) template = None)
  ∧ ((generate_cfg mu filepath objs).2 = None →
     (generate_cfg mu filepath objs).1 = mu).
Proof.
  rewrite generate_cfg_run.
  destruct (find_template mu filepath) as [[file template]|].
  - destruct (GetNode (section_type mu) template) eqn:E; cbn.
    + split; [|done]. split; [done|].
      intros [?|(f & t & [= <- <-] & Hn)]; [done|]. by rewrite E in Hn.
    + split; [|done]. split; [|done]. intros _. right. eauto.
  - cbn. split; [|done]. split; [by left|done].
Qed.



End ConfigProperties.

(** ** The model an export leaves *)

Section ExportProperties.
Context `{Collaborators}.

Lemma StronglySorted_seq j n : StronglySorted le (seq j n).
Proof.
  revert j. induction n as [|n IH]; intros j; cbn; constructor; [done|].
  apply Forall_forall. intros x [Hx _]%elem_of_seq. lia.
Qed.

Lemma well_indexed_indices {A} (index : A -> nat) (t : gmap string A) l :
  well_indexed index t → l ≡ₚ (map_to_list t).*2 →
  StronglySorted (λ a b, index a ≤ index b) l →
  index <$> l = seq 0 (size t).
Proof.
  intros (Hlt & Hinj & Hsur) Hperm Hsorted.
  apply (StronglySorted_unique le).
  - eapply StronglySorted_fmap; [|exact Hsorted]. done.
  - apply StronglySorted_seq.
  - apply NoDup_Permutation.
    + rewrite Hperm, <- list_fmap_compose.
      apply NoDup_fmap_2_strong; [|apply NoDup_map_to_list].
      intros [k1 a1] [k2 a2] H1%elem_of_map_to_list H2%elem_of_map_to_list Heq.
      cbn in Heq. pose proof (Hinj _ _ _ _ H1 H2 Heq) as ->. congruence.
    + apply NoDup_seq.
    + intros i. rewrite Hperm, <- list_fmap_compose, elem_of_seq.
      rewrite list_elem_of_fmap. split.
      * intros ([k a] & -> & Hk%elem_of_map_to_list). cbn.
        apply Hlt in Hk. lia.
      * intros [_ Hi]. destruct (Hsur i) as (k & a & Hk & <-); [lia|].
        exists (k, a). by rewrite elem_of_map_to_list.
Qed.

(** A list of the entries of a well-indexed table in the order of
    their indices has the entry of index [i] at position [i]. *)
Lemma listed_positions {A} (index : A -> nat) (t : gmap string A) l :
  well_indexed index t → listed_by_index index t l →
  length l = size t
  ∧ ∀ i a, l !! i = Some a ↔ (∃ k, t !! k = Some a) ∧ index a = i.
Proof.
  intros Hwi [Hperm Hsorted].
  pose proof (well_indexed_indices index t l Hwi Hperm Hsorted) as Hseq.
  assert (∀ i a, l !! i = Some a → index a = i) as Hpos.
  { intros i a Hi.
    assert ((index <$> l) !! i = Some (index a)) as Hl
      by (by rewrite list_lookup_fmap, Hi).
    rewrite Hseq in Hl. apply lookup_seq in Hl. lia. }
  split.
  { by rewrite Hperm, length_fmap, length_map_to_list. }
  intros i a. split.
  - intros Hi. split; [|by apply Hpos].
    assert (a ∈ (map_to_list t).*2) as Ha
      by (rewrite <- Hperm; by eapply list_elem_of_lookup_2).
    apply list_elem_of_fmap in Ha as ([k a'] & -> & Hk%elem_of_map_to_list).
    by exists k.
  - intros [[k Hk] Hidx].
    assert (a ∈ l) as Ha.
    { rewrite Hperm. apply list_elem_of_fmap. exists (k, a).
      by rewrite elem_of_map_to_list. }
    apply list_elem_of_lookup in Ha as [j Hj].
    pose proof (Hpos j a Hj). by simplify_eq.
Qed.


Lemma insert_by_perm {A} (key : A -> nat) x l : insert_by key x l ≡ₚ x :: l.
Proof.
  induction l as [|y l IH]; cbn [insert_by]; [done|].
  destruct (key x <=? key y); [done|]. rewrite IH. apply Permutation_swap.
Qed.

Lemma sort_by_perm {A} (key : A -> nat) l : sort_by key l ≡ₚ l.
Proof.
  induction l as [|x l IH]; [done|].
  change (sort_by key (x :: l)) with (insert_by key x (sort_by key l)).
  by rewrite insert_by_perm, IH.
Qed.

Lemma insert_by_sorted {A} (key : A -> nat) x l :
  StronglySorted (λ a b, key a ≤ key b) l →
  StronglySorted (λ a b, key a ≤ key b) (insert_by key x l).
Proof.
  induction 1 as [|y l Hl IH Hy]; cbn [insert_by].
  { constructor; [constructor|done]. }
  destruct (Nat.leb_spec (key x) (key y)) as [Hle|Hlt].
  - constructor; [by constructor|]. constructor; [done|].
    eapply Forall_impl; [exact Hy|]. intros z Hz. cbn in *. lia.
  - constructor; [done|]. rewrite insert_by_perm.
    constructor; [lia|done].
Qed.

Lemma sort_by_sorted {A} (key : A -> nat) l :
  StronglySorted (λ a b, key a ≤ key b) (sort_by key l).
Proof.
  induction l as [|x l IH]; [constructor|].
  change (sort_by key (x :: l)) with (insert_by key x (sort_by key l)).
  by apply insert_by_sorted.
Qed.

Lemma sort_by_listed {A} (index : A -> nat) (t : gmap string A) :
  listed_by_index index t (sort_by index (map_to_list t).*2).
Proof. split; [apply sort_by_perm|apply sort_by_sorted]. Qed.

Lemma model_ok_empty mu :
  materials mu = ∅ → textures mu = ∅ → model_ok mu.
Proof.
  intros Hm Ht. unfold model_ok. rewrite Hm, Ht.
  split; [apply well_indexed_empty|]. split; [apply well_indexed_empty|].
  split; [by intros k t ?%lookup_empty_Some|by intros k m ?%lookup_empty_Some].
Qed.

Lemma generate_cfg_model mu filepath objs :
  materials (generate_cfg mu filepath objs).1 = materials mu
  ∧ textures (generate_cfg mu filepath objs).1 = textures mu
  ∧ mu_name (generate_cfg mu filepath objs).1 = mu_name mu
  ∧ mu_type (generate_cfg mu filepath objs).1 = mu_type mu.
Proof.
  rewrite generate_cfg_run.
  destruct (find_template mu filepath) as [[f template]|]; [|done].
  destruct (GetNode (section_type mu) template); [|done].
  cbn zeta. by destruct (String.eqb (section_type mu) "PART").
Qed.

(** What is known of the model an export that returns leaves. *)
Lemma export_object_Ok fuel obj filepath w root cfg w' :
  export_object fuel obj filepath w = Ok (root, cfg) w' →
  model_ok (w_mu w')
  ∧ mu_name (w_mu w') = strip_nnn (obj_name (w_objects w obj))
  ∧ mu_type (w_mu w') = prop_modelType (muproperties (w_objects w obj))
  ∧ ∀ tree, root = Some tree →
      tr_name (transform tree) = mu_name (w_mu w')
      ∧ Forall (λ i, material_at (w_mu w') i
                     ∧ i < size (materials (w_mu w')))
               (tree_materials tree).
Proof.
  unfold export_object. intros Hrun.
  apply bind_Ok in Hrun as (o & wa & [= <- <-] & Hrun).
  apply bind_Ok in Hrun as (u & wb & [= <- <-] & Hrun).
  apply bind_Ok in Hrun as (special & wc & Hsp & Hrun).
  destruct (special_modelTypes !! _) as [sp|] eqn:Es; [|done].
  injection Hsp as <- <-.
  pose proof (special_modelTypes_capturing _ _ Es) as Hc.
  pose proof (capturing_keep_tables _ Hc) as Hh.
  apply bind_Ok in Hrun as (r & w2 & Hbuild & Hrun).
  apply bind_Ok in Hrun as (wd & we & [= <- <-] & Hrun).
  destruct (generate_cfg_model (w_mu w2) filepath (w_objects w2))
    as (Hm & Ht & Hn & Hty).
  destruct (generate_cfg (w_mu w2) filepath (w_objects w2)) as [mu' c].
  cbn [fst] in *.
  apply bind_Ok in Hrun as (u2 & wf & [= <- <-] & Hrun).
  apply ret_Ok in Hrun as [[= <- <-] <-].
  match type of Hbuild with
  | make_obj _ _ _ _ ?w0 = _ =>
      pose proof (make_obj_tables_grow fuel sp obj "" Hh w0) as Hgrow;
      pose proof (make_obj_model_grows fuel sp obj "" Hc w0) as Hmodel
  end.
  rewrite Hbuild in Hgrow, Hmodel.
  destruct Hgrow as (_ & _ & Hok). destruct Hmodel as (Hn2 & Hty2 & _).
  assert (model_ok (w_mu w2)) as Hok2 by (by apply Hok, model_ok_empty).
  assert (model_ok mu') as Hok' by (by eapply model_ok_proper).
  cbn in Hn2, Hty2. cbn [w_mu with_mu].
  split; [done|]. split; [congruence|]. split; [congruence|].
  intros tree ->. split.
  - apply make_obj_Some_head in Hbuild as [_ ->]. cbn. congruence.
  - apply (make_obj_materials fuel sp Hh) in Hbuild.
    change (option_list (Some tree)) with [tree] in Hbuild.
    cbn [flat_map] in Hbuild. rewrite app_nil_r in Hbuild.
    eapply Forall_impl; [exact Hbuild|]. intros i (k & m & Hk & <-).
    rewrite <- Hm in Hk. split; [by exists k, m|].
    destruct Hok' as (_ & Hwi & _). by eapply Hwi.
Qed.


(** Property X18.  An export that returns leaves a model that is in
    order, whatever model it was started with: the textures and the
    materials have the indices from 0 on, each once, and every texture
    of a material is in the texture table. The model has the stripped
    name and the type of the exported object, the root of the tree has
    the name of the model, and every material index in a renderer of the
    tree is the index of a material in the table. *)
Theorem export_leaves_model_in_order fuel obj filepath w root cfg w' :
  export_object fuel obj filepath w = Ok (root, cfg) w' →
  model_ok (w_mu w')
  ∧ mu_name (w_mu w') = strip_nnn (obj_name (w_objects w obj))
  ∧ mu_type (w_mu w') = prop_modelType (muproperties (w_objects w obj))
  ∧ ∀ tree, root = Some tree →
      tr_name (transform tree) = mu_name (w_mu w')
      ∧ Forall (λ i, material_at (w_mu w') i
                     ∧ i < size (materials (w_mu w')))
               (tree_materials tree).
Proof. apply export_object_Ok. Qed.

(** Property X17.  The lists an export that returns makes of the two
    tables, their values sorted by index, have as many entries as the
    tables and exactly the entry of index [i] at position [i].  So an
    index is a position: every material index in a renderer of the
    exported tree is a position of the list of materials, where the
    material of that index is, and every texture index in a listed
    material is a position of the list of textures, where the texture
    of that index is. *)
Theorem listed_by_index_positions fuel obj filepath w root cfg w' :
  export_object fuel obj filepath w = Ok (root, cfg) w' →
  let mu := w_mu w' in
  length (materials_list mu) = size (materials mu)
  ∧ length (textures_list mu) = size (textures mu)
  ∧ (∀ i m, materials_list mu !! i = Some m
            ↔ (∃ k, materials mu !! k = Some m) ∧ material_index m = i)
  ∧ (∀ i t, textures_list mu !! i = Some t
            ↔ (∃ k, textures mu !! k = Some t) ∧ tex_index t = i)
  ∧ (∀ tree, root = Some tree →
       Forall (λ i, ∃ m, materials_list mu !! i = Some m
                         ∧ material_index m = i)
              (tree_materials tree))
  ∧ (∀ i m p u, materials_list mu !! i = Some m →
       textureProperties m !! p = Some u →
       ∃ t, textures_list mu !! mattex_index u = Some t
            ∧ tex_index t = mattex_index u).
Proof.
  intros Hrun mu.
  destruct (export_object_Ok _ _ _ _ _ _ _ Hrun) as (Hok & _ & _ & Htree).
  fold mu in Hok, Htree.
  destruct Hok as (Hwt & Hwm & _ & Hrefs).
  destruct (listed_positions material_index (materials mu) (materials_list mu)
              Hwm (sort_by_listed _ _)) as [Hlm Hpm].
  destruct (listed_positions tex_index (textures mu) (textures_list mu)
              Hwt (sort_by_listed _ _)) as [Hlt Hpt].
  split; [done|]. split; [done|]. split; [done|]. split; [done|]. split.
  - intros tree ->. eapply Forall_impl; [exact (proj2 (Htree tree eq_refl))|].
    intros i [(k & m & Hk & Hi) _]. exists m. split; [|done].
    apply Hpm. split; [by exists k|done].
  - intros i m p u Hm Hu. apply Hpm in Hm as [[k Hk] _].
    destruct (proj2 (Hrefs k m Hk) p u Hu) as (kt & t & Hkt & Hi).
    exists t. split; [|done]. apply Hpt. split; [by exists kt|done].
Qed.

End ExportProperties.

(** ** Paths, order and the hemi light *)

Section OrderProperties.
Context `{Collaborators}.

(** Property X10.  The build of a hemi light that is not a collider
    owner raises [ValueError]: the node was counted and entered in the
    path index, and nothing else was done. *)
Theorem hemi_light_aborts_the_build fuel special obj path w l :
  data (w_objects w obj) = Some (DLight l) → light_type l = HEMI →
  has_collider (w_objects w obj) = false →
  make_obj (S fuel) special obj path w = Raise ValueError (registered path obj w).
Proof.
  intros Hd Hl Hc. rewrite make_obj_S. unfold make_obj_body, make_tail, bind.
  rewrite make_head_run.
  cbn [get_object registered with_mu with_next w_objects].
  unfold make_empty. rewrite Hd. cbn [ret].
  unfold make_role. rewrite Hd, Hc. cbn [make_data]. unfold bind, make_light.
  by rewrite Hl.
Qed.

(** Property X19.  Below one parent path, nodes of different names get
    different paths. *)
Theorem extend_path_inj path a b :
  extend_path path a = extend_path path b → a = b.
Proof. unfold extend_path. apply append_inv_head. Qed.

(** Property X20.  Extending a path by two names, one after the other,
    gives the path that one name with the slash in it gives: a slash in
    a name is not told apart from the slash between two names. *)
Theorem extend_path_twice path a b :
  a ≠ "" →
  extend_path (extend_path path a) b = extend_path path (a +:+ "/" +:+ b).
Proof.
  intros Ha. unfold extend_path at 1. unfold truthy at 1.
  destruct (String.eqb_spec (extend_path path a) "") as [Heq|_].
  { unfold extend_path in Heq. by apply append_empty in Heq. }
  cbn [negb]. unfold extend_path. by rewrite !append_assoc.
Qed.

(** *** The order of the children *)

Lemma object_names_scene w w' os :
  same_scene w w' → object_names w' os = object_names w os.
Proof.
  intros [_ Ho]. unfold object_names. apply list_fmap_ext. intros i o _.
  by destruct (static_eq_fields _ _ (Ho o)) as (-> & _).
Qed.

Section NameLoops.
Variable rec : nat -> string -> M (option MuObject).
Variable special : gmap string Handler.
Variable fuel : nat.
Variable w0 : World.
Hypothesis rec_scene : ∀ o p, keeps same_scene (rec o p).
Hypothesis rec_name : ∀ o p w n w',
  rec o p w = Ok (Some n) w' →
  tr_name (transform n) = strip_nnn (obj_name (w_objects w o)).

Lemma rec_name0 o p w child w' :
  same_scene w0 w → rec o p w = Ok child w' →
  same_scene w0 w'
  ∧ node_names (option_list child) `sublist_of` object_names w0 [o].
Proof.
  intros Hs Hrun. split.
  - pose proof (rec_scene o p w) as Hk. rewrite Hrun in Hk.
    by eapply same_scene_trans.
  - destruct child as [n|]; [|apply sublist_nil_l].
    apply rec_name in Hrun. cbn. rewrite Hrun.
    destruct Hs as [_ Ho].
    by destruct (static_eq_fields _ _ (Ho o)) as (-> & _).
Qed.

Lemma added_child muobj child (added : list MuObject) m :
  mu_children m =
    mu_children (match child with
                 | Some c => append_child c muobj
                 | None => muobj
                 end) ++ added →
  mu_children m = mu_children muobj ++ option_list child ++ added.
Proof.
  intros ->. destruct child; cbn; [by rewrite <- app_assoc|done].
Qed.

Lemma object_children_names path os : ∀ muobj w m w',
  same_scene w0 w →
  object_children rec special path os muobj w = Ok m w' →
  ∃ added, mu_children m = mu_children muobj ++ added
           ∧ node_names added `sublist_of` object_names w0 os.
Proof.
  induction os as [|o os IH]; intros muobj w m w' Hs Hrun.
  { apply ret_Ok in Hrun as [<- <-]. exists []. by rewrite app_nil_r. }
  rewrite object_children_cons in Hrun. lazy zeta in Hrun.
  assert (∀ mo w1, same_scene w0 w1 → mu_children mo = mu_children muobj →
            object_children rec special path os mo w1 = Ok m w' →
            ∃ added, mu_children m = mu_children muobj ++ added
                     ∧ node_names added `sublist_of` object_names w0 (o :: os))
    as Hskip.
  { intros mo w1 Hs1 Hmo Hr. apply IH in Hr as (added & Hk & Hsub); [|done].
    exists added. rewrite <- Hmo. split; [done|]. by apply sublist_cons. }
  assert (∀ w1 : World, same_scene w0 w1 →
    (if has_collider (w_objects w o)
     then object_children rec special path os
            (set_collider (make_collider (w_objects w o)) muobj) w1
     else if match data (w_objects w o) with
             | Some d => negb (exportable d)
             | None => false
             end
     then object_children rec special path os muobj w1
     else match rec o path w1 with
          | Ok child w2 =>
              object_children rec special path os
                (match child with
                 | Some n => append_child n muobj
                 | None => muobj
                 end) w2
          | Raise e w2 => Raise e w2
          | OutOfFuel => OutOfFuel
          end) = Ok m w' →
    ∃ added, mu_children m = mu_children muobj ++ added
             ∧ node_names added `sublist_of` object_names w0 (o :: os))
    as Hpass.
  { intros w1 Hs1 Hpass.
    destruct (has_collider _); [by eapply (Hskip _ w1 Hs1); [|exact Hpass]|].
    destruct (match data _ with Some _ => _ | None => _ end);
      [by eapply (Hskip _ w1 Hs1); [|exact Hpass]|].
    destruct (rec o path w1) as [child w2| |] eqn:Erec; [|done|done].
    destruct (rec_name0 _ _ _ _ _ Hs1 Erec) as [Hs2 Hname].
    apply IH in Hpass as (added & Hk & Hsub); [|done].
    apply added_child in Hk. eexists. split; [exact Hk|].
    unfold node_names. rewrite fmap_app.
    change (object_names w0 (o :: os))
      with (object_names w0 [o] ++ object_names w0 os).
    by apply sublist_app. }
  destruct (special !! _) as [h|]; [|by apply (Hpass w)].
  assert (same_scene w0 (with_mu (h (w_mu w) o).1 w)) as Hs1.
  { eapply same_scene_trans; [exact Hs|]. by apply same_scene_store. }
  destruct (h (w_mu w) o).2;
    [by eapply (Hskip _ _ Hs1); [|exact Hrun]|by eapply (Hpass _ Hs1)].
Qed.

Lemma group_children_names group path os : ∀ muobj w m w',
  same_scene w0 w →
  group_children rec fuel group path os muobj w = Ok m w' →
  ∃ added, mu_children m = mu_children muobj ++ added
           ∧ node_names added `sublist_of` object_names w0 os.
Proof.
  induction os as [|o os IH]; intros muobj w m w' Hs Hrun.
  { apply ret_Ok in Hrun as [<- <-]. exists []. by rewrite app_nil_r. }
  rewrite group_children_cons in Hrun.
  destruct (is_group_root _ _ _ _) as [[]|]; [| |done].
  - assert (same_scene w0 (shifted o group w)) as Hs1.
    { eapply same_scene_trans; [exact Hs|]. apply same_scene_location. }
    destruct (rec o path _) as [child w1| |] eqn:Erec; [|done|done].
    destruct (rec_name0 _ _ _ _ _ Hs1 Erec) as [Hs2 Hname].
    apply IH in Hrun as (added & Hk & Hsub).
    + apply added_child in Hk. eexists. split; [exact Hk|].
      unfold node_names. rewrite fmap_app.
      change (object_names w0 (o :: os))
        with (object_names w0 [o] ++ object_names w0 os).
      by apply sublist_app.
    + eapply same_scene_trans; [exact Hs2|]. apply same_scene_location.
  - apply IH in Hrun as (added & Hk & Hsub); [|done].
    exists added. split; [done|]. by apply sublist_cons.
Qed.

Lemma make_obj_body_names obj path w node w' :
  same_scene w0 w →
  make_obj_body rec special fuel obj path w = Ok (Some node) w' →
  let o := w_objects w obj in
  ∃ roots kids,
    mu_children node = roots ++ kids
    ∧ node_names kids `sublist_of` object_names w0 (children o)
    ∧ match data o, dupli_group o with
      | None, Some g =>
          node_names roots
            `sublist_of` object_names w0 (group_objects (w_groups w g))
      | _, _ => roots = []
      end.
Proof.
  intros Hs Hrun o.
  apply make_obj_body_Ok in Hrun as (kept & w1 & Hempty & Hrest).
  apply make_empty_Ok in Hempty as (_ & Hsome & Ho1 & Hg1 & _).
  destruct kept as [m1|]; [|by destruct Hrest].
  destruct Hrest as (m2 & w2 & m3 & Hrole & Hkids & [= ->]).
  assert (mu_children m1 = []) as Hm1.
  { rewrite (Hsome m1 eq_refl). by destruct (is_attach_marker _). }
  assert (same_scene w0 w1) as Hs1.
  { eapply same_scene_trans; [exact Hs|]. by apply same_scene_store. }
  assert (same_scene w0 w2) as Hs2.
  { pose proof (make_role_same_scene rec fuel (w_objects w obj)
                  (node_path path (w_objects w obj)) m1 rec_scene w1) as Hk.
    rewrite Hrole in Hk. by eapply same_scene_trans. }
  apply object_children_names in Hkids as (kids & Hk & Hsub); [|done].
  assert (∃ roots, mu_children m2 = roots
            ∧ match data o, dupli_group o with
              | None, Some g =>
                  node_names roots
                    `sublist_of` object_names w0 (group_objects (w_groups w g))
              | _, _ => roots = []
              end) as (roots & Hr & Hroots).
  { unfold make_role in Hrole. fold o in Hrole.
    assert ((if has_collider o then ret m1
             else match data o with
                  | Some d => make_data d o m1
                  | None => ret m1
                  end) w1 = Ok m2 w2 → mu_children m2 = []) as Hplain.
    { intros Hp. rewrite <- Hm1.
      destruct (has_collider o); [by apply ret_Ok in Hp as [<- _]|].
      destruct (data o) as [d|]; [|by apply ret_Ok in Hp as [<- _]].
      by apply make_data_Ok in Hp as (_ & -> & _). }
    destruct (data o) as [d|].
    { exists []. split; [by apply Hplain|done]. }
    destruct (dupli_group o) as [g|].
    - ok_step Hrole. injection Hrun as <- <-.
      apply group_children_names in Hrole as (added & Hka & Hsa); [|done].
      rewrite Hm1 in Hka. cbn in Hka, Hg1. exists added. split; [done|].
      by rewrite Hg1 in Hsa.
    - exists []. split; [by apply Hplain|done]. }
  exists roots, kids. rewrite Hk, Hr. by repeat split.
Qed.

End NameLoops.

Lemma make_obj_names fuel special obj path w node w' :
  make_obj fuel special obj path w = Ok (Some node) w' →
  ∃ roots kids,
    mu_children node = roots ++ kids
    ∧ node_names kids
        `sublist_of` object_names w (children (w_objects w obj))
    ∧ match data (w_objects w obj), dupli_group (w_objects w obj) with
      | None, Some g =>
          node_names roots
            `sublist_of` object_names w (group_objects (w_groups w g))
      | _, _ => roots = []
      end.
Proof.
  intros Hrun. destruct fuel as [|fuel]; [done|].
  rewrite make_obj_S in Hrun.
  eapply (make_obj_body_names (make_obj fuel special) special fuel w);
    [| |apply same_scene_refl|exact Hrun].
  - intros o p. apply make_obj_same_scene.
  - intros o p w1 n w2 Hr. by apply make_obj_Some_head in Hr as [_ ?].
Qed.

End OrderProperties.

(** ** Nodes: position, capture and offsets *)

Section NodeProperties.
Context `{Collaborators}.

Lemma make_data_transform d o m w m2 w2 :
  make_data d o m w = Ok m2 w2 →
  localPosition (transform m2) = localPosition (transform m)
  ∧ localScale (transform m2) = localScale (transform m).
Proof.
  destruct d as [mesh|l|c|]; cbn [make_data]; intros Hrun.
  - ok_step Hrun. by apply ret_Ok in Hrun as [<- _].
  - ok_step Hrun. by apply ret_Ok in Hrun as [<- _].
  - by apply ret_Ok in Hrun as [<- _].
  - by apply ret_Ok in Hrun as [<- _].
Qed.

Lemma make_role_transform rec fuel o p m w m2 w2 :
  make_role rec fuel o p m w = Ok m2 w2 →
  localPosition (transform m2) = localPosition (transform m)
  ∧ localScale (transform m2) = localScale (transform m).
Proof.
  unfold make_role. intros Hrun.
  assert ((if has_collider o then ret m
           else match data o with
                | Some d => make_data d o m
                | None => ret m
                end) w = Ok m2 w2 →
          localPosition (transform m2) = localPosition (transform m)
          ∧ localScale (transform m2) = localScale (transform m)) as Hplain.
  { intros Hp. destruct (has_collider o); [by apply ret_Ok in Hp as [<- _]|].
    destruct (data o) as [d|]; [|by apply ret_Ok in Hp as [<- _]].
    by eapply make_data_transform. }
  destruct (data o) as [d|]; [by apply Hplain|].
  destruct (dupli_group o) as [g|]; [|by apply Hplain].
  ok_step Hrun.
  by apply group_children_head in Hrun as [(_ & <- & _) _].
Qed.

Lemma make_obj_transform fuel special obj path w node w' :
  make_obj fuel special obj path w = Ok (Some node) w' →
  localPosition (transform node) =
    (if live_vectors then LocationOf obj
     else Copy (location (w_objects w obj)))
  ∧ localScale (transform node) = scale (w_objects w obj).
Proof.
  intros Hrun. destruct fuel as [|fuel]; [done|].
  rewrite make_obj_S in Hrun.
  apply make_obj_body_Ok in Hrun as (kept & w1 & Hempty & Hrest).
  apply make_empty_Ok in Hempty as (_ & Hsome & _).
  destruct kept as [m1|]; [|by destruct Hrest].
  destruct Hrest as (m2 & w2 & m3 & Hrole & Hkids & [= ->]).
  apply make_role_transform in Hrole as [Hp Hs].
  apply object_children_head in Hkids as (_ & <- & _).
  rewrite Hp, Hs, (Hsome m1 eq_refl). by destruct (is_attach_marker _).
Qed.

(** Property X22.  The position and the scale of a node are the location
    and the scale of its object, copied through: the location as it is
    when the build of the object starts, or the live view on it. *)
Theorem node_carries_object_transform fuel special obj path w node w' :
  make_obj fuel special obj path w = Ok (Some node) w' →
  localPosition (transform node) =
    (if live_vectors then LocationOf obj
     else Copy (location (w_objects w obj)))
  ∧ localScale (transform node) = scale (w_objects w obj).
Proof. apply make_obj_transform. Qed.

Lemma settled_refl w : settled w w.
Proof. by repeat split. Qed.

Lemma settled_trans a b c : settled a b → settled b c → settled a c.
Proof.
  intros (Ho1 & Hg1 & Hi1) (Ho2 & Hg2 & Hi2).
  split; [intros i; by rewrite Ho2|]. split; congruence.
Qed.

Lemma make_obj_settled fuel special obj path w r w' :
  live_vectors = false → capturing special →
  make_obj fuel special obj path w = Ok r w' → settled w w'.
Proof.
  intros Hcopy Hc Hrun. split; [by eapply make_obj_restores|]. split.
  - pose proof (make_obj_same_scene fuel special obj path w) as Hk.
    rewrite Hrun in Hk. apply Hk.
  - pose proof (make_obj_model_grows fuel special obj path Hc w) as Hk.
    rewrite Hrun in Hk. by destruct Hk as (_ & _ & Hi & _).
Qed.

(** A build returns no node for a marker that declines to keep its
    transform, and for nothing else; the node it returns has the name,
    the location and the scale of the object. *)
Lemma make_obj_node fuel special obj path w r w' :
  live_vectors = false →
  make_obj fuel special obj path w = Ok r w' →
  match r with
  | None => declines (w_objects w obj) (inverse (w_mu w)) = true
  | Some n => declines (w_objects w obj) (inverse (w_mu w)) = false
              ∧ node_of (w_objects w obj) n
  end.
Proof.
  intros Hcopy Hrun.
  assert (r = None ↔ declines (w_objects w obj) (inverse (w_mu w)) = true)
    as Hdec.
  { destruct fuel as [|fuel]; [done|]. pose proof Hrun as Hb.
    rewrite make_obj_S in Hb.
    apply make_obj_body_Ok in Hb as (kept & w1 & Hempty & Hrest).
    apply make_empty_Ok in Hempty as (Hnone & _). cbn in Hnone.
    rewrite <- Hnone. destruct kept as [m1|].
    - destruct Hrest as (m2 & w2 & m3 & _ & _ & ->). by split.
    - by destruct Hrest as [-> _]. }
  destruct r as [n|]; [|by apply Hdec]. split.
  - apply not_true_is_false. intros Hd. by apply Hdec in Hd.
  - pose proof (make_obj_Some_head _ _ _ _ _ _ _ Hrun) as [_ Hname].
    pose proof (make_obj_transform _ _ _ _ _ _ _ Hrun) as [Hpos Hscale].
    rewrite Hcopy in Hpos. by repeat split.
Qed.

Section ExactLoops.
Hypothesis copies : live_vectors = false.
Variable rec : nat -> string -> M (option MuObject).
Variable special : gmap string Handler.
Variable fuel : nat.
Variable w0 : World.
Hypothesis special_capturing : capturing special.
Hypothesis rec_settled : ∀ o p w r w', rec o p w = Ok r w' → settled w w'.
Hypothesis rec_node : ∀ o p w r w',
  rec o p w = Ok r w' →
  match r with
  | None => declines (w_objects w o) (inverse (w_mu w)) = true
  | Some n => declines (w_objects w o) (inverse (w_mu w)) = false
              ∧ node_of (w_objects w o) n
  end.

Lemma object_children_exact path os : ∀ muobj w m w',
  settled w0 w →
  object_children rec special path os muobj w = Ok m w' →
  settled w0 w'
  ∧ ∃ added,
      mu_children m = mu_children muobj ++ added
      ∧ Forall2 node_of
          (w_objects w0
             <$> filter (λ c, child_built special (inverse (w_mu w0))
                                (w_objects w0 c) = true) os)
          added.
Proof.
  induction os as [|o os IH]; intros muobj w m w' Hs Hrun.
  { apply ret_Ok in Hrun as [<- <-]. split; [done|]. exists [].
    rewrite app_nil_r. split; [done|constructor]. }
  rewrite object_children_cons in Hrun. lazy zeta in Hrun.
  pose proof Hs as (Ho & Hg & Hi). rewrite (Ho o) in Hrun.
  assert (∀ mo w1, settled w0 w1 → mu_children mo = mu_children muobj →
            child_built special (inverse (w_mu w0)) (w_objects w0 o) = false →
            object_children rec special path os mo w1 = Ok m w' →
            settled w0 w'
            ∧ ∃ added,
                mu_children m = mu_children muobj ++ added
                ∧ Forall2 node_of
                    (w_objects w0
                       <$> filter (λ c, child_built special (inverse (w_mu w0))
                                          (w_objects w0 c) = true) (o :: os))
                    added) as Hskip.
  { intros mo w1 Hs1 Hmo Hk Hr.
    apply IH in Hr as (Hs' & added & Hch & Hall); [|done].
    split; [done|]. exists added. rewrite <- Hmo. split; [done|].
    rewrite filter_cons_False by congruence. done. }
  assert (∀ w1 : World, settled w0 w1 →
    special !! prop_modelType (muproperties (w_objects w0 o)) = None →
    (if has_collider (w_objects w0 o)
     then object_children rec special path os
            (set_collider (make_collider (w_objects w0 o)) muobj) w1
     else if match data (w_objects w0 o) with
             | Some d => negb (exportable d)
             | None => false
             end
     then object_children rec special path os muobj w1
     else match rec o path w1 with
          | Ok child w2 =>
              object_children rec special path os
                (match child with
                 | Some n => append_child n muobj
                 | None => muobj
                 end) w2
          | Raise e w2 => Raise e w2
          | OutOfFuel => OutOfFuel
          end) = Ok m w' →
    settled w0 w'
    ∧ ∃ added,
        mu_children m = mu_children muobj ++ added
        ∧ Forall2 node_of
            (w_objects w0
               <$> filter (λ c, child_built special (inverse (w_mu w0))
                                  (w_objects w0 c) = true) (o :: os))
            added) as Hpass.
  { intros w1 Hs1 Hnone Hpass. unfold child_built in Hskip.
    rewrite Hnone in Hskip.
    destruct (has_collider (w_objects w0 o)) eqn:Ec.
    { by eapply (Hskip _ w1 Hs1); [| |exact Hpass]. }
    destruct (data (w_objects w0 o)) as [d|] eqn:Ed.
    - destruct (exportable d) eqn:Ee; cbn [negb] in Hpass.
      2:{ by eapply (Hskip _ w1 Hs1); [| |exact Hpass]. }
      destruct (rec o path w1) as [child w2| |] eqn:Erec; [|done|done].
      pose proof (rec_settled _ _ _ _ _ Erec) as Hs2.
      pose proof (rec_node _ _ _ _ _ Erec) as Hn.
      destruct Hs1 as (Ho1 & Hg1 & Hi1). rewrite Ho1, Hi1 in Hn.
      assert (settled w0 w2) as Hs02
        by (eapply settled_trans; [|exact Hs2]; by repeat split).
      destruct child as [n|].
      + destruct Hn as [Hd Hnode].
        apply IH in Hpass as (Hs' & added & Hch & Hall); [|done].
        split; [done|]. exists (n :: added). split.
        { rewrite Hch. cbn. by rewrite <- app_assoc. }
        rewrite filter_cons_True
          by (unfold child_built; by rewrite Hnone, Ec, Ed, Ee, Hd).
        rewrite fmap_cons. by constructor.
      + eapply (Hskip _ w2 Hs02); [done| |exact Hpass].
        rewrite Hn. by rewrite andb_false_r.
    - destruct (rec o path w1) as [child w2| |] eqn:Erec; [|done|done].
      pose proof (rec_settled _ _ _ _ _ Erec) as Hs2.
      pose proof (rec_node _ _ _ _ _ Erec) as Hn.
      destruct Hs1 as (Ho1 & Hg1 & Hi1). rewrite Ho1, Hi1 in Hn.
      assert (settled w0 w2) as Hs02
        by (eapply settled_trans; [|exact Hs2]; by repeat split).
      destruct child as [n|].
      + destruct Hn as [Hd Hnode].
        apply IH in Hpass as (Hs' & added & Hch & Hall); [|done].
        split; [done|]. exists (n :: added). split.
        { rewrite Hch. cbn. by rewrite <- app_assoc. }
        rewrite filter_cons_True
          by (unfold child_built; by rewrite Hnone, Ec, Ed, Hd).
        rewrite fmap_cons. by constructor.
      + eapply (Hskip _ w2 Hs02); [done| |exact Hpass].
        rewrite Hn. by rewrite andb_false_r. }
  destruct (special !! prop_modelType (muproperties (w_objects w0 o)))
    as [h|] eqn:Eh; [|by apply (Hpass w)].
  assert ((h (w_mu w) o).2 = true) as Hcl
    by (by destruct (special_capturing _ _ Eh) as [-> | ->]).
  rewrite Hcl in Hrun. eapply Hskip; [|done| |exact Hrun].
  - split; [done|]. split; [done|]. cbn. rewrite <- Hi.
    by destruct (model_grows_handler special w _ h o special_capturing Eh)
      as (_ & _ & ? & _).
  - unfold child_built. by rewrite Eh.
Qed.

Lemma group_children_exact group path os : ∀ muobj w m w',
  settled w0 w →
  group_children rec fuel group path os muobj w = Ok m w' →
  settled w0 w'
  ∧ ∃ added,
      mu_children m = mu_children muobj ++ added
      ∧ Forall2 node_of
          ((λ o, moved group (w_objects w0 o))
             <$> filter (λ o, root_built fuel (w_objects w0) group
                                (inverse (w_mu w0)) o = true) os)
          added.
Proof.
  induction os as [|o os IH]; intros muobj w m w' Hs Hrun.
  { apply ret_Ok in Hrun as [<- <-]. split; [done|]. exists [].
    rewrite app_nil_r. split; [done|constructor]. }
  rewrite group_children_cons in Hrun.
  pose proof Hs as (Ho & Hg & Hi).
  assert (is_group_root fuel (w_objects w) o group
          = is_group_root fuel (w_objects w0) o group) as Hroot.
  { apply is_group_root_static. intros i. rewrite Ho. apply static_eq_refl. }
  rewrite Hroot in Hrun.
  destruct (is_group_root fuel (w_objects w0) o group) as [[]|] eqn:Er;
    [| |done].
  - destruct (rec o path _) as [child w1| |] eqn:Erec; [|done|done].
    pose proof (rec_settled _ _ _ _ _ Erec) as (Ho1 & Hg1 & Hi1).
    pose proof (rec_node _ _ _ _ _ Erec) as Hn.
    assert (w_objects (shifted o group w) o = moved group (w_objects w0 o))
      as Hmoved.
    { unfold shifted, moved. cbn. unfold update.
      by rewrite Nat.eqb_refl, Ho. }
    rewrite Hmoved in Hn.
    change (inverse (w_mu (shifted o group w))) with (inverse (w_mu w)) in Hn.
    rewrite Hi in Hn. rewrite copies in Hrun.
    apply IH in Hrun as (Hs' & added & Hch & Hall).
    + split; [done|]. destruct child as [n|].
      * destruct Hn as [Hd Hnode]. exists (n :: added). split.
        { rewrite Hch. cbn. by rewrite <- app_assoc. }
        rewrite filter_cons_True
          by (unfold root_built; by rewrite Er, Hd).
        rewrite fmap_cons. by constructor.
      * exists added. split; [done|].
        rewrite filter_cons_False; [done|].
        unfold root_built. by rewrite Er, Hn.
    + split; [|split].
      * intros i. cbn. unfold update.
        destruct (Nat.eqb_spec i o) as [->|Hne].
        { rewrite Ho1, Hmoved, Ho. unfold moved. apply set_location_back. }
        rewrite Ho1. unfold shifted. cbn. unfold update.
        destruct (Nat.eqb_spec i o); [done|apply Ho].
      * cbn. rewrite Hg1. exact Hg.
      * cbn. rewrite Hi1. exact Hi.
  - apply IH in Hrun as (Hs' & added & Hch & Hall); [|done].
    split; [done|]. exists added. split; [done|].
    rewrite filter_cons_False; [done|].
    unfold root_built. by rewrite Er.
Qed.

End ExactLoops.

(** The child nodes of a node, one for one: the group roots that are
    built, then the children that are built. *)
Lemma make_obj_children fuel special obj path w node w' :
  live_vectors = false → capturing special →
  make_obj (S fuel) special obj path w = Ok (Some node) w' →
  ∃ roots kids,
    mu_children node = roots ++ kids
    ∧ Forall2 node_of (group_part fuel w obj) roots
    ∧ Forall2 node_of (child_part special w obj) kids.
Proof.
  intros Hcopy Hc Hrun. rewrite make_obj_S in Hrun.
  apply make_obj_body_Ok in Hrun as (kept & w1 & Hempty & Hrest).
  apply make_empty_Ok in Hempty
    as (_ & Hsome & Ho1 & Hg1 & _ & _ & _ & _ & Hi1).
  cbn in Ho1, Hg1, Hi1.
  destruct kept as [m1|]; [|by destruct Hrest].
  destruct Hrest as (m2 & w2 & m3 & Hrole & Hkids & [= ->]).
  assert (mu_children m1 = []) as Hm1.
  { rewrite (Hsome m1 eq_refl). by destruct (is_attach_marker _). }
  assert (settled w w1) as Hs1 by (split; [intros i; by rewrite Ho1|done]).
  assert (∀ o p wa r wb, make_obj fuel special o p wa = Ok r wb →
                         settled wa wb) as Hrs
    by (intros o p wa r wb Hr; by eapply make_obj_settled).
  assert (∀ o p wa r wb, make_obj fuel special o p wa = Ok r wb →
            match r with
            | None => declines (w_objects wa o) (inverse (w_mu wa)) = true
            | Some n => declines (w_objects wa o) (inverse (w_mu wa)) = false
                        ∧ node_of (w_objects wa o) n
            end) as Hrn
    by (intros o p wa r wb Hr; by eapply make_obj_node).
  assert (settled w w2
          ∧ Forall2 node_of (group_part fuel w obj) (mu_children m2))
    as [Hs2 Hroots].
  { unfold make_role in Hrole. unfold group_part, group_roots.
    assert ((if has_collider (w_objects w obj) then ret m1
             else match data (w_objects w obj) with
                  | Some d => make_data d (w_objects w obj) m1
                  | None => ret m1
                  end) w1 = Ok m2 w2 →
            settled w w2 ∧ mu_children m2 = []) as Hplain.
    { intros Hp. rewrite <- Hm1.
      destruct (has_collider (w_objects w obj));
        [by apply ret_Ok in Hp as [<- <-]|].
      destruct (data (w_objects w obj)) as [d|];
        [|by apply ret_Ok in Hp as [<- <-]].
      apply make_data_Ok in Hp
        as (_ & Hch & _ & _ & _ & _ & _ & Ho2 & Hg2 & _ & Hres).
      split; [|done]. eapply settled_trans; [exact Hs1|].
      split; [intros i; by rewrite Ho2|]. split; [done|].
      by destruct Hres as (_&_&_&_&_&_&_&_&_&?). }
    destruct (data (w_objects w obj)) as [d|].
    { destruct (Hplain Hrole) as [? ->]. split; [done|].
      destruct (dupli_group _); constructor. }
    destruct (dupli_group (w_objects w obj)) as [g|].
    - ok_step Hrole. injection Hrun as <- <-. rewrite Hg1 in Hrole.
      apply (group_children_exact Hcopy (make_obj fuel special) fuel w
               Hrs Hrn) in Hrole as (Hs2 & added & Hch & Hall); [|done].
      rewrite Hm1 in Hch. cbn in Hch. by rewrite Hch.
    - destruct (Hplain Hrole) as [? ->]. split; [done|constructor]. }
  apply (object_children_exact (make_obj fuel special) special w
           Hc Hrs Hrn) in Hkids as (_ & kids & Hch & Hall); [|done].
  exists (mu_children m2), kids. done.
Qed.

(** Property X21.  The child nodes of a node come in the order of the
    scene: first, for a group instance, nodes of objects of the group,
    in the order of [group.objects], then nodes of children of the
    object, in the order of [obj.children]; an object has at most one
    node in its place, and no node is there for anything else.  When
    the host hands out locations as values of their own and the
    handlers are the two of the exporter, the child nodes are, one for
    one and in this order, the nodes of the group roots that are built,
    moved by the offset of the group, and of the children that are
    built: each child node has the stripped name, the location and the
    scale of the object at its place. *)
Theorem children_in_authoring_order fuel special obj path w node w' :
  make_obj (S fuel) special obj path w = Ok (Some node) w' →
  (∃ roots kids,
     mu_children node = roots ++ kids
     ∧ node_names kids
         `sublist_of` object_names w (children (w_objects w obj))
     ∧ match data (w_objects w obj), dupli_group (w_objects w obj) with
       | None, Some g =>
           node_names roots
             `sublist_of` object_names w (group_objects (w_groups w g))
       | _, _ => roots = []
       end)
  ∧ (live_vectors = false → capturing special →
     Forall2 node_of (group_part fuel w obj ++ child_part special w obj)
             (mu_children node)).
Proof.
  intros Hrun. split; [by eapply make_obj_names|].
  intros Hcopy Hc.
  destruct (make_obj_children _ _ _ _ _ _ _ Hcopy Hc Hrun)
    as (roots & kids & -> & Hroots & Hkids).
  by apply Forall2_app.
Qed.

(** Property X23.  When the host hands out locations as values of their
    own and the handlers are the two of the exporter, the children of
    the node of a group instance begin with one node for each root of
    the group that is built, in the order of [group.objects]: it has
    the name of the root and, as its position, the location of the root
    with the offset of the group taken off.  What follows are the nodes
    of the children of the instance that are built, one for each. *)
Theorem group_root_nodes_are_shifted fuel special obj path w node w' g :
  live_vectors = false → capturing special →
  data (w_objects w obj) = None → dupli_group (w_objects w obj) = Some g →
  make_obj (S fuel) special obj path w = Ok (Some node) w' →
  ∃ roots kids,
    mu_children node = roots ++ kids
    ∧ Forall2 (λ o n,
        tr_name (transform n) = strip_nnn (obj_name (w_objects w o))
        ∧ localPosition (transform n) =
            Copy (vec_sub (location (w_objects w o))
                          (dupli_offset (w_groups w g))))
        (filter (λ o, root_built fuel (w_objects w) (w_groups w g)
                        (inverse (w_mu w)) o = true)
                (group_objects (w_groups w g)))
        roots
    ∧ length kids = length (child_part special w obj).
Proof.
  intros Hcopy Hc Hd Hg Hrun.
  destruct (make_obj_children _ _ _ _ _ _ _ Hcopy Hc Hrun)
    as (roots & kids & Hch & Hroots & Hkids).
  exists roots, kids. split; [done|]. split.
  - unfold group_part, group_roots in Hroots. rewrite Hd, Hg in Hroots.
    rewrite Forall2_fmap_l in Hroots.
    eapply Forall2_impl; [exact Hroots|].
    intros o n (Hname & Hpos & _). cbn in Hname, Hpos.
    unfold moved in Hname, Hpos. rewrite Hname, Hpos.
    by destruct (w_objects w o).
  - symmetry. by eapply Forall2_length.
Qed.

(** Property X24.  A child that a special handler of the model type
    claims is not built and gives no collider: the loop goes on with the
    model as the handler left it and with the node as it was. *)
Theorem claimed_child_is_not_built rec special path c rest muobj w
    (h : Handler) :
  special !! prop_modelType (muproperties (w_objects w c)) = Some h →
  (h (w_mu w) c).2 = true →
  object_children rec special path (c :: rest) muobj w =
  object_children rec special path rest muobj (with_mu (h (w_mu w) c).1 w).
Proof.
  intros Hh Hclaim. rewrite object_children_cons. lazy zeta.
  by rewrite Hh, Hclaim.
Qed.

(** Property X25.  An object without data whose stripped name is one of
    [CoMOffset], [CoPOffset] and [CoLOffset] sets that offset of the
    model, and no other, to its position relative to the model; it stays
    in the tree as a node, without a correction of its rotation, and
    adds no attachment node. *)
Theorem offset_marker_sets_its_offset o m w name :
  data o = None → strip_nnn (obj_name o) = name →
  name ∈ ["CoMOffset"; "CoPOffset"; "CoLOffset"] →
  ∃ mu',
    make_empty o m w = Ok (Some m) (with_mu mu' w)
    ∧ nodes mu' = nodes (w_mu w)
    ∧ let v := Some (model_position (inverse (w_mu w)) (matrix_world o)) in
      CoMOffset mu' = (if decide (name = "CoMOffset") then v
                       else CoMOffset (w_mu w))
      ∧ CoPOffset mu' = (if decide (name = "CoPOffset") then v
                         else CoPOffset (w_mu w))
      ∧ CoLOffset mu' = (if decide (name = "CoLOffset") then v
                         else CoLOffset (w_mu w)).
Proof.
  intros Hd Hn Hin. unfold make_empty. rewrite Hd, Hn.
  eexists (set_offset name _ (w_mu w)).
  rewrite !elem_of_cons, elem_of_nil in Hin.
  destruct Hin as [->|[->|[->|[]]]]; by repeat split.
Qed.

End NodeProperties.

(** ** Parts *)

Section PartProperties.
Context `{PartHost}.

Lemma str_replace_get a b s :
  a ≠ b → ∀ i, String.get i (str_replace a b s) ≠ Some a.
Proof.
  intros Hne. induction s as [|c s IH]; intros i; [by destruct i|].
  destruct i as [|i]; cbn [str_replace String.get]; [|apply IH].
  destruct (Ascii.eqb_spec c a); congruence.
Qed.

Lemma str_replace_length a b s :
  String.length (str_replace a b s) = String.length s.
Proof. induction s as [|c s IH]; [done|]. cbn. by rewrite IH. Qed.

(** Property X26.  The name of a part has no underscore in it: it is the
    name of the config with every underscore turned into a dot, of the
    same length, and the empty name when the config has no name. *)
Theorem part_name_has_no_underscore path cfg :
  (∀ i, String.get i (part_name (Part_init path cfg)) ≠ Some "_"%char)
  ∧ (HasValue cfg "name" = false → part_name (Part_init path cfg) = "")
  ∧ (HasValue cfg "name" = true →
     String.length (part_name (Part_init path cfg))
     = String.length (GetValue cfg "name")).
Proof.
  unfold Part_init. cbn [part_name].
  destruct (HasValue cfg "name"); cbn [negb].
  - split; [by apply str_replace_get|]. split; [done|].
    intros _. apply str_replace_length.
  - split; [by intros [|i]|]. by split.
Qed.

Lemma Preloaded_from groups : ∀ (acc : gmap string Part) k p,
  fold_left
    (λ preloaded g,
       if String.eqb (substring 0 5 (entry_name g)) "part:" then
         let part := set_model (entry_group g)
                       (Part_init "" (load (entry_config g))) in
         <[part_name part := part]> preloaded
       else preloaded)
    groups acc !! k = Some p →
  acc !! k = Some p
  ∨ ∃ g, g ∈ groups
         ∧ substring 0 5 (entry_name g) = "part:"
         ∧ p = set_model (entry_group g) (Part_init "" (load (entry_config g)))
         ∧ part_name p = k.
Proof.
  induction groups as [|g groups IH]; intros acc k p Hk; [by left|].
  cbn [fold_left] in Hk. apply IH in Hk as [Hk|(g' & Hg' & Hrest)].
  - destruct (String.eqb_spec (substring 0 5 (entry_name g)) "part:")
      as [Hpre|_]; [|by left].
    cbn zeta in Hk. apply lookup_insert_Some in Hk as [[<- <-]|[_ Hk]];
      [|by left].
    right. exists g. split; [by left|done].
  - right. exists g'. split; [by right|done].
Qed.

(** Property X27.  Every preloaded part is stored under its own name,
    was made from the config text of a group whose name starts with
    [part:], and has that group as its model. *)
Theorem Preloaded_parts_come_from_part_groups groups k p :
  Preloaded groups !! k = Some p →
  part_name p = k
  ∧ ∃ g, g ∈ groups
         ∧ substring 0 5 (entry_name g) = "part:"
         ∧ part_model p = Some (entry_group g)
         ∧ part_cfg p = load (entry_config g).
Proof.
  intros [Hk|(g & Hg & Hpre & -> & Hn)]%Preloaded_from;
    [by apply lookup_empty_Some in Hk|].
  split; [done|]. by exists g.
Qed.

End PartProperties.

(** * The properties on the concrete scenes *)

Section ExampleRuns.
Import Example.

Local Abbreviation H0 := (host false).
Local Abbreviation C0 := (collaborators false).

(** Claim C9.  The builder enters the path of an attachment-node marker
    in the path index, and appends its attachment node, before it finds
    that the marker declines to keep its transform and returns [None];
    so the index can hold, under a path, the identity of a node that is
    not in the tree: in the tree built for the part scene the marker is
    missing, and the index has its path. *)
Theorem declined_marker_stays_in_path_index :
  (∀ (H : Host) (C : Collaborators) fuel special obj path w,
     declines (w_objects w obj) (inverse (w_mu w)) = true →
     ∃ w', make_obj (S fuel) special obj path w = Ok None w'
           ∧ object_paths (w_mu w') !! node_path path (w_objects w obj)
             = Some (w_next w)
           ∧ w_next w' = S (w_next w)
           ∧ nodes (w_mu w') =
             nodes (w_mu w)
             ++ [new_AttachNode (w_objects w obj) (inverse (w_mu w))])
  ∧ ∃ tree w',
      @make_obj H0 C0 2 ∅ 0 "" part_scene = Ok (Some tree) w'
      ∧ object_paths (w_mu w') !! "root/node_stack_top" = Some 1
      ∧ 1 ∉ (tree_paths "" tree).*2.
Proof.
  split; [intros; by apply declined_marker_registered|].
  assert (return_view
            (λ r w, (option_map (λ t, (tree_paths "" t).*2) r,
                     object_paths (w_mu w) !! "root/node_stack_top"))
            (@make_obj H0 C0 2 ∅ 0 "" part_scene)
          = Some (Some [0; 2], Some 1)) as Hv by (vm_compute; reflexivity).
  apply return_view_Some in Hv as ([tree|] & w' & E & Hv); [|done].
  injection Hv as Hids Hpath. exists tree, w'.
  split; [done|]. split; [done|]. rewrite Hids.
  rewrite !elem_of_cons, elem_of_nil. lia.
Qed.


(** A hemi light is a light for the builder, and [make_light] raises
    for it.  The group instance of the instance scene has one as its
    group root: the build raises [ValueError], and the root is left
    where the offset of the group moved it, one way of reading locations
    or the other. *)
Lemma hemi_light_leaves_group_root_shifted :
  ¬ restores_locations (@make_obj (host false) (collaborators false) 3 ∅ 0 "")
                       (instance_scene false HEMI)
  ∧ ¬ restores_locations (@make_obj (host true) (collaborators true) 3 ∅ 0 "")
                         (instance_scene true HEMI).
Proof.
  split; intros Hc; unfold restores_locations in Hc.
  - assert (raise_view (λ e w, (e, @location (host false) (w_objects w 1)))
              (@make_obj (host false) (collaborators false) 3 ∅ 0 ""
                 (instance_scene false HEMI))
            = Some (ValueError, (4, 3, 2)%Z)) as Hv
      by (vm_compute; reflexivity).
    apply raise_view_Some in Hv as (e & w' & E & Hv). rewrite E in Hc.
    specialize (Hc 1). injection Hv as _ Hloc. rewrite Hloc in Hc.
    vm_compute in Hc. discriminate.
  - assert (raise_view (λ e w, (e, @location (host true) (w_objects w 1)))
              (@make_obj (host true) (collaborators true) 3 ∅ 0 ""
                 (instance_scene true HEMI))
            = Some (ValueError, (4, 3, 2)%Z)) as Hv
      by (vm_compute; reflexivity).
    apply raise_view_Some in Hv as (e & w' & E & Hv). rewrite E in Hc.
    specialize (Hc 1). injection Hv as _ Hloc. rewrite Hloc in Hc.
    vm_compute in Hc. discriminate.
Qed.

(** When locations are read as views of the object, the saved location
    follows the move, and the assignment after a build that returns
    restores nothing. *)
Lemma live_location_is_not_restored :
  ¬ restores_locations (@make_obj (host true) (collaborators true) 3 ∅ 0 "")
                       (instance_scene true SUN).
Proof.
  intros Hc. unfold restores_locations in Hc.
  assert (return_view (λ r w, @location (host true) (w_objects w 1))
            (@make_obj (host true) (collaborators true) 3 ∅ 0 ""
               (instance_scene true SUN))
          = Some (4, 3, 2)%Z) as Hv by (vm_compute; reflexivity).
  apply return_view_Some in Hv as (r & w' & E & Hloc). rewrite E in Hc.
  specialize (Hc 1). rewrite Hloc in Hc. vm_compute in Hc. discriminate.
Qed.

Lemma group_root_location_witness :
  @live_vectors H0 = false
  ∧ ∃ r w', @make_obj H0 C0 3 ∅ 0 "" (instance_scene false SUN) = Ok r w'
            ∧ w_objects w' 1 = w_objects (instance_scene false SUN) 1.
Proof.
  split; [reflexivity|].
  assert (return_view (λ r w, tt)
            (@make_obj H0 C0 3 ∅ 0 "" (instance_scene false SUN))
          = Some tt) as Hv by (vm_compute; reflexivity).
  apply return_view_Some in Hv as (r & w' & E & _).
  exists r, w'. split; [exact E|].
  exact (proj1 (@group_root_location_restored_on_return H0 C0)
               eq_refl 3 ∅ 0 "" _ r w' E 1).
Defined.

(** A collider owner given to the builder as the root is built: the
    first box collider of the part scene, taken as the root, becomes a
    node, and no collider is made of it. *)
Lemma collider_root_is_built :
  @has_collider H0 (w_objects part_scene 3) = true
  ∧ ∃ node w',
      @make_obj H0 C0 1 ∅ 3 "" part_scene = Ok (Some node) w'
      ∧ tr_name (transform node) = "collider_a"
      ∧ collider node = None.
Proof.
  split; [by vm_compute|].
  assert (return_view
            (λ r w, option_map (λ n, (tr_name (transform n), collider n)) r)
            (@make_obj H0 C0 1 ∅ 3 "" part_scene)
          = Some (Some ("collider_a", None))) as Hv
    by (vm_compute; reflexivity).
  apply return_view_Some in Hv as ([node|] & w' & E & Hv); [|done].
  injection Hv as Hname Hcol. by exists node, w'.
Qed.

Lemma collider_child_witness :
  (@collider_child H0 ∅ (w_objects part_scene 3) = true
   ∧ @object_children H0 C0 (@make_obj H0 C0 1 ∅) ∅ "root" [3; 4]
       (@head_node H0 part_scene 0) part_scene =
     @object_children H0 C0 (@make_obj H0 C0 1 ∅) ∅ "root" [4]
       (set_collider (@make_collider H0 C0 (w_objects part_scene 3))
                     (@head_node H0 part_scene 0)) part_scene)
  ∧ (@has_collider H0 (w_objects collider_empties 0) = true
     ∧ @buildable H0 1 (w_objects collider_empties)
         (w_groups collider_empties) 0
     ∧ ∃ w', @make_obj H0 C0 1 ∅ 0 "" collider_empties = Ok None w')
  ∧ (@has_collider H0 (w_objects collider_empties 1) = true
     ∧ @buildable H0 1 (w_objects collider_empties)
         (w_groups collider_empties) 1
     ∧ ∃ node w',
         @make_obj H0 C0 1 ∅ 1 "" collider_empties = Ok (Some node) w'
         ∧ shared_mesh node = None ∧ renderer node = None
         ∧ light node = None ∧ camera node = None ∧ collider node = None).
Proof.
  assert (@collider_child H0 ∅ (w_objects part_scene 3) = true) as Hc
    by (vm_compute; reflexivity).
  assert (@has_collider H0 (w_objects collider_empties 0) = true) as Hc0
    by (vm_compute; reflexivity).
  assert (@has_collider H0 (w_objects collider_empties 1) = true) as Hc1
    by (vm_compute; reflexivity).
  assert (@buildable H0 1 (w_objects collider_empties)
            (w_groups collider_empties) 0) as Hb0
    by (split; [exact I|apply Forall_nil_2]).
  assert (@buildable H0 1 (w_objects collider_empties)
            (w_groups collider_empties) 1) as Hb1
    by (split; [exact I|apply Forall_nil_2]).
  assert (@declines H0 C0 (w_objects collider_empties 0)
            (inverse (w_mu collider_empties)) = true) as Hd0
    by (vm_compute; reflexivity).
  assert (@declines H0 C0 (w_objects collider_empties 1)
            (inverse (w_mu collider_empties)) = false) as Hd1
    by (vm_compute; reflexivity).
  destruct (@collider_child_becomes_parent_field H0 C0
              (@make_obj H0 C0 1 ∅) ∅ "root" 3 [4]
              (@head_node H0 part_scene 0) part_scene Hc)
    as (Hstep & _ & Hself).
  split; [split; [exact Hc|exact Hstep]|]. split.
  - split; [exact Hc0|]. split; [exact Hb0|].
    destruct (Hself 1 ∅ 0 "" collider_empties Hc0) as [Hret Hshape].
    destruct (Hret Hb0) as (r & v' & E). specialize (Hshape r v' E).
    destruct r as [node|]; [|by exists v'].
    destruct Hshape as [Hd _]. congruence.
  - split; [exact Hc1|]. split; [exact Hb1|].
    destruct (Hself 1 ∅ 1 "" collider_empties Hc1) as [Hret Hshape].
    destruct (Hret Hb1) as (r & v' & E). specialize (Hshape r v' E).
    destruct r as [node|]; [|congruence].
    destruct Hshape as (_ & Hm & Hr & Hl & Hca & Hfrom).
    exists node, v'. split; [exact E|].
    split; [exact Hm|]. split; [exact Hr|]. split; [exact Hl|].
    split; [exact Hca|].
    destruct (collider node) as [x|] eqn:Ex; [|reflexivity].
    destruct (Hfrom x eq_refl) as (k & b & Hk & _). by inversion Hk.
Defined.

Lemma empty_table_keeps_paths `{Host} : handlers_keep_paths ∅.
Proof. intros k h mu o Hk. by rewrite lookup_empty in Hk. Defined.

Lemma empty_table_claiming `{Host} : claiming ∅.
Proof. intros k h mu o Hk. by rewrite lookup_empty in Hk. Defined.

Lemma node_paths_witness :
  @handlers_keep_paths H0 ∅
  ∧ "model" ≠ ""
  ∧ @well_named H0 2 part_scene 0 = true
  ∧ @fresh_under H0 part_scene (@node_path H0 "model" (w_objects part_scene 0))
  ∧ @node_path H0 "model" (w_objects part_scene 0)
    = "model" +:+ "/" +:+ @strip_nnn H0 (obj_name (w_objects part_scene 0))
  ∧ ∃ tree w',
      @make_obj H0 C0 2 ∅ 0 "model" part_scene = Ok (Some tree) w'
      ∧ (tree_paths "model" tree).*1 = ["model/root"; "model/root/lamp"]
      ∧ @collision_free H0 part_scene w'
      ∧ @all_indexed H0 w' (tree_paths "model" tree)
      ∧ NoDup (tree_paths "model" tree).*1.
Proof.
  assert ("model" ≠ "") as Hne by done.
  assert (@well_named H0 2 part_scene 0 = true) as Hwell
    by (vm_compute; reflexivity).
  assert (@fresh_under H0 part_scene
            (@node_path H0 "model" (w_objects part_scene 0))) as Hfresh
    by (intros q _; exact (lookup_empty q)).
  pose proof (@node_paths_registered H0 C0 1 ∅ 0 "model" part_scene
                empty_table_keeps_paths) as Hw.
  cbv zeta in Hw. destruct Hw as (Hjoin & _ & _ & Hrun).
  assert (return_view
            (λ r w, option_map (λ t, (tree_paths "model" t).*1) r)
            (@make_obj H0 C0 2 ∅ 0 "model" part_scene)
          = Some (Some ["model/root"; "model/root/lamp"])) as Hv
    by (vm_compute; reflexivity).
  apply return_view_Some in Hv as ([tree|] & w' & E & Hv); [|done].
  injection Hv as Hpaths. rewrite E in Hrun. destruct Hrun as [_ Hrun].
  destruct (Hrun tree eq_refl) as (_ & _ & Hscene).
  destruct (Hscene Hwell Hfresh) as (Hcf & Hidx & Hnd).
  split; [apply empty_table_keeps_paths|]. split; [exact Hne|].
  split; [exact Hwell|]. split; [exact Hfresh|].
  split; [exact (Hjoin Hne)|]. exists tree, w'.
  split; [exact E|]. split; [exact Hpaths|]. split; [exact Hcf|].
  split; [exact Hidx|exact Hnd].
Defined.

Lemma make_texture_witness :
  0 < 2
  ∧ [slot "hull.png" 1; slot "glass.png" 1; slot "hull.png" 4] !! 0
    = Some (slot "hull.png" 1)
  ∧ [slot "hull.png" 1; slot "glass.png" 1; slot "hull.png" 4] !! 2
    = Some (slot "hull.png" 4)
  ∧ ∃ ua ub,
      (@make_textures H0 (empty_mu false "NONE")
         [slot "hull.png" 1; slot "glass.png" 1; slot "hull.png" 4]).2 !! 0
        = Some ua
      ∧ (@make_textures H0 (empty_mu false "NONE")
           [slot "hull.png" 1; slot "glass.png" 1; slot "hull.png" 4]).2 !! 2
        = Some ub
      ∧ mattex_index ua = mattex_index ub
      ∧ mattex_scale ua = [1%Z; 1%Z] ∧ mattex_scale ub = [4%Z; 4%Z].
Proof.
  split; [lia|]. split; [reflexivity|]. split; [reflexivity|].
  destruct (@make_texture_shares_index H0 (empty_mu false "NONE")
              [slot "hull.png" 1; slot "glass.png" 1; slot "hull.png" 4]
              0 2 (slot "hull.png" 1) (slot "hull.png" 4))
    as (ua & ub & Ha & Hb & Hi & Hsa & _ & Hsb & _);
    [lia|reflexivity|reflexivity|reflexivity|].
  exists ua, ub. auto.
Defined.

Lemma mesh_renderer_witness :
  @data H0 (w_objects part_scene 0) = Some (DMesh hull_mesh)
  ∧ ∃ node w',
      @make_obj H0 C0 2 ∅ 0 "" part_scene = Ok (Some node) w'
      ∧ (shaded hull_mesh = [] → renderer node = None)
      ∧ ∀ r, renderer node = Some r →
          rend_materials r ≠ []
          ∧ Forall2 (indexed (make_renderer
                                (w_mu (@registered H0 "" 0 part_scene))
                                hull_mesh).1)
                    (shaded hull_mesh) (rend_materials r).
Proof.
  assert (@data H0 (w_objects part_scene 0) = Some (DMesh hull_mesh)) as Hd
    by reflexivity.
  split; [exact Hd|].
  assert (return_view (λ r w, option_map (λ _, tt) r)
            (@make_obj H0 C0 2 ∅ 0 "" part_scene) = Some (Some tt)) as Hv
    by (vm_compute; reflexivity).
  apply return_view_Some in Hv as ([node|] & w' & E & _); [|done].
  exists node, w'. split; [exact E|].
  pose proof (@mesh_renderer_only_shaded_materials H0 C0 2 ∅ 0 ""
                part_scene hull_mesh node w' Hd E) as Hw.
  cbv zeta in Hw. destruct Hw as (_ & Hnone & Hsome). by split.
Defined.

Lemma rotation_by_role_witness :
  ∃ node w',
    @make_obj H0 C0 1 ∅ 2 "root" part_scene = Ok (Some node) w'
    ∧ localRotation (transform node) =
      apply_correction (@role_correction H0 (w_objects part_scene 2))
                       (@base_rotation H0 (w_objects part_scene 2)).
Proof.
  assert (return_view (λ r w, option_map (λ _, tt) r)
            (@make_obj H0 C0 1 ∅ 2 "root" part_scene) = Some (Some tt)) as Hv
    by (vm_compute; reflexivity).
  apply return_view_Some in Hv as ([node|] & w' & E & _); [|done].
  exists node, w'. split; [exact E|].
  exact (@make_obj_rotation_by_role H0 C0 1 ∅ 2 "root" part_scene node w' E).
Defined.



Lemma last_collider_witness :
  @claiming H0 ∅
  ∧ @children H0 (w_objects part_scene 0) = [1; 2; 3] ++ 4 :: []
  ∧ @collider_child H0 ∅ (w_objects part_scene 4) = true
  ∧ ∃ node w',
      @make_obj H0 C0 2 ∅ 0 "" part_scene = Ok (Some node) w'
      ∧ ∃ b, static_eq (w_objects part_scene 4) b
             ∧ collider node = Some (@make_collider H0 C0 b).
Proof.
  assert (@children H0 (w_objects part_scene 0) = [1; 2; 3] ++ 4 :: [])
    as Hkids by reflexivity.
  assert (@collider_child H0 ∅ (w_objects part_scene 4) = true) as Hc
    by (vm_compute; reflexivity).
  split; [apply empty_table_claiming|]. split; [exact Hkids|].
  split; [exact Hc|].
  assert (return_view (λ r w, option_map (λ _, tt) r)
            (@make_obj H0 C0 2 ∅ 0 "" part_scene) = Some (Some tt)) as Hv
    by (vm_compute; reflexivity).
  apply return_view_Some in Hv as ([node|] & w' & E & _); [|done].
  exists node, w'. split; [exact E|].
  exact (@last_collider_child_wins H0 C0 2 ∅ 0 "" part_scene node w'
           [1; 2; 3] 4 [] empty_table_claiming E Hkids Hc (Forall_nil_2 _)).
Defined.

(** Scenario D.  The export of the PART model with an internal space and
    two props as children writes a config whose PART section has one
    INTERNAL block and no PROP block: a PART model has no handler for
    props, and its section is not given any. *)
Lemma scenario_D_writes_no_prop_block :
  return_view
    (λ r w, match r.2 with
            | Some (_, doc) =>
                match GetNode "PART" doc with
                | Some part => Some (count_sections "INTERNAL" part,
                                     count_sections "PROP" part)
                | None => None
                end
            | None => None
            end)
    (@export_object H0 C0 3 0 "pod" scenario_D)
  = Some (Some (1, 0)).
Proof. vm_compute. reflexivity. Qed.

(** The same kind of props under a model that is itself an internal
    space: two PROP blocks. *)
Lemma internal_model_writes_prop_blocks :
  return_view
    (λ r w, match r.2 with
            | Some (_, doc) =>
                match GetNode "INTERNAL" doc with
                | Some section => Some (count_sections "PROP" section)
                | None => None
                end
            | None => None
            end)
    (@export_object H0 C0 3 0 "interior" internal_scene)
  = Some (Some 2).
Proof. vm_compute. reflexivity. Qed.

End ExampleRuns.
(** * The further properties on the concrete scenes *)

Section MoreExampleRuns.
Import Example.

Local Abbreviation H0 := (host false).
Local Abbreviation C0 := (collaborators false).

Lemma empty_mu_ok : @model_ok H0 (empty_mu false "PART").
Proof. by apply model_ok_empty. Qed.

Lemma empty_table_keeps_tables `{Host} : handlers_keep_tables ∅.
Proof. by intros k h mu o ?%lookup_empty_Some. Qed.

Lemma empty_table_capturing `{Host} : capturing ∅.
Proof. by intros k h ?%lookup_empty_Some. Qed.

Lemma make_texture_indexed_witness :
  well_indexed tex_index (@textures H0 (empty_mu false "PART"))
  ∧ ∃ t, textures (make_texture (empty_mu false "PART") (slot "hull.png" 1)).1
           !! "hull.png" = Some t
         ∧ tex_index t < 1.
Proof.
  assert (well_indexed tex_index (@textures H0 (empty_mu false "PART")))
    as Hwi by apply well_indexed_empty.
  split; [exact Hwi|].
  destruct (@make_texture_keeps_table_indexed H0 (empty_mu false "PART")
              (slot "hull.png" 1) Hwi) as (_ & _ & _ & t & Ht & _ & Hlt).
  exists t. split; [exact Ht|]. exact Hlt.
Defined.

Lemma make_material_witness :
  @model_ok H0 (empty_mu false "PART")
  ∧ material_index (make_material (empty_mu false "PART") painted).2 = 0
  ∧ ∀ p u,
      textureProperties (make_material (empty_mu false "PART") painted).2 !! p
        = Some u →
      texture_at (make_material (empty_mu false "PART") painted).1
                 (mattex_index u).
Proof.
  split; [exact empty_mu_ok|].
  destruct (@make_material_textures_interned H0 (empty_mu false "PART")
              painted empty_mu_ok) as (Hi & _ & _ & _ & _ & Hrefs).
  split; [exact Hi|exact Hrefs].
Defined.

Lemma make_renderer_indices_witness :
  @model_ok H0 (empty_mu false "PART")
  ∧ ∀ r, (make_renderer (empty_mu false "PART") hull_mesh).2 = Some r →
      Forall (λ i, material_at (make_renderer (empty_mu false "PART")
                                  hull_mesh).1 i
                   ∧ i < size (materials (make_renderer (empty_mu false "PART")
                                             hull_mesh).1))
             (rend_materials r).
Proof.
  split; [exact empty_mu_ok|].
  exact (proj2 (proj2 (proj2
           (@make_renderer_indices_in_table H0 (empty_mu false "PART")
              hull_mesh empty_mu_ok)))).
Defined.

Lemma build_keeps_tables_witness :
  @handlers_keep_tables H0 ∅
  ∧ match @make_obj H0 C0 2 ∅ 0 "" part_scene with
    | Ok _ w' | Raise _ w' =>
        materials (w_mu part_scene) ⊆ materials (w_mu w')
        ∧ textures (w_mu part_scene) ⊆ textures (w_mu w')
        ∧ (model_ok (w_mu part_scene) → model_ok (w_mu w'))
    | OutOfFuel => True
    end.
Proof.
  split; [exact empty_table_keeps_tables|].
  exact (@build_keeps_tables H0 C0 2 ∅ 0 "" part_scene
           empty_table_keeps_tables).
Defined.

Lemma tree_materials_witness :
  @handlers_keep_tables H0 ∅
  ∧ ∃ tree w',
      @make_obj H0 C0 2 ∅ 0 "" part_scene = Ok (Some tree) w'
      ∧ tree_materials tree = [0]
      ∧ Forall (λ i, material_at (w_mu w') i
                     ∧ (model_ok (w_mu part_scene) →
                        i < size (materials (w_mu w'))))
               (tree_materials tree).
Proof.
  split; [exact empty_table_keeps_tables|].
  assert (return_view (λ r w, option_map tree_materials r)
            (@make_obj H0 C0 2 ∅ 0 "" part_scene) = Some (Some [0])) as Hv
    by (vm_compute; reflexivity).
  apply return_view_Some in Hv as ([tree|] & w' & E & Hv); [|done].
  injection Hv as Hv. exists tree, w'. split; [exact E|]. split; [exact Hv|].
  exact (@tree_materials_in_table H0 C0 2 ∅ 0 "" part_scene tree w'
           empty_table_keeps_tables E).
Defined.

Lemma build_appends_witness :
  @capturing H0 (<["INTERNAL" := add_internal]> ∅)
  ∧ match @make_obj H0 C0 2 (<["INTERNAL" := add_internal]> ∅) 0 ""
            scenario_D with
    | Ok _ w' | Raise _ w' =>
        mu_name (w_mu w') = mu_name (w_mu scenario_D)
        ∧ mu_type (w_mu w') = mu_type (w_mu scenario_D)
        ∧ inverse (w_mu w') = inverse (w_mu scenario_D)
        ∧ nodes (w_mu scenario_D) `prefix_of` nodes (w_mu w')
        ∧ props (w_mu scenario_D) `prefix_of` props (w_mu w')
        ∧ (∀ i, internal (w_mu scenario_D) = Some i →
                internal (w_mu w') = Some i)
    | OutOfFuel => True
    end.
Proof.
  assert (@capturing H0 (<["INTERNAL" := add_internal]> ∅)) as Hc.
  { apply (special_modelTypes_capturing "PART"). reflexivity. }
  split; [exact Hc|].
  exact (@build_appends_to_model H0 C0 2 _ 0 "" scenario_D Hc).
Defined.

Lemma hemi_light_aborts_witness :
  data (w_objects (instance_scene false HEMI) 1)
    = Some (DLight {| light_type := HEMI; light_color := 0%Z : @Color H0;
                      light_distance := 10%Z : @scalar H0;
                      light_energy := 1%Z : @scalar H0;
                      spot_size := 0%Z : @scalar H0 |})
  ∧ @has_collider H0 (w_objects (instance_scene false HEMI) 1) = false
  ∧ @make_obj H0 C0 1 ∅ 1 "instance" (instance_scene false HEMI)
    = Raise ValueError (registered "instance" 1 (instance_scene false HEMI)).
Proof.
  assert (@has_collider H0 (w_objects (instance_scene false HEMI) 1) = false)
    as Hc by (vm_compute; reflexivity).
  split; [reflexivity|]. split; [exact Hc|].
  exact (@hemi_light_aborts_the_build H0 C0 0 ∅ 1 "instance"
           (instance_scene false HEMI) _ eq_refl eq_refl Hc).
Defined.

Lemma is_group_root_witness :
  ancestors (w_objects family) 2 [1; 0]
  ∧ @is_group_root H0 2 (w_objects family) 2 (w_groups family 0) = Some false
  ∧ ancestors (w_objects family) 1 [0]
  ∧ ancestors (w_objects family) 0 []
  ∧ @is_group_root H0 0 (w_objects family) 0 (w_groups family 0) = Some true.
Proof.
  assert (ancestors (w_objects family) 0 []) as H0' by (by constructor).
  assert (ancestors (w_objects family) 1 [0]) as H1 by (by econstructor).
  assert (ancestors (w_objects family) 2 [1; 0]) as H2 by (by econstructor).
  split; [exact H2|]. split; [|split; [exact H1|split; [exact H0'|]]].
  - exact (@is_group_root_follows_parents H0 2 (w_objects family)
             (w_groups family 0) 2 [1; 0] H2 (le_n 2)).
  - exact (@is_group_root_follows_parents H0 0 (w_objects family)
             (w_groups family 0) 0 [] H0' (le_n 0)).
Defined.

Lemma polled_root_witness :
  @poll H0 (Some (w_objects part_scene 0)) = true
  ∧ ∃ node w',
      @make_obj H0 C0 2 ∅ 0 "" part_scene = Ok (Some node) w'
      ∧ light node = None ∧ camera node = None.
Proof.
  split; [reflexivity|].
  assert (return_view (λ r w, option_map (λ _, tt) r)
            (@make_obj H0 C0 2 ∅ 0 "" part_scene) = Some (Some tt)) as Hv
    by (vm_compute; reflexivity).
  apply return_view_Some in Hv as ([node|] & w' & E & _); [|done].
  exists node, w'. split; [exact E|].
  exact (@polled_root_has_no_light_or_camera H0 C0 2 ∅ 0 "" part_scene node w'
           eq_refl E).
Defined.

Lemma children_order_witness :
  ∃ node w',
    @make_obj H0 C0 2 ∅ 0 "" twins = Ok (Some node) w'
    ∧ @live_vectors H0 = false ∧ @capturing H0 ∅
    ∧ (λ b : @BObject H0, (obj_name b, @location H0 b))
        <$> (@group_part H0 C0 1 twins 0 ++ @child_part H0 C0 ∅ twins 0)
      = [("lamp", (4, 3, 2)%Z : @Vector H0);
         ("lamp.001", (5, 4, 3)%Z : @Vector H0);
         ("arm", (1, 0, 0)%Z : @Vector H0);
         ("arm.001", (2, 0, 0)%Z : @Vector H0)]
    ∧ Forall2 (@node_of H0)
        (@group_part H0 C0 1 twins 0 ++ @child_part H0 C0 ∅ twins 0)
        (mu_children node)
    ∧ (λ n : @MuObject H0, localPosition (transform n)) <$> mu_children node
      = [Copy ((4, 3, 2)%Z : @Vector H0); Copy ((5, 4, 3)%Z : @Vector H0);
         Copy ((1, 0, 0)%Z : @Vector H0); Copy ((2, 0, 0)%Z : @Vector H0)].
Proof.
  assert (return_view
            (λ r w, option_map
                      (λ n, (λ c, localPosition (transform c))
                              <$> mu_children n) r)
            (@make_obj H0 C0 2 ∅ 0 "" twins)
          = Some (Some [Copy ((4, 3, 2)%Z : @Vector H0);
                        Copy ((5, 4, 3)%Z : @Vector H0);
                        Copy ((1, 0, 0)%Z : @Vector H0);
                        Copy ((2, 0, 0)%Z : @Vector H0)])) as Hv
    by (vm_compute; reflexivity).
  apply return_view_Some in Hv as ([node|] & w' & E & Hv); [|done].
  injection Hv as Hv. exists node, w'. split; [exact E|].
  split; [reflexivity|]. split; [apply empty_table_capturing|].
  split; [vm_compute; reflexivity|]. split; [|exact Hv].
  exact (proj2 (@children_in_authoring_order H0 C0 1 ∅ 0 "" twins node w' E)
           eq_refl empty_table_capturing).
Defined.

Lemma extend_path_inj_witness :
  extend_path "root" "lamp" = extend_path "root" "lamp"
  ∧ "lamp" = "lamp".
Proof.
  split; [reflexivity|].
  exact (extend_path_inj "root" "lamp" "lamp" eq_refl).
Defined.

Lemma extend_path_twice_witness :
  "arm" ≠ ""
  ∧ extend_path (extend_path "base" "arm") "lamp"
    = extend_path "base" "arm/lamp".
Proof.
  assert ("arm" ≠ "") as Hne by discriminate.
  split; [exact Hne|].
  exact (extend_path_twice "base" "arm" "lamp" Hne).
Defined.



Lemma listed_by_index_witness :
  ∃ root cfg w',
    @export_object H0 C0 1 0 "plate" plated = Ok (root, cfg) w'
    ∧ material_name <$> @materials_list H0 (w_mu w')
      = ["zinc"; "painted"; "alu"]
    ∧ tex_name <$> @textures_list H0 (w_mu w') = ["hull.png"]
    ∧ option_map tree_materials root = Some [0; 1; 2]
    ∧ length (@materials_list H0 (w_mu w')) = size (materials (w_mu w'))
    ∧ (∀ tree, root = Some tree →
         Forall (λ i, ∃ m, @materials_list H0 (w_mu w') !! i = Some m
                           ∧ material_index m = i)
                (tree_materials tree))
    ∧ (∀ i m p u, @materials_list H0 (w_mu w') !! i = Some m →
         textureProperties m !! p = Some u →
         ∃ t, @textures_list H0 (w_mu w') !! mattex_index u = Some t
              ∧ tex_index t = mattex_index u).
Proof.
  assert (return_view
            (λ r w, (material_name <$> @materials_list H0 (w_mu w),
                     tex_name <$> @textures_list H0 (w_mu w),
                     option_map tree_materials r.1))
            (@export_object H0 C0 1 0 "plate" plated)
          = Some (["zinc"; "painted"; "alu"], ["hull.png"], Some [0; 1; 2]))
    as Hv by (vm_compute; reflexivity).
  apply return_view_Some in Hv as ([root cfg] & w' & E & Hv).
  injection Hv as Hm Ht Hr. exists root, cfg, w'.
  destruct (@listed_by_index_positions H0 C0 1 0 "plate" plated
              root cfg w' E) as (Hlen & _ & _ & _ & Htree & Hrefs).
  split; [exact E|]. split; [exact Hm|]. split; [exact Ht|].
  split; [exact Hr|]. split; [exact Hlen|]. split; [exact Htree|exact Hrefs].
Defined.

Lemma export_in_order_witness :
  ∃ root cfg w',
    @export_object H0 C0 3 0 "pod" scenario_D = Ok (root, cfg) w'
    ∧ model_ok (w_mu w')
    ∧ mu_name (w_mu w') = "pod".
Proof.
  assert (return_view (λ r w, tt) (@export_object H0 C0 3 0 "pod" scenario_D)
          = Some tt) as Hv by (vm_compute; reflexivity).
  apply return_view_Some in Hv as ([root cfg] & w' & E & _).
  exists root, cfg, w'. split; [exact E|].
  destruct (@export_leaves_model_in_order H0 C0 3 0 "pod" scenario_D
              root cfg w' E) as (Hok & Hn & _).
  split; [exact Hok|exact Hn].
Defined.

Lemma node_transform_witness :
  ∃ node w',
    @make_obj H0 C0 1 ∅ 2 "root" part_scene = Ok (Some node) w'
    ∧ localPosition (transform node) = Copy ((0, 0, 2)%Z : @Vector H0).
Proof.
  assert (return_view (λ r w, option_map (λ _, tt) r)
            (@make_obj H0 C0 1 ∅ 2 "root" part_scene) = Some (Some tt)) as Hv
    by (vm_compute; reflexivity).
  apply return_view_Some in Hv as ([node|] & w' & E & _); [|done].
  exists node, w'. split; [exact E|].
  exact (proj1 (@node_carries_object_transform H0 C0 1 ∅ 2 "root" part_scene
                  node w' E)).
Defined.

Lemma group_root_shifted_witness :
  @live_vectors H0 = false ∧ @capturing H0 ∅
  ∧ data (w_objects twins 0) = None
  ∧ dupli_group (w_objects twins 0) = Some 0
  ∧ filter (λ o, @root_built H0 C0 1 (w_objects twins) (w_groups twins 0)
                   (inverse (w_mu twins)) o = true)
           (group_objects (w_groups twins 0)) = [1; 2]
  ∧ length (@child_part H0 C0 ∅ twins 0) = 2
  ∧ ∃ node w',
      @make_obj H0 C0 2 ∅ 0 "" twins = Ok (Some node) w'
      ∧ ∃ roots kids,
          mu_children node = roots ++ kids
          ∧ Forall2 (λ o n,
              tr_name (transform n)
              = @strip_nnn H0 (obj_name (w_objects twins o))
              ∧ localPosition (transform n) =
                  Copy (@vec_sub H0 (location (w_objects twins o))
                                 (dupli_offset (w_groups twins 0))))
              (filter (λ o, @root_built H0 C0 1 (w_objects twins)
                              (w_groups twins 0) (inverse (w_mu twins)) o
                            = true)
                      (group_objects (w_groups twins 0)))
              roots
          ∧ length kids = length (@child_part H0 C0 ∅ twins 0).
Proof.
  split; [reflexivity|]. split; [apply empty_table_capturing|].
  split; [reflexivity|]. split; [reflexivity|].
  split; [vm_compute; reflexivity|]. split; [vm_compute; reflexivity|].
  assert (return_view (λ r w, option_map (λ _, tt) r)
            (@make_obj H0 C0 2 ∅ 0 "" twins) = Some (Some tt)) as Hv
    by (vm_compute; reflexivity).
  apply return_view_Some in Hv as ([node|] & w' & E & Hv);
    [|discriminate Hv].
  exists node, w'. split; [exact E|].
  exact (@group_root_nodes_are_shifted H0 C0 1 ∅ 0 "" twins node w' 0
           eq_refl empty_table_capturing eq_refl eq_refl E).
Defined.

Lemma claimed_child_witness :
  (<["INTERNAL" := @add_internal H0]> ∅ : gmap string Handler)
    !! prop_modelType (muproperties (w_objects scenario_D 1))
    = Some add_internal
  ∧ (@add_internal H0 (w_mu scenario_D) 1).2 = true
  ∧ @object_children H0 C0
      (@make_obj H0 C0 1 (<["INTERNAL" := add_internal]> ∅))
      (<["INTERNAL" := add_internal]> ∅) "pod" (1 :: [2; 3])
      (@head_node H0 scenario_D 0) scenario_D
    = @object_children H0 C0
        (@make_obj H0 C0 1 (<["INTERNAL" := add_internal]> ∅))
        (<["INTERNAL" := add_internal]> ∅) "pod" [2; 3]
        (@head_node H0 scenario_D 0)
        (with_mu (add_internal (w_mu scenario_D) 1).1 scenario_D).
Proof.
  assert ((<["INTERNAL" := @add_internal H0]> ∅ : gmap string Handler)
            !! prop_modelType (muproperties (w_objects scenario_D 1))
          = Some add_internal) as Hh by (vm_compute; reflexivity).
  split; [exact Hh|]. split; [reflexivity|].
  exact (@claimed_child_is_not_built H0 C0 _ _ "pod" 1 [2; 3]
           (@head_node H0 scenario_D 0) scenario_D add_internal Hh eq_refl).
Defined.

Lemma offset_marker_witness :
  data com_marker = None
  ∧ @strip_nnn H0 (obj_name com_marker) = "CoMOffset"
  ∧ ∃ mu',
      @make_empty H0 C0 com_marker (@head_node H0 part_scene 0) part_scene
        = Ok (Some (@head_node H0 part_scene 0)) (with_mu mu' part_scene)
      ∧ CoMOffset mu' = Some ((0, 0, 0)%Z : @Vector H0)
      ∧ CoPOffset mu' = None ∧ CoLOffset mu' = None.
Proof.
  assert (@strip_nnn H0 (obj_name com_marker) = "CoMOffset") as Hn
    by (vm_compute; reflexivity).
  assert ("CoMOffset" ∈ ["CoMOffset"; "CoPOffset"; "CoLOffset"]) as Hin
    by (by left).
  split; [reflexivity|]. split; [exact Hn|].
  destruct (@offset_marker_sets_its_offset H0 C0 com_marker
              (@head_node H0 part_scene 0) part_scene "CoMOffset" eq_refl
              Hn Hin)
    as (mu' & Hrun & _ & Hm & Hp & Hl).
  exists mu'. split; [exact Hrun|]. split; [exact Hm|]. split; [exact Hp|].
  exact Hl.
Defined.

Lemma Preloaded_witness :
  ∃ p, @Preloaded H0 part_host part_groups !! "fuel.tank" = Some p
       ∧ part_name p = "fuel.tank"
       ∧ part_model p = Some 1.
Proof.
  destruct (@Preloaded H0 part_host part_groups !! "fuel.tank") as [p|] eqn:E;
    [|by vm_compute in E].
  exists p. split; [reflexivity|].
  destruct (@Preloaded_parts_come_from_part_groups H0 part_host part_groups
              "fuel.tank" p E) as (Hn & g & Hg & Hpre & Hm & _).
  split; [exact Hn|].
  rewrite Hm. unfold part_groups in Hg.
  rewrite !elem_of_cons, elem_of_nil in Hg.
  destruct Hg as [->|[->|[]]]; [by vm_compute in Hpre|reflexivity].
Defined.

End MoreExampleRuns.
